(** * MazeSolver: a shallow embedding of MazeSolver.py and its properties

    The development follows the layout of the program: the maze generator
    [generate_maze], the application state of [MazeApp], the four animation
    callbacks [animate_bfs], [animate_dfs], [animate_dijkstra] and
    [animate_astar], the path drawing [draw_solution_path] and the event
    handlers that start, pause and resume a search.

    Python integers are [Z]; a Python list is a [list]; a dict is a [gmap];
    an exception is the [Raise] outcome of a small error monad. *)

From Stdlib Require Import ZArith List Lia Bool Permutation.
From stdpp Require Import base gmap list strings sorting.

Local Open Scope Z_scope.

#[local] Set Warnings "-clear-no-such-hyp".

(** ** Outcomes: values, Python exceptions and exhausted loop fuel *)

Inductive exn := IndexError | TypeError | ValueError.

Inductive outcome (A : Type) :=
| Done (a : A)
| Raise (e : exn)
| NoFuel.
Arguments Done {A} a.
Arguments Raise {A} e.
Arguments NoFuel {A}.

#[global] Instance outcome_ret : MRet outcome := fun A a => Done a.
#[global] Instance outcome_bind : MBind outcome := fun A B f m =>
  match m with
  | Done a => f a
  | Raise e => Raise e
  | NoFuel => NoFuel
  end.

(** ** Python lists *)

Abbreviation coord := (Z * Z)%type.
Abbreviation Grid := (list (list Z)).

Definition len {A} (l : list A) : Z := Z.of_nat (length l).

(** [l[i]]: a negative index counts from the end, anything else out of range
    raises IndexError. *)
Definition py_norm {A} (l : list A) (i : Z) : Z := if i <? 0 then i + len l else i.

Definition py_index {A} (l : list A) (i : Z) : outcome A :=
  let j := py_norm l i in
  if (0 <=? j) && (j <? len l) then
    match l !! Z.to_nat j with
    | Some a => Done a
    | None => Raise IndexError
    end
  else Raise IndexError.

(** [l[i] = a] *)
Definition py_setitem {A} (l : list A) (i : Z) (a : A) : outcome (list A) :=
  let j := py_norm l i in
  if (0 <=? j) && (j <? len l) then Done (<[Z.to_nat j := a]> l)
  else Raise IndexError.

(** [maze[y][x]] and [maze[y][x] = v] *)
Definition grid_get (maze : Grid) (y x : Z) : outcome Z :=
  row ← py_index maze y; py_index row x.

Definition grid_set (maze : Grid) (y x v : Z) : outcome Grid :=
  row ← py_index maze y;
  row' ← py_setitem row x v;
  py_setitem maze y row'.

(** [random.choice(seq)]: the random source is a sequence of naturals, one
    per call, reduced modulo the length; an empty sequence raises. *)
Definition choice {A} (r : nat) (l : list A) : outcome A :=
  match l !! (r mod length l)%nat with
  | Some a => Done a
  | None => Raise IndexError
  end.

(** [l.remove(a)]: drops the first occurrence, ValueError when absent. *)
Fixpoint py_remove {A} `{EqDecision A} (a : A) (l : list A) : outcome (list A) :=
  match l with
  | [] => Raise ValueError
  | b :: l' => if decide (a = b) then Done l' else l'' ← py_remove a l'; Done (b :: l'')
  end.

(** ** Maze generation *)

Module Gen.

Definition dirs : list coord := [(2, 0); (-2, 0); (0, 2); (0, -2)].

(** One round of the [for dx, dy in ...] loop that collects the carvable
    neighbours of [(x, y)]. *)
Definition probe (maze : Grid) (width height x y : Z)
    (acc : list (Z * Z * Z * Z)) (d : coord) : outcome (list (Z * Z * Z * Z)) :=
  let '(dx, dy) := d in
  let nx := x + dx in
  let ny := y + dy in
  if (0 <? nx) && (nx <? width) && (0 <? ny) && (ny <? height) then
    v ← grid_get maze ny nx;
    Done (if v =? 1 then acc ++ [(nx, ny, dx, dy)] else acc)
  else Done acc.

Fixpoint probes (maze : Grid) (width height x y : Z)
    (acc : list (Z * Z * Z * Z)) (ds : list coord) : outcome (list (Z * Z * Z * Z)) :=
  match ds with
  | [] => Done acc
  | d :: ds' => acc' ← probe maze width height x y acc d;
                probes maze width height x y acc' ds'
  end.

(** The body of the [while cell_list:] loop; [i] counts the calls of
    [random.choice] and is returned with the new grid and cell list. *)
Definition carve_body (rnd : nat -> nat) (i : nat) (width height : Z)
    (maze : Grid) (cell_list : list coord) : outcome (Grid * list coord * nat) :=
  '(x, y) ← choice (rnd i) cell_list;
  neighbors ← probes maze width height x y [] dirs;
  match neighbors with
  | _ :: _ =>
    '(nx, ny, dx, dy) ← choice (rnd (S i)) neighbors;
    maze1 ← grid_set maze (y + dy / 2) (x + dx / 2) 0;
    maze2 ← grid_set maze1 ny nx 0;
    Done (maze2, cell_list ++ [(nx, ny)], S (S i))
  | [] =>
    cell_list' ← py_remove (x, y) cell_list;
    Done (maze, cell_list', S i)
  end.

Fixpoint carve (rnd : nat -> nat) (fuel : nat) (i : nat) (width height : Z)
    (maze : Grid) (cell_list : list coord) : outcome Grid :=
  match cell_list with
  | [] => Done maze
  | _ :: _ =>
    match fuel with
    | O => NoFuel
    | S fuel' =>
      '(maze', cell_list', i') ← carve_body rnd i width height maze cell_list;
      carve rnd fuel' i' width height maze' cell_list'
    end
  end.

Definition force_odd (n : Z) : Z := if n mod 2 =? 0 then n + 1 else n.

Definition generate_maze (rnd : nat -> nat) (fuel : nat) (width height : Z) : outcome Grid :=
  let width := force_odd width in
  let height := force_odd height in
  let maze := replicate (Z.to_nat height) (replicate (Z.to_nat width) 1) in
  maze ← grid_set maze 1 1 0;
  carve rnd fuel 0 width height maze [(1, 1)].

End Gen.

(** ** Cells, passages and walks *)

(** The value stored at [(x, y)], when both indices are in range. *)
Definition get (maze : Grid) (c : coord) : option Z :=
  if (0 <=? c.1) && (0 <=? c.2) then
    row ← maze !! Z.to_nat c.2; row !! Z.to_nat c.1
  else None.

(** A Passage cell holds 0, a Wall cell holds 1. *)
Definition passage (maze : Grid) (c : coord) : Prop := get maze c = Some 0.

#[global] Instance passage_dec maze c : Decision (passage maze c).
Proof. unfold passage. apply _. Defined.

(** The four moves of the solvers, in the order they try them, and the
    four cardinal neighbours of a cell. *)
Definition deltas : list coord := [(1, 0); (0, 1); (-1, 0); (0, -1)].

Definition move (c d : coord) : coord := (c.1 + d.1, c.2 + d.2).

Definition neighbours (c : coord) : list coord := move c <$> deltas.

(** [walk maze s c n]: [c] is reached from [s] by [n] cardinal moves, each
    onto a Passage cell. *)
Inductive walk (maze : Grid) (s : coord) : coord -> Z -> Prop :=
| walk_nil : walk maze s s 0
| walk_snoc c c' n :
    walk maze s c n -> c' ∈ neighbours c -> passage maze c' ->
    walk maze s c' (n + 1).

Definition reachable (maze : Grid) (s c : coord) : Prop := exists n, walk maze s c n.

(** A grid of [h] rows of [w] cells each. *)
Definition rect (maze : Grid) (w h : Z) : Prop :=
  len maze = h /\ Forall (fun row => len row = w) maze.

(** ** The application state of [MazeApp]

    Widgets, the zoom factor and the canvas are rendering state and stay
    outside; what the program shows is recorded as a list of events.  Clock
    readings ([time.time()]) are inputs of the callbacks, as integers. *)

Inductive colour := LightBlue | Yellow | Green | Red.

#[global] Instance colour_eq_dec : EqDecision colour.
Proof. solve_decision. Defined.

(** The bound method handed to [self.after]. *)
Inductive callback := CbBfs | CbDfs | CbDijkstra | CbAstar.

Inductive label :=
| LabelTime (elapsed : Z)        (* "Time: <t> s" *)
| LabelSolved (elapsed : Z).     (* "Time: <t> s (Solved)" *)

Inductive event :=
| ShowError (title msg : string)
| ShowInfo (title msg : string)
| DrawMaze
| DrawCell (c : coord) (fill : colour)
| SetTimeLabel (l : label)
| SetPauseButton (text : string)
| After (ms : Z) (cb : callback).

Inductive mode := SelStart | SelEnd.

(** [self.search_nodes]: a plain list of cells for BFS and DFS, a heap of
    [(cost, cell)] for Dijkstra and of [(f, g, cell)] for A*. *)
Inductive frontier :=
| Cells (q : list coord)
| Costs (h : list (Z * coord))
| FCosts (h : list (Z * Z * coord)).

Record App := mkApp {
  maze : option Grid;
  start_point : option coord;
  end_point : option coord;
  selection_mode : option mode;
  algorithm_var : string;
  animation_delay_var : Z;
  paused : bool;
  solving : bool;
  search_start_time : option Z;
  search_time : Z;
  search_nodes : frontier;
  parents : gmap coord (option coord);
  distances : gmap coord Z;
}.

Definition set_solving (b : bool) (st : App) : App :=
  mkApp (maze st) (start_point st) (end_point st) (selection_mode st)
    (algorithm_var st) (animation_delay_var st) (paused st) b
    (search_start_time st) (search_time st) (search_nodes st) (parents st)
    (distances st).

Definition set_paused (b : bool) (st : App) : App :=
  mkApp (maze st) (start_point st) (end_point st) (selection_mode st)
    (algorithm_var st) (animation_delay_var st) b (solving st)
    (search_start_time st) (search_time st) (search_nodes st) (parents st)
    (distances st).

Definition set_search_time (t : Z) (st : App) : App :=
  mkApp (maze st) (start_point st) (end_point st) (selection_mode st)
    (algorithm_var st) (animation_delay_var st) (paused st) (solving st)
    (search_start_time st) t (search_nodes st) (parents st) (distances st).

Definition set_search (fr : frontier) (ps : gmap coord (option coord))
    (ds : gmap coord Z) (st : App) : App :=
  mkApp (maze st) (start_point st) (end_point st) (selection_mode st)
    (algorithm_var st) (animation_delay_var st) (paused st) (solving st)
    (search_start_time st) (search_time st) fr ps ds.

Definition set_points (s e : option coord) (m : option mode) (st : App) : App :=
  mkApp (maze st) s e m
    (algorithm_var st) (animation_delay_var st) (paused st) (solving st)
    (search_start_time st) (search_time st) (search_nodes st) (parents st)
    (distances st).

(** ** [heapq] on tuples

    [heapq] is a library: [heappop] returns the smallest item of the heap and
    [heappush] adds one.  The heap is kept here as a sorted list, so that the
    smallest item is its head.  Python compares tuples lexicographically. *)

Definition coord_leb (a b : coord) : bool :=
  (a.1 <? b.1) || ((a.1 =? b.1) && (a.2 <=? b.2)).

Definition cost_leb (a b : Z * coord) : bool :=
  (a.1 <? b.1) || ((a.1 =? b.1) && coord_leb a.2 b.2).

Definition fcost_leb (a b : Z * Z * coord) : bool :=
  (a.1.1 <? b.1.1) || ((a.1.1 =? b.1.1) && cost_leb (a.1.2, a.2) (b.1.2, b.2)).

Fixpoint heappush {A} (leb : A -> A -> bool) (x : A) (h : list A) : list A :=
  match h with
  | [] => [x]
  | y :: h' => if leb x y then x :: h else y :: heappush leb x h'
  end.

(** ** The animation callbacks *)

Definition the_maze (st : App) : outcome Grid :=
  match maze st with
  | Some g => Done g
  | None => Raise TypeError
  end.

(** [0 <= nx < len(self.maze[0]) and 0 <= ny < len(self.maze)] and then
    [self.maze[ny][nx] == 0], evaluated left to right. *)
Definition cell_open (st : App) (nx ny : Z) : outcome bool :=
  if 0 <=? nx then
    g ← the_maze st;
    row0 ← py_index g 0;
    if (nx <? len row0) && (0 <=? ny) && (ny <? len g) then
      v ← grid_get g ny nx; Done (v =? 0)
    else Done false
  else Done false.

Fixpoint foldM {A B} (f : A -> B -> outcome A) (a : A) (l : list B) : outcome A :=
  match l with
  | [] => Done a
  | b :: l' => a' ← f a b; foldM f a' l'
  end.

(** The body of the neighbour loop shared, word for word, by [animate_bfs]
    and [animate_dfs]. *)
Definition visit (st : App) (cur : coord)
    (acc : gmap coord (option coord) * list coord * list event) (d : coord)
    : outcome (gmap coord (option coord) * list coord * list event) :=
  let '(ps, q, evs) := acc in
  let n := move cur d in
  open ← cell_open st n.1 n.2;
  if open && bool_decide (ps !! n = None) then
    Done (<[n := Some cur]> ps, q ++ [n], evs ++ [DrawCell n LightBlue])
  else Done acc.

(** The body of the neighbour loop of [animate_dijkstra]. *)
Definition relax_dijkstra (st : App) (cost : Z) (cur : coord)
    (acc : gmap coord (option coord) * gmap coord Z * list (Z * coord) * list event)
    (d : coord) :=
  let '(ps, ds, h, evs) := acc in
  let n := move cur d in
  open ← cell_open st n.1 n.2;
  if (open : bool) then
    let new_cost := cost + 1 in
    if match ds !! n with None => true | Some old => new_cost <? old end then
      Done (<[n := Some cur]> ps, <[n := new_cost]> ds,
            heappush cost_leb (new_cost, n) h, evs ++ [DrawCell n LightBlue])
    else Done acc
  else Done acc.

Definition the_end (st : App) : outcome coord :=
  match end_point st with
  | Some e => Done e
  | None => Raise TypeError
  end.

Definition manhattan (a b : coord) : Z := Z.abs (a.1 - b.1) + Z.abs (a.2 - b.2).

(** The body of the neighbour loop of [animate_astar]. *)
Definition relax_astar (st : App) (g : Z) (cur : coord)
    (acc : gmap coord (option coord) * gmap coord Z * list (Z * Z * coord) * list event)
    (d : coord) :=
  let '(ps, ds, h, evs) := acc in
  let n := move cur d in
  open ← cell_open st n.1 n.2;
  if (open : bool) then
    let new_g := g + 1 in
    e ← the_end st;
    let new_f := new_g + manhattan n e in
    if match ds !! n with None => true | Some old => new_g <? old end then
      Done (<[n := Some cur]> ps, <[n := new_g]> ds,
            heappush fcost_leb (new_f, new_g, n) h, evs ++ [DrawCell n LightBlue])
    else Done acc
  else Done acc.

(** The [while cur is not None] loop of [draw_solution_path].
    [parents.get(cur)] is [None] for a missing key and for the start. *)
Fixpoint trace_back (fuel : nat) (ps : gmap coord (option coord))
    (cur : option coord) : outcome (list coord) :=
  match cur with
  | None => Done []
  | Some c =>
    match fuel with
    | O => NoFuel
    | S fuel' => rest ← trace_back fuel' ps (mjoin (ps !! c)); Done (c :: rest)
    end
  end.

(** The loop visits a key of [parents] at most once unless it runs forever,
    so one more round than there are keys is all it can use. *)
Definition draw_solution_path (st : App) : outcome (list event) :=
  path ← trace_back (S (size (parents st))) (parents st) (end_point st);
  Done (map (fun c => DrawCell c Yellow) path ++
        [SetTimeLabel (LabelSolved (search_time st));
         ShowInfo "Maze Solved" "Maze solved!"]).

(** The goal branch shared by the four callbacks. *)
Definition goal_reached (now : Z) (st : App) : outcome (App * list event) :=
  let st1 := set_solving false st in
  t0 ← match search_start_time st1 with
       | Some t0 => Done t0
       | None => Raise TypeError
       end;
  let st2 := set_search_time (now - t0) st1 in
  evs ← draw_solution_path st2;
  Done (st2, SetTimeLabel (LabelTime (search_time st2)) :: evs).

Definition no_solution (st : App) : outcome (App * list event) :=
  Done (set_solving false st, [ShowInfo "No Solution" "No path found!"]).

Definition animate_bfs (now : Z) (st : App) : outcome (App * list event) :=
  if negb (solving st) then Done (st, [])
  else if paused st then Done (st, [After 100 CbBfs])
  else
    match search_nodes st with
    | Cells [] | Costs [] | FCosts [] => no_solution st
    | Cells (current :: rest) =>
      let st1 := set_search (Cells rest) (parents st) (distances st) st in
      if decide (Some current = end_point st1) then goal_reached now st1
      else
        '(ps, q, evs) ← foldM (visit st1 current) (parents st1, rest, []) deltas;
        Done (set_search (Cells q) ps (distances st1) st1,
              evs ++ [After (animation_delay_var st1) CbBfs])
    | Costs (_ :: _) => Raise TypeError
    | FCosts (_ :: _) => Raise ValueError
    end.

Definition animate_dfs (now : Z) (st : App) : outcome (App * list event) :=
  if negb (solving st) then Done (st, [])
  else if paused st then Done (st, [After 100 CbDfs])
  else
    match search_nodes st with
    | Cells [] | Costs [] | FCosts [] => no_solution st
    | Cells (c0 :: q0) =>
      let current := List.last q0 c0 in
      let rest := removelast (c0 :: q0) in
      let st1 := set_search (Cells rest) (parents st) (distances st) st in
      if decide (Some current = end_point st1) then goal_reached now st1
      else
        '(ps, q, evs) ← foldM (visit st1 current) (parents st1, rest, []) deltas;
        Done (set_search (Cells q) ps (distances st1) st1,
              evs ++ [After (animation_delay_var st1) CbDfs])
    | Costs (_ :: _) => Raise TypeError
    | FCosts (_ :: _) => Raise ValueError
    end.

Definition animate_dijkstra (now : Z) (st : App) : outcome (App * list event) :=
  if negb (solving st) then Done (st, [])
  else if paused st then Done (st, [After 100 CbDijkstra])
  else
    match search_nodes st with
    | Cells [] | Costs [] | FCosts [] => no_solution st
    | Costs ((cost, current) :: rest) =>
      let st1 := set_search (Costs rest) (parents st) (distances st) st in
      if decide (Some current = end_point st1) then goal_reached now st1
      else
        '(ps, ds, h, evs) ← foldM (relax_dijkstra st1 cost current)
                              (parents st1, distances st1, rest, []) deltas;
        Done (set_search (Costs h) ps ds st1,
              evs ++ [After (animation_delay_var st1) CbDijkstra])
    | Cells (_ :: _) => Raise TypeError
    | FCosts (_ :: _) => Raise ValueError
    end.

Definition animate_astar (now : Z) (st : App) : outcome (App * list event) :=
  if negb (solving st) then Done (st, [])
  else if paused st then Done (st, [After 100 CbAstar])
  else
    match search_nodes st with
    | Cells [] | Costs [] | FCosts [] => no_solution st
    | FCosts ((f, g, current) :: rest) =>
      let st1 := set_search (FCosts rest) (parents st) (distances st) st in
      if decide (Some current = end_point st1) then goal_reached now st1
      else
        '(ps, ds, h, evs) ← foldM (relax_astar st1 g current)
                              (parents st1, distances st1, rest, []) deltas;
        Done (set_search (FCosts h) ps ds st1,
              evs ++ [After (animation_delay_var st1) CbAstar])
    | Cells (_ :: _) | Costs (_ :: _) => Raise ValueError
    end.

(** ** Starting, pausing and driving a search *)

Definition callback_of (algo : string) : callback :=
  if decide (algo = "BFS") then CbBfs
  else if decide (algo = "DFS") then CbDfs
  else if decide (algo = "Dijkstra") then CbDijkstra
  else if decide (algo = "A*") then CbAstar
  else CbBfs.

Definition tick (cb : callback) : Z -> App -> outcome (App * list event) :=
  match cb with
  | CbBfs => animate_bfs
  | CbDfs => animate_dfs
  | CbDijkstra => animate_dijkstra
  | CbAstar => animate_astar
  end.

(** The reset of the search state in [on_solve_maze] (the same lines open
    [on_restart_search]); [t0] is the clock reading. *)
Definition init_search (t0 : Z) (s : coord) (st : App) : App :=
  let algo := algorithm_var st in
  let '(fr, ds) :=
    if decide (algo = "Dijkstra") then
      (Costs (heappush cost_leb (0, s) []), <[s := 0]> (∅ : gmap coord Z))
    else if decide (algo = "A*") then
      (FCosts (heappush fcost_leb (0, 0, s) []), <[s := 0]> (∅ : gmap coord Z))
    else (Cells ([] ++ [s]), ∅) in
  mkApp (maze st) (start_point st) (end_point st) (selection_mode st)
    (algorithm_var st) (animation_delay_var st) (paused st) true
    (Some t0) (search_time st) fr (<[s := None]> ∅) ds.

(** [t0] is the clock when the search is set up, [t1] the clock seen by the
    first callback, which [on_solve_maze] calls itself. *)
Definition on_solve_maze (t0 t1 : Z) (st : App) : outcome (App * list event) :=
  match maze st with
  | None => Done (st, [ShowError "Error" "Generate a maze first!"])
  | Some _ =>
    match start_point st, end_point st with
    | Some s, Some _ =>
      tick (callback_of (algorithm_var st)) t1 (init_search t0 s st)
    | _, _ => Done (st, [ShowError "Error" "Please select both start and end points!"])
    end
  end.

(** [draw_maze] on a grid: it reads [maze[0]] for the number of columns and
    then [maze[y][x]] for every row [y] and every column [x] below that
    number, so it raises on an empty grid and on a row shorter than the
    first one.  What it paints is the single event [DrawMaze]. *)
Definition draw_maze (g : Grid) : outcome (list event) :=
  row0 ← py_index g 0;
  if forallb (fun row => len row0 <=? len row) g then Done [DrawMaze]
  else Raise IndexError.

(** [x] and [y] are the cell indices computed from the pointer position (a
    floating-point division by the zoomed cell size, left outside).  With a
    selection mode set, the handler stores the point, deletes the mode and
    ends with [self.draw_maze()]. *)
Definition on_canvas_click (x y : Z) (st : App) : outcome (App * list event) :=
  match maze st with
  | None => Done (st, [])
  | Some g =>
    v ← grid_get g y x;
    if negb (v =? 0) then Done (st, [])
    else
      match selection_mode st with
      | Some SelStart =>
        evs ← draw_maze g;
        Done (set_points (Some (x, y)) (end_point st) None st, evs)
      | Some SelEnd =>
        evs ← draw_maze g;
        Done (set_points (start_point st) (Some (x, y)) None st, evs)
      | None => Done (st, [])
      end
  end.

Definition toggle_pause (st : App) : App * list event :=
  let st' := set_paused (negb (paused st)) st in
  (st', [SetPauseButton (if paused st' then "Resume Animation" else "Pause Animation")]).

(** The callback that the events of one call leave scheduled, if any. *)
Fixpoint pending (evs : list event) : option callback :=
  match evs with
  | [] => None
  | After _ cb :: evs' => match pending evs' with Some cb' => Some cb' | None => Some cb end
  | _ :: evs' => pending evs'
  end.

(** What reaches the event loop: the pause button or a timer that fires. *)
Inductive action := Toggle | Fire (now : Z).

(** The event loop: a firing timer runs the scheduled callback, if one is
    scheduled; the pause button may be pressed at any moment. *)
Fixpoint drive (cb : option callback) (acts : list action) (st : App)
    : outcome (App * list event) :=
  match acts with
  | [] => Done (st, [])
  | Toggle :: acts' =>
    let '(st1, evs) := toggle_pause st in
    '(st2, evs') ← drive cb acts' st1; Done (st2, evs ++ evs')
  | Fire now :: acts' =>
    match cb with
    | None => drive None acts' st
    | Some c =>
      '(st1, evs) ← tick c now st;
      '(st2, evs') ← drive (pending evs) acts' st1; Done (st2, evs ++ evs')
    end
  end.

(** A run without the pause button: one clock reading per timer. *)
Definition run (cb : callback) (nows : list Z) (st : App) : outcome (App * list event) :=
  drive (Some cb) (map Fire nows) st.

(** Pressing "Solve Maze" at time [t0] and letting the timers fire; the
    first callback runs inside [on_solve_maze], at time [t1]. *)
Definition solve (t0 t1 : Z) (nows : list Z) (st : App) : outcome (App * list event) :=
  '(st1, evs1) ← on_solve_maze t0 t1 st;
  '(st2, evs2) ← drive (pending evs1) (map Fire nows) st1;
  Done (st2, evs1 ++ evs2).

(** The clock readings of the timers that fire while the animation is not
    paused; [p] is the pause flag before the first action. *)
Fixpoint unpaused (p : bool) (acts : list action) : list Z :=
  match acts with
  | [] => []
  | Toggle :: acts' => unpaused (negb p) acts'
  | Fire now :: acts' => if p then unpaused p acts' else now :: unpaused p acts'
  end.

(** Everything shown to the user: all events but timer and button upkeep. *)
Definition is_shown (e : event) : bool :=
  match e with
  | After _ _ | SetPauseButton _ => false
  | _ => true
  end.

Definition shown (evs : list event) : list event := List.filter is_shown evs.

(** What the canvas shows of a search: the cells painted as visited and the
    cells painted as the solution, in painting order. *)
Definition painted (fill : colour) (evs : list event) : list coord :=
  omap (fun e => match e with
                 | DrawCell c f => if decide (f = fill) then Some c else None
                 | _ => None
                 end) evs.

Definition solved (evs : list event) : Prop := ShowInfo "Maze Solved" "Maze solved!" ∈ evs.
Definition exhausted (evs : list event) : Prop := ShowInfo "No Solution" "No path found!" ∈ evs.

(** A fresh application with a maze, both points chosen and an algorithm. *)
Definition app_with (g : Grid) (s e : coord) (algo : string) : App :=
  mkApp (Some g) (Some s) (Some e) None algo 50 false false None 0 (Cells []) ∅ ∅.

(** The 5x5 fixture: one straight corridor (1,1), (1,2), (1,3). *)
Definition corridor : Grid :=
  [[1; 1; 1; 1; 1];
   [1; 0; 1; 1; 1];
   [1; 0; 1; 1; 1];
   [1; 0; 1; 1; 1];
   [1; 1; 1; 1; 1]].

(** The number of cells of a grid that are not Passage cells. *)
Definition row_walls (row : list Z) : nat := length (filter (fun v => v ≠ 0) row).
Definition walls (maze : Grid) : nat := sum_list (map row_walls maze).

(** Fuel that always suffices for [width] by [height]. *)
Definition gen_fuel (width height : Z) : nat :=
  Z.to_nat (2 * (width + 1) * (height + 1)).

(** Each cell of the list is followed by its parent; the last has none. *)
Fixpoint linked (ps : gmap coord (option coord)) (path : list coord) : Prop :=
  match path with
  | [] => True
  | c :: rest =>
    mjoin (ps !! c) = head rest /\ linked ps rest
  end.

Definition four_algorithms : list string := ["BFS"; "DFS"; "Dijkstra"; "A*"].

(** The states a search can be in: after the reset, after any callback of
    the four that returns, after any press of the pause button. *)
Inductive reached (st0 : App) : App -> Prop :=
| reached_init : reached st0 st0
| reached_tick cb now st st' evs :
    reached st0 st -> tick cb now st = Done (st', evs) -> reached st0 st'
| reached_toggle st : reached st0 st -> reached st0 (toggle_pause st).1.

(** The accumulated cost and the cell of the entry the next callback pops. *)
Definition pops (fr : frontier) : option (Z * coord) :=
  match fr with
  | Costs ((cost, c) :: _) => Some (cost, c)
  | FCosts ((_, gc, c) :: _) => Some (gc, c)
  | _ => None
  end.

(** Two Passage cells, (1,1) and (1,3), with a wall between them. *)
Definition two_rooms : Grid :=
  [[1; 1; 1];
   [1; 0; 1];
   [1; 1; 1];
   [1; 0; 1];
   [1; 1; 1]].

(** ** The remaining handlers *)

(** "Generate Maze": [width] and [height] are the values read from the two
    entry fields. *)
Definition on_generate_maze (rnd : nat -> nat) (fuel : nat) (width height : Z)
    (st : App) : outcome (App * list event) :=
  g ← Gen.generate_maze rnd fuel width height;
  evs ← draw_maze g;
  Done (mkApp (Some g) None None (selection_mode st) (algorithm_var st)
          (animation_delay_var st) (paused st) false None 0 (Cells []) ∅ ∅,
        evs).

Definition on_select_start (st : App) : App * list event :=
  (set_points (start_point st) (end_point st) (Some SelStart) st,
   [ShowInfo "Select Start" "Click a passage cell to set the start point (green)."]).

Definition on_select_end (st : App) : App * list event :=
  (set_points (start_point st) (end_point st) (Some SelEnd) st,
   [ShowInfo "Select End" "Click a passage cell to set the end point (red)."]).

(** "Restart Search (Same Maze)": silent when something is missing, else
    a redraw and then the lines of [on_solve_maze]. *)
Definition on_restart_search (t0 t1 : Z) (st : App) : outcome (App * list event) :=
  match maze st, start_point st, end_point st with
  | Some g, Some s, Some _ =>
    evs0 ← draw_maze g;
    '(st', evs) ← tick (callback_of (algorithm_var st)) t1 (init_search t0 s st);
    Done (st', evs0 ++ evs)
  | _, _, _ => Done (st, [])
  end.

(** "New Maze" clears the canvas and resets the time label to its initial
    text; it leaves the search containers as they are. *)
Inductive widget_event := Shown (ev : event) | CanvasCleared | TimeLabelReset.

Definition on_new_maze (st : App) : App * list widget_event :=
  (mkApp None None None (selection_mode st) (algorithm_var st)
     (animation_delay_var st) (paused st) false (search_start_time st)
     (search_time st) (search_nodes st) (parents st) (distances st),
   [CanvasCleared; TimeLabelReset]).

(** A list of cells in which every cell but the last is a Passage cell and
    a neighbour of the cell that follows it: the shape of a drawn path,
    which runs from the goal back to the start. *)
Fixpoint route (g : Grid) (path : list coord) : Prop :=
  match path with
  | c :: (p :: _) as rest => c ∈ neighbours p /\ passage g c /\ route g rest
  | _ => True
  end.

(** The cells that wait in the container of the search. *)
Definition frontier_cells (fr : frontier) : list coord :=
  match fr with
  | Cells q => q
  | Costs h => h.*2
  | FCosts h => h.*2
  end.

(** * Properties *)

(** ** The error monad and Python lists *)

Lemma bind_Done {A B} (m : outcome A) (f : A -> outcome B) b :
  m ≫= f = Done b -> exists a, m = Done a /\ f a = Done b.
Proof. destruct m; simpl; intros H; try discriminate. eauto. Qed.

Lemma py_index_lookup {A} (l : list A) i a :
  0 <= i -> l !! Z.to_nat i = Some a -> py_index l i = Done a.
Proof.
  intros Hi Hl. unfold py_index, py_norm, len.
  apply lookup_lt_Some in Hl as Hlt.
  destruct (Z.ltb_spec i 0); [lia|].
  destruct (Z.leb_spec 0 i); [|lia].
  destruct (Z.ltb_spec i (Z.of_nat (length l))); [|lia].
  simpl. by rewrite Hl.
Qed.

Lemma py_setitem_lookup {A} (l : list A) i a b :
  0 <= i -> l !! Z.to_nat i = Some a ->
  py_setitem l i b = Done (<[Z.to_nat i := b]> l).
Proof.
  intros Hi Hl. unfold py_setitem, py_norm, len.
  apply lookup_lt_Some in Hl as Hlt.
  destruct (Z.ltb_spec i 0); [lia|].
  destruct (Z.leb_spec 0 i); [|lia].
  destruct (Z.ltb_spec i (Z.of_nat (length l))); [|lia].
  done.
Qed.

Lemma choice_Done {A} (r : nat) (l : list A) :
  l ≠ [] -> exists a, choice r l = Done a /\ a ∈ l.
Proof.
  intros Hne. unfold choice.
  assert (Hlt : (r mod length l < length l)%nat).
  { apply Nat.mod_upper_bound. destruct l; simpl; [done | lia]. }
  apply lookup_lt_is_Some in Hlt as [a Ha]. rewrite Ha.
  exists a. split; [done|]. by eapply list_elem_of_lookup_2.
Qed.

Lemma py_remove_Done {A} `{EqDecision A} (a : A) (l : list A) :
  a ∈ l ->
  exists l', py_remove a l = Done l' /\ S (length l') = length l /\
             (forall b, b ∈ l' -> b ∈ l).
Proof.
  induction l as [|b l IH]; intros Hin.
  - by apply elem_of_nil in Hin.
  - simpl. destruct (decide (a = b)) as [->|Hne].
    + exists l. split_and!; [done..|]. intros c Hc. by right.
    + apply elem_of_cons in Hin as [?|Hin]; [done|].
      destruct (IH Hin) as (l' & -> & Hlen & Hsub). simpl.
      exists (b :: l'). split_and!; [done|simpl; lia|].
      intros c [->|Hc]%elem_of_cons; [by left | right; auto].
Qed.

(** ** Cells of a grid *)

Lemma get_Some maze x y v :
  get maze (x, y) = Some v <->
  0 <= x /\ 0 <= y /\
  exists row, maze !! Z.to_nat y = Some row /\ row !! Z.to_nat x = Some v.
Proof.
  unfold get. simpl.
  destruct (Z.leb_spec 0 x), (Z.leb_spec 0 y); simpl;
    try (split; [done | intros (? & ? & _); lia]).
  destruct (maze !! Z.to_nat y) as [row|] eqn:Hrow; simpl.
  - split; [intros Hv; eauto 6 | intros (_ & _ & row' & [= <-] & Hv); done].
  - split; [done | intros (_ & _ & row' & [=] & _)].
Qed.

Lemma rect_get maze w h x y :
  rect maze w h -> 0 <= x < w -> 0 <= y < h -> exists v, get maze (x, y) = Some v.
Proof.
  intros [Hh Hw] Hx Hy. unfold len in *.
  assert (Hlt : (Z.to_nat y < length maze)%nat) by lia.
  apply lookup_lt_is_Some in Hlt as [row Hrow].
  assert (Hr : len row = w).
  { eapply (proj1 (Forall_forall _ _) Hw). by eapply list_elem_of_lookup_2. }
  unfold len in Hr.
  assert (Hlt : (Z.to_nat x < length row)%nat) by lia.
  apply lookup_lt_is_Some in Hlt as [v Hv].
  exists v. apply get_Some. eauto 6 with lia.
Qed.

Lemma rect_get_inv maze w h x y v :
  rect maze w h -> get maze (x, y) = Some v -> 0 <= x < w /\ 0 <= y < h.
Proof.
  intros [Hh Hw] (Hx & Hy & row & Hrow & Hv)%get_Some. unfold len in *.
  assert (Hr : len row = w).
  { eapply (proj1 (Forall_forall _ _) Hw). by eapply list_elem_of_lookup_2. }
  unfold len in Hr.
  apply lookup_lt_Some in Hrow. apply lookup_lt_Some in Hv. lia.
Qed.

Lemma grid_get_get maze x y v :
  get maze (x, y) = Some v -> grid_get maze y x = Done v.
Proof.
  intros (Hx & Hy & row & Hrow & Hv)%get_Some. unfold grid_get.
  rewrite (py_index_lookup _ _ _ Hy Hrow). simpl.
  by apply py_index_lookup.
Qed.

Lemma row_walls_insert row i v :
  row !! i = Some v ->
  (row_walls (<[i := 0%Z]> row) <= row_walls row)%nat /\
  (v ≠ 0 -> S (row_walls (<[i := 0]> row)) = row_walls row).
Proof.
  unfold row_walls. revert i. induction row as [|a row IH]; intros [|i] Hl; simplify_eq/=.
  - rewrite !filter_cons. destruct (decide (0 ≠ 0)); [done|].
    destruct (decide (v ≠ 0)); simpl; split; (lia || done).
  - destruct (IH _ Hl) as [IH1 IH2].
    rewrite !filter_cons. destruct (decide (a ≠ 0)); simpl; split; try lia;
      intros Hv; specialize (IH2 Hv); lia.
Qed.

Lemma walls_insert (maze : Grid) i row row' :
  maze !! i = Some row ->
  (walls (<[i := row']> maze) + row_walls row = walls maze + row_walls row')%nat.
Proof.
  unfold walls. revert i. induction maze as [|r maze IH]; intros [|i] Hl; simplify_eq/=.
  - lia.
  - specialize (IH _ Hl). lia.
Qed.

Lemma grid_set_zero maze x y v :
  get maze (x, y) = Some v ->
  exists maze',
    grid_set maze y x 0 = Done maze' /\
    (forall c, get maze' c = if decide (c = (x, y)) then Some 0 else get maze c) /\
    (forall w h, rect maze w h -> rect maze' w h) /\
    (walls maze' <= walls maze)%nat /\
    (v ≠ 0 -> S (walls maze') = walls maze).
Proof.
  intros (Hx & Hy & row & Hrow & Hv)%get_Some.
  exists (<[Z.to_nat y := <[Z.to_nat x := 0]> row]> maze).
  split_and!.
  - unfold grid_set. rewrite (py_index_lookup _ _ _ Hy Hrow). simpl.
    rewrite (py_setitem_lookup _ _ _ _ Hx Hv). simpl.
    by eapply py_setitem_lookup.
  - intros [cx cy]. destruct (decide ((cx, cy) = (x, y))) as [[= -> ->]|Hne].
    + apply get_Some. split_and!; [done..|].
      eexists. split.
      * apply list_lookup_insert_eq. by eapply lookup_lt_Some.
      * apply list_lookup_insert_eq. by eapply lookup_lt_Some.
    + unfold get. simpl. destruct ((0 <=? cx) && (0 <=? cy)) eqn:Hb; [|done].
      apply andb_true_iff in Hb as [Hcx%Z.leb_le Hcy%Z.leb_le].
      destruct (decide (Z.to_nat cy = Z.to_nat y)) as [Heq|Hney].
      * rewrite Heq, Hrow. rewrite list_lookup_insert_eq by (by eapply lookup_lt_Some).
        simpl. apply list_lookup_insert_ne. intros Hxx.
        apply Hne. f_equal; lia.
      * by rewrite list_lookup_insert_ne.
  - intros w h [Hh Hw]. split.
    + unfold len in *. by rewrite length_insert.
    + apply Forall_insert; [done|]. unfold len. rewrite length_insert.
      eapply (proj1 (Forall_forall _ _) Hw). by eapply list_elem_of_lookup_2.
  - pose proof (walls_insert maze _ row (<[Z.to_nat x := 0]> row) Hrow).
    pose proof (row_walls_insert row _ v Hv) as [? _]. lia.
  - intros Hne. pose proof (walls_insert maze _ row (<[Z.to_nat x := 0]> row) Hrow).
    pose proof (row_walls_insert row _ v Hv) as [_ Hs]. specialize (Hs Hne). lia.
Qed.

(** ** Walks *)

Lemma walk_mono maze maze' s c n :
  (forall c, passage maze c -> passage maze' c) ->
  walk maze s c n -> walk maze' s c n.
Proof. intros Hsub Hw. induction Hw; econstructor; eauto. Qed.

Lemma walk_nonneg maze s c n : walk maze s c n -> 0 <= n.
Proof. induction 1; lia. Qed.

Lemma reachable_step maze s c c' :
  reachable maze s c -> c' ∈ neighbours c -> passage maze c' -> reachable maze s c'.
Proof. intros [n Hn] ? ?. exists (n + 1). by econstructor. Qed.

(** ** Maze generation: the carving loop keeps the grid connected *)

Section Carve.
Variables (rnd : nat -> nat) (w h : Z).

(** What holds of the grid and of [cell_list] at the head of the loop. *)
Record carve_inv (maze : Grid) (cl : list coord) : Prop := {
  ci_rect : rect maze w h;
  ci_cells : forall c, c ∈ cl -> 0 < c.1 < w /\ 0 < c.2 < h /\ passage maze c;
  ci_conn : forall c, passage maze c -> reachable maze (1, 1) c;
}.

(** The candidates collected by the probing loop. *)
Definition candidate (maze : Grid) (x y : Z) (n : Z * Z * Z * Z) : Prop :=
  let '(nx, ny, dx, dy) := n in
  (dx, dy) ∈ Gen.dirs /\ nx = x + dx /\ ny = y + dy /\
  0 < nx < w /\ 0 < ny < h /\ get maze (nx, ny) = Some 1.

Lemma probe_ok maze x y acc d :
  rect maze w h -> d ∈ Gen.dirs -> Forall (candidate maze x y) acc ->
  exists acc', Gen.probe maze w h x y acc d = Done acc' /\
               Forall (candidate maze x y) acc'.
Proof.
  intros Hrect Hd Hacc. destruct d as [dx dy]. unfold Gen.probe.
  destruct ((0 <? x + dx) && (x + dx <? w) && (0 <? y + dy) && (y + dy <? h)) eqn:Hb;
    [|eauto].
  repeat (apply andb_true_iff in Hb as [Hb ?]).
  apply Z.ltb_lt in Hb. repeat match goal with H : (_ <? _) = true |- _ => apply Z.ltb_lt in H end.
  destruct (rect_get maze w h (x + dx) (y + dy) Hrect) as [v Hv]; [lia..|].
  rewrite (grid_get_get _ _ _ _ Hv). simpl.
  destruct (Z.eqb_spec v 1) as [->|]; eexists; split; try done.
  apply Forall_app. split; [done|]. apply Forall_singleton.
  unfold candidate. split_and!; (done || lia).
Qed.

Lemma probes_ok maze x y ds acc :
  rect maze w h -> ds ⊆ Gen.dirs -> Forall (candidate maze x y) acc ->
  exists acc', Gen.probes maze w h x y acc ds = Done acc' /\
               Forall (candidate maze x y) acc'.
Proof.
  intros Hrect. revert acc. induction ds as [|d ds IH]; intros acc Hds Hacc; simpl.
  - eauto.
  - destruct (probe_ok maze x y acc d Hrect) as (acc' & -> & Hacc'); [set_solver|done|].
    simpl. apply IH; [set_solver|done].
Qed.

(** One round of the loop succeeds, keeps the invariant and decreases
    twice the number of walls plus the length of [cell_list]. *)
Lemma carve_body_ok i maze cl :
  carve_inv maze cl -> cl ≠ [] ->
  exists maze' cl' i',
    Gen.carve_body rnd i w h maze cl = Done (maze', cl', i') /\
    carve_inv maze' cl' /\
    (2 * walls maze' + length cl' < 2 * walls maze + length cl)%nat.
Proof.
  intros [Hrect Hcells Hconn] Hne. unfold Gen.carve_body.
  destruct (choice_Done (rnd i) cl Hne) as ([x y] & -> & Hxy). cbn [mbind outcome_bind].
  destruct (Hcells _ Hxy) as (Hx & Hy & Hpass). simpl in Hx, Hy.
  destruct (probes_ok maze x y Gen.dirs [] Hrect) as (nbs & -> & Hnbs); [done..|].
  cbn [mbind outcome_bind]. destruct nbs as [|nb nbs].
  - destruct (py_remove_Done (x, y) cl Hxy) as (cl' & -> & Hlen & Hsub). cbn [mbind outcome_bind].
    exists maze, cl', (S i). split_and!; [done| |lia].
    split; [done| |done]. intros c Hc. apply Hcells. auto.
  - destruct (choice_Done (rnd (S i)) (nb :: nbs)) as ([[[nx ny] dx] dy] & -> & Hin); [done|].
    cbn [mbind outcome_bind]. apply (proj1 (Forall_forall _ _) Hnbs) in Hin.
    destruct Hin as (Hd & -> & -> & Hnx & Hny & Hwall).
    assert (Hmid : 0 <= x + dx / 2 < w /\ 0 <= y + dy / 2 < h /\
                   (x + dx / 2, y + dy / 2) ∈ neighbours (x, y) /\
                   (x + dx, y + dy) ∈ neighbours (x + dx / 2, y + dy / 2) /\
                   (x + dx / 2, y + dy / 2) ≠ (x + dx, y + dy)).
    { unfold Gen.dirs in Hd. apply list_elem_of_In in Hd. simpl in Hd.
      unfold neighbours, deltas, move. simpl.
      destruct Hd as [Hd|[Hd|[Hd|[Hd|[]]]]]; injection Hd as <- <-;
        change (2 / 2) with 1; change (-2 / 2) with (-1); change (0 / 2) with 0;
        rewrite ?Z.add_0_r;
        (split; [lia|]); (split; [lia|]);
        (split; [apply list_elem_of_In; simpl; auto 6|]);
        (split; [apply list_elem_of_In; simpl|intros [=]; lia]).
      - left. f_equal; lia.
      - right. right. left. f_equal; lia.
      - right. left. f_equal; lia.
      - do 3 right. left. f_equal; lia. }
    destruct Hmid as (Hmx & Hmy & Hadj1 & Hadj2 & Hneq).
    destruct (rect_get maze w h _ _ Hrect Hmx Hmy) as [v Hv].
    destruct (grid_set_zero maze _ _ v Hv) as (maze1 & -> & Hget1 & Hrect1 & Hw1 & _).
    cbn [mbind outcome_bind].
    assert (Hwall1 : get maze1 (x + dx, y + dy) = Some 1).
    { rewrite Hget1. by rewrite decide_False by done. }
    destruct (grid_set_zero maze1 _ _ 1 Hwall1) as (maze2 & -> & Hget2 & Hrect2 & _ & Hw2).
    cbn [mbind outcome_bind]. specialize (Hw2 ltac:(done)).
    assert (Hsub : forall c, passage maze c -> passage maze2 c).
    { intros c Hc. unfold passage in *. rewrite Hget2, Hget1.
      repeat case_decide; done. }
    assert (Hp_mid : passage maze2 (x + dx / 2, y + dy / 2)).
    { unfold passage. rewrite Hget2, Hget1. rewrite decide_False by done.
      by rewrite decide_True. }
    assert (Hp_new : passage maze2 (x + dx, y + dy)).
    { unfold passage. rewrite Hget2. by rewrite decide_True. }
    assert (Hr_xy : reachable maze2 (1, 1) (x, y)).
    { destruct (Hconn _ Hpass) as [n Hn]. exists n. by eapply walk_mono. }
    assert (Hr_mid : reachable maze2 (1, 1) (x + dx / 2, y + dy / 2))
      by (by eapply reachable_step).
    exists maze2, (cl ++ [(x + dx, y + dy)]), (S (S i)). split_and!; [done| |].
    + split.
      * auto.
      * intros c [Hc|Hc%list_elem_of_singleton]%elem_of_app.
        -- destruct (Hcells _ Hc) as (? & ? & ?). auto.
        -- subst c. simpl. auto.
      * intros c Hc. unfold passage in Hc. rewrite Hget2 in Hc.
        case_decide as Hc2; [subst c; by eapply reachable_step|].
        rewrite Hget1 in Hc. case_decide as Hc1; [by subst c|].
        destruct (Hconn _ Hc) as [n Hn]. exists n. by eapply walk_mono.
    + rewrite length_app. simpl. lia.
Qed.

(** Partial correctness: whatever the fuel, a returned grid is connected. *)
Lemma carve_connected fuel : forall i maze cl maze',
  carve_inv maze cl ->
  Gen.carve rnd fuel i w h maze cl = Done maze' ->
  rect maze' w h /\ forall c, passage maze' c -> reachable maze' (1, 1) c.
Proof.
  induction fuel as [|fuel IH]; intros i maze cl maze' Hinv Hrun.
  - destruct cl; [|done]. simplify_eq/=. destruct Hinv; auto.
  - destruct cl as [|c0 cl]; [simplify_eq/=; destruct Hinv; auto|].
    cbn [Gen.carve] in Hrun.
    destruct (carve_body_ok i maze (c0 :: cl) Hinv) as (m1 & cl1 & i1 & Hb & Hinv1 & _);
      [done|].
    rewrite Hb in Hrun. simpl in Hrun. eauto.
Qed.

(** Termination: fuel above the measure is enough. *)
Lemma carve_total fuel : forall i maze cl,
  carve_inv maze cl ->
  (2 * walls maze + length cl < fuel)%nat ->
  exists maze', Gen.carve rnd fuel i w h maze cl = Done maze'.
Proof.
  induction fuel as [|fuel IH]; intros i maze cl Hinv Hfuel; [lia|].
  destruct cl as [|c0 cl]; [simpl; eauto|].
  cbn [Gen.carve].
  destruct (carve_body_ok i maze (c0 :: cl) Hinv) as (m1 & cl1 & i1 & -> & Hinv1 & Hm);
    [done|].
  simpl. apply IH; [done|lia].
Qed.

End Carve.

(** ** Maze generation: dimensions, termination and connectivity *)

Lemma force_odd_spec n :
  Gen.force_odd n mod 2 = 1 /\
  Gen.force_odd n = (if decide (n mod 2 = 0) then n + 1 else n).
Proof.
  unfold Gen.force_odd. destruct (Z.eqb_spec (n mod 2) 0) as [He|Hne].
  - rewrite decide_True by done. split; [|done].
    rewrite Z.add_mod by lia. rewrite He. done.
  - rewrite decide_False by done. split; [|done].
    pose proof (Z.mod_pos_bound n 2 ltac:(lia)). lia.
Qed.

Lemma py_index_Done {A} (l : list A) i a :
  0 <= i -> py_index l i = Done a -> l !! Z.to_nat i = Some a.
Proof.
  intros Hi. unfold py_index, py_norm.
  destruct (Z.ltb_spec i 0); [lia|].
  destruct ((0 <=? i) && (i <? len l)); [|done].
  destruct (l !! Z.to_nat i); [|done]. by intros [= ->].
Qed.

Lemma py_setitem_Done {A} (l : list A) i a l' :
  0 <= i -> py_setitem l i a = Done l' -> is_Some (l !! Z.to_nat i).
Proof.
  intros Hi. unfold py_setitem, py_norm, len.
  destruct (Z.ltb_spec i 0); [lia|].
  destruct (Z.leb_spec 0 i); [|done].
  destruct (Z.ltb_spec i (Z.of_nat (length l))); [|done].
  intros _. apply lookup_lt_is_Some. lia.
Qed.

Lemma grid_set_Done maze x y v maze' :
  0 <= x -> 0 <= y -> grid_set maze y x v = Done maze' ->
  exists old, get maze (x, y) = Some old.
Proof.
  intros Hx Hy Hset. unfold grid_set in Hset.
  apply bind_Done in Hset as (row & Hrow & Hset).
  apply bind_Done in Hset as (row' & Hrow' & _).
  apply py_index_Done in Hrow; [|done].
  apply py_setitem_Done in Hrow' as [old Hold]; [|done].
  exists old. apply get_Some. eauto 6.
Qed.

Lemma replicate_rect (w h : Z) :
  0 <= w -> 0 <= h ->
  rect (replicate (Z.to_nat h) (replicate (Z.to_nat w) 1)) w h.
Proof.
  intros Hw Hh. split.
  - unfold len. rewrite length_replicate. lia.
  - apply Forall_replicate. unfold len. rewrite length_replicate. lia.
Qed.

Lemma replicate_get (w h : Z) c v :
  get (replicate (Z.to_nat h) (replicate (Z.to_nat w) 1)) c = Some v -> v = 1.
Proof.
  destruct c as [x y]. intros (_ & _ & row & Hrow & Hv)%get_Some.
  apply lookup_replicate in Hrow as [-> _].
  by apply lookup_replicate in Hv as [-> _].
Qed.

Lemma walls_bound maze w :
  0 <= w -> Forall (fun row => len row = w) maze ->
  Z.of_nat (walls maze) <= w * len maze.
Proof.
  intros Hw. unfold walls, len. induction 1 as [|row maze Hrow _ IH]; simpl; [lia|].
  assert (row_walls row <= length row)%nat by apply length_filter.
  unfold len in Hrow. nia.
Qed.

(** The grid and cell list that enter the carving loop. *)
Lemma generate_maze_start width height maze1 :
  grid_set (replicate (Z.to_nat height) (replicate (Z.to_nat width) 1)) 1 1 0
    = Done maze1 ->
  carve_inv width height maze1 [(1, 1)] /\
  (2 * walls maze1 + 1 < Z.to_nat (2 * width * height))%nat.
Proof.
  intros Hset. set (maze0 := replicate _ _) in *.
  destruct (grid_set_Done maze0 1 1 0 maze1 ltac:(lia) ltac:(lia) Hset) as [old Hold].
  assert (old = 1) as -> by (by eapply replicate_get).
  assert (Hdim : 1 < width /\ 1 < height).
  { apply get_Some in Hold as (_ & _ & row & Hrow & Hv).
    apply lookup_replicate in Hrow as [-> Hh].
    apply lookup_replicate in Hv as [_ Hw]. lia. }
  assert (Hrect0 : rect maze0 width height) by (apply replicate_rect; lia).
  destruct (grid_set_zero maze0 1 1 1 Hold) as (m & Hm & Hget & Hrect & _ & Hw).
  rewrite Hset in Hm. injection Hm as <-. specialize (Hw ltac:(done)).
  assert (Hp11 : passage maze1 (1, 1)).
  { unfold passage. rewrite Hget. by rewrite decide_True. }
  split.
  - split.
    + auto.
    + intros c ->%list_elem_of_singleton. simpl. split_and!; (lia || done).
    + intros c Hc. unfold passage in Hc. rewrite Hget in Hc.
      case_decide as Hc1; [subst c; exists 0; constructor|].
      by apply replicate_get in Hc.
  - destruct Hrect0 as [Hlen Hrows].
    pose proof (walls_bound maze0 width ltac:(lia) Hrows) as Hb.
    rewrite Hlen in Hb. replace (2 * width * height) with (2 * (width * height)) by ring.
    revert Hb. generalize (width * height). intros. lia.
Qed.

(** With enough fuel the generator returns, for all inputs of at least 2. *)
Lemma generate_maze_returns rnd fuel width height :
  2 <= width -> 2 <= height -> (gen_fuel width height <= fuel)%nat ->
  exists maze,
    Gen.generate_maze rnd fuel width height = Done maze /\
    rect maze (Gen.force_odd width) (Gen.force_odd height).
Proof.
  intros Hw Hh Hfuel. unfold Gen.generate_maze, gen_fuel in *.
  assert (Hw' : 3 <= Gen.force_odd width <= width + 1).
  { destruct (force_odd_spec width) as [Hodd ->]. case_decide; Z.div_mod_to_equations; lia. }
  assert (Hh' : 3 <= Gen.force_odd height <= height + 1).
  { destruct (force_odd_spec height) as [Hodd ->]. case_decide; Z.div_mod_to_equations; lia. }
  set (w := Gen.force_odd width) in *. set (h := Gen.force_odd height) in *.
  pose proof (replicate_rect w h ltac:(lia) ltac:(lia)) as Hrect0.
  destruct (rect_get _ w h 1 1 Hrect0) as [v Hv]; [lia..|].
  destruct (grid_set_zero _ 1 1 v Hv) as (maze1 & Hset & _).
  rewrite Hset. cbn [mbind outcome_bind].
  destruct (generate_maze_start w h maze1 Hset) as [Hinv Hm].
  destruct (carve_total rnd w h fuel 0%nat maze1 [(1, 1)] Hinv) as [maze Hmaze].
  { simpl. assert (w * h <= (width + 1) * (height + 1)) by nia.
    replace (2 * w * h) with (2 * (w * h)) in Hm by ring.
    replace (2 * (width + 1) * (height + 1)) with (2 * ((width + 1) * (height + 1)))
      in Hfuel by ring.
    revert Hm Hfuel H. generalize (w * h), ((width + 1) * (height + 1)). intros. lia. }
  exists maze. split; [done|].
  by destruct (carve_connected rnd w h fuel _ _ _ _ Hinv Hmaze).
Qed.

(** C4, as amended: for every width and height of at least 2, and whatever
    the random choices, [generate_maze] returns a grid and raises nothing;
    the grid has the requested width and height, each incremented by one
    when even and left alone when odd.  Nothing is clamped. *)
Theorem generate_maze_dimensions rnd fuel width height :
  2 <= width -> 2 <= height -> (gen_fuel width height <= fuel)%nat ->
  exists maze,
    Gen.generate_maze rnd fuel width height = Done maze /\
    rect maze (if decide (width mod 2 = 0) then width + 1 else width)
              (if decide (height mod 2 = 0) then height + 1 else height).
Proof.
  intros Hw Hh Hfuel.
  destruct (force_odd_spec width) as [_ <-].
  destruct (force_odd_spec height) as [_ <-].
  by apply generate_maze_returns.
Qed.

Lemma generate_maze_dimensions_witness :
  exists maze,
    Gen.generate_maze (fun i => i) 1000 20 21 = Done maze /\ rect maze 21 21.
Proof.
  apply (generate_maze_dimensions (fun i => i) 1000 20 21); [lia | lia | ].
  vm_compute. lia.
Defined.

(** C4, as stated, fails: a 1x1 request is not clamped to a viable size, the
    first write [maze[1][1] = 0] raises IndexError. *)
Lemma generate_maze_1x1_raises :
  ~ (exists rnd fuel maze, Gen.generate_maze rnd fuel 1 1 = Done maze) /\
  Gen.generate_maze (fun i => i) 100 1 1 = Raise IndexError.
Proof. split; [intros (rnd & fuel & maze & H); discriminate H | reflexivity]. Qed.

(** C2: whatever the dimensions and the random choices, every Passage cell
    of a grid returned by [generate_maze] is reached from (1,1) by cardinal
    moves through Passage cells; and for dimensions of at least 2 a grid is
    returned. *)
Theorem generate_maze_connected rnd width height :
  (forall fuel maze,
     Gen.generate_maze rnd fuel width height = Done maze ->
     forall c, passage maze c -> reachable maze (1, 1) c) /\
  (2 <= width -> 2 <= height ->
   exists maze, Gen.generate_maze rnd (gen_fuel width height) width height = Done maze).
Proof.
  split.
  - intros fuel maze Hgen. unfold Gen.generate_maze in Hgen.
    apply bind_Done in Hgen as (maze1 & Hset & Hcarve).
    destruct (generate_maze_start _ _ maze1 Hset) as [Hinv _].
    by destruct (carve_connected rnd _ _ fuel _ _ _ _ Hinv Hcarve).
  - intros Hw Hh.
    destruct (generate_maze_returns rnd (gen_fuel width height) width height)
      as (maze & Hmaze & _); [done..|]. eauto.
Qed.

Lemma generate_maze_connected_witness :
  exists maze,
    Gen.generate_maze (fun i => (7 * i + 3)%nat) (gen_fuel 6 9) 6 9 = Done maze /\
    forall c, passage maze c -> reachable maze (1, 1) c.
Proof.
  destruct (generate_maze_connected (fun i => (7 * i + 3)%nat) 6 9) as [Hconn Htotal].
  destruct (Htotal ltac:(lia) ltac:(lia)) as [maze Hmaze].
  exists maze. split; [exact Hmaze | exact (Hconn _ _ Hmaze)].
Defined.

(** ** The shape of one callback *)

Lemma foldM_inv {A B} (f : A -> B -> outcome A) (P : A -> Prop) l : forall a a',
  P a -> (forall a b a', b ∈ l -> P a -> f a b = Done a' -> P a') ->
  foldM f a l = Done a' -> P a'.
Proof.
  induction l as [|b l IH]; intros a a' Ha Hstep Hrun; simpl in Hrun.
  - by injection Hrun as <-.
  - apply bind_Done in Hrun as (a1 & H1 & Hrun).
    eapply IH; [|intros a2 b2 a3 Hb2; eapply Hstep; by right | done].
    eapply Hstep; [by left|done..].
Qed.

Definition light_blue (e : event) : Prop := exists c, e = DrawCell c LightBlue.

(** What one call of a callback can do: nothing once the search is over,
    reschedule itself while paused, report an empty frontier, report the
    path, or paint some cells and reschedule itself. *)
Inductive tick_shape (cb : callback) (st st' : App) (evs : list event) : Prop :=
| shape_idle : solving st = false -> st' = st -> evs = [] -> tick_shape cb st st' evs
| shape_paused :
    solving st = true -> paused st = true -> st' = st -> evs = [After 100 cb] ->
    tick_shape cb st st' evs
| shape_exhausted :
    solving st = true -> paused st = false -> st' = set_solving false st ->
    evs = [ShowInfo "No Solution" "No path found!"] -> tick_shape cb st st' evs
| shape_goal t path :
    solving st = true -> paused st = false ->
    solving st' = false -> paused st' = false ->
    evs = SetTimeLabel (LabelTime t) :: map (fun c => DrawCell c Yellow) path ++
          [SetTimeLabel (LabelSolved t); ShowInfo "Maze Solved" "Maze solved!"] ->
    tick_shape cb st st' evs
| shape_continue draws :
    solving st = true -> paused st = false ->
    solving st' = true -> paused st' = false ->
    Forall light_blue draws ->
    evs = draws ++ [After (animation_delay_var st) cb] -> tick_shape cb st st' evs.

Lemma goal_reached_shape cb now st0 st st' evs :
  solving st0 = true -> paused st0 = false -> paused st = false ->
  goal_reached now st = Done (st', evs) -> tick_shape cb st0 st' evs.
Proof.
  intros Hs Hp Hp' Hg. unfold goal_reached in Hg.
  apply bind_Done in Hg as (t0 & Ht0 & Hg).
  apply bind_Done in Hg as (evs' & Hd & Hg). injection Hg as <- <-.
  unfold draw_solution_path in Hd. apply bind_Done in Hd as (path & _ & Hd).
  injection Hd as <-. by eapply shape_goal.
Qed.

Lemma visit_light st cur ps q evs d ps' q' evs' :
  visit st cur (ps, q, evs) d = Done (ps', q', evs') ->
  Forall light_blue evs -> Forall light_blue evs'.
Proof.
  unfold visit. intros (open & _ & H)%bind_Done Hl.
  destruct (open && _); simplify_eq; [|done].
  apply Forall_app. split; [done|]. apply Forall_singleton. by eexists.
Qed.

Lemma relax_dijkstra_light st cost cur ps ds h evs d ps' ds' h' evs' :
  relax_dijkstra st cost cur (ps, ds, h, evs) d = Done (ps', ds', h', evs') ->
  Forall light_blue evs -> Forall light_blue evs'.
Proof.
  unfold relax_dijkstra. intros (open & _ & H)%bind_Done Hl.
  destruct open; [|by simplify_eq].
  destruct (match ds !! _ with None => true | Some old => _ end); simplify_eq; [|done].
  apply Forall_app. split; [done|]. apply Forall_singleton. by eexists.
Qed.

Lemma relax_astar_light st g cur ps ds h evs d ps' ds' h' evs' :
  relax_astar st g cur (ps, ds, h, evs) d = Done (ps', ds', h', evs') ->
  Forall light_blue evs -> Forall light_blue evs'.
Proof.
  unfold relax_astar. intros (open & _ & H)%bind_Done Hl.
  destruct open; [|by simplify_eq].
  apply bind_Done in H as (e & _ & H).
  destruct (match ds !! _ with None => true | Some old => _ end); simplify_eq; [|done].
  apply Forall_app. split; [done|]. apply Forall_singleton. by eexists.
Qed.

Lemma animate_bfs_shape now st st' evs :
  animate_bfs now st = Done (st', evs) -> tick_shape CbBfs st st' evs.
Proof.
  unfold animate_bfs. destruct (solving st) eqn:Hs; cbn [negb]; [|intros [= <- <-]; by constructor].
  destruct (paused st) eqn:Hp; [intros [= <- <-]; by constructor 2|].
  destruct (search_nodes st) as [[|cur rest]|[|[cost cur] rest]|[|[[f g] cur] rest]];
    try (intros [= <- <-]; by constructor 3); try done.
  case_decide.
  - by apply goal_reached_shape.
  - intros ([[ps q] draws] & Hfold & [= <- <-])%bind_Done.
    eapply (shape_continue _ _ _ _ draws); try done.
    refine (foldM_inv _ (fun a => Forall light_blue a.2) _ _ _ _ _ Hfold); [constructor|].
    intros [[??]?] ? [[??]?] _ ? ?. by eapply visit_light.
Qed.

Lemma animate_dfs_shape now st st' evs :
  animate_dfs now st = Done (st', evs) -> tick_shape CbDfs st st' evs.
Proof.
  unfold animate_dfs. destruct (solving st) eqn:Hs; cbn [negb]; [|intros [= <- <-]; by constructor].
  destruct (paused st) eqn:Hp; [intros [= <- <-]; by constructor 2|].
  destruct (search_nodes st) as [[|cur rest]|[|[cost cur] rest]|[|[[f g] cur] rest]];
    try (intros [= <- <-]; by constructor 3); try done.
  case_decide.
  - by apply goal_reached_shape.
  - intros ([[ps q] draws] & Hfold & [= <- <-])%bind_Done.
    eapply (shape_continue _ _ _ _ draws); try done.
    refine (foldM_inv _ (fun a => Forall light_blue a.2) _ _ _ _ _ Hfold); [constructor|].
    intros [[??]?] ? [[??]?] _ ? ?. by eapply visit_light.
Qed.

Lemma animate_dijkstra_shape now st st' evs :
  animate_dijkstra now st = Done (st', evs) -> tick_shape CbDijkstra st st' evs.
Proof.
  unfold animate_dijkstra. destruct (solving st) eqn:Hs; cbn [negb]; [|intros [= <- <-]; by constructor].
  destruct (paused st) eqn:Hp; [intros [= <- <-]; by constructor 2|].
  destruct (search_nodes st) as [[|cur rest]|[|[cost cur] rest]|[|[[f g] cur] rest]];
    try (intros [= <- <-]; by constructor 3); try done.
  case_decide.
  - by apply goal_reached_shape.
  - intros ([[[ps ds] q] draws] & Hfold & [= <- <-])%bind_Done.
    eapply (shape_continue _ _ _ _ draws); try done.
    refine (foldM_inv _ (fun a => Forall light_blue a.2) _ _ _ _ _ Hfold); [constructor|].
    intros [[[??]?]?] ? [[[??]?]?] _ ? ?. by eapply relax_dijkstra_light.
Qed.

Lemma animate_astar_shape now st st' evs :
  animate_astar now st = Done (st', evs) -> tick_shape CbAstar st st' evs.
Proof.
  unfold animate_astar. destruct (solving st) eqn:Hs; cbn [negb]; [|intros [= <- <-]; by constructor].
  destruct (paused st) eqn:Hp; [intros [= <- <-]; by constructor 2|].
  destruct (search_nodes st) as [[|cur rest]|[|[cost cur] rest]|[|[[f g] cur] rest]];
    try (intros [= <- <-]; by constructor 3); try done.
  case_decide.
  - by apply goal_reached_shape.
  - intros ([[[ps ds] q] draws] & Hfold & [= <- <-])%bind_Done.
    eapply (shape_continue _ _ _ _ draws); try done.
    refine (foldM_inv _ (fun a => Forall light_blue a.2) _ _ _ _ _ Hfold); [constructor|].
    intros [[[??]?]?] ? [[[??]?]?] _ ? ?. by eapply relax_astar_light.
Qed.

Lemma tick_has_shape cb now st st' evs :
  tick cb now st = Done (st', evs) -> tick_shape cb st st' evs.
Proof.
  destruct cb; simpl.
  - apply animate_bfs_shape.
  - apply animate_dfs_shape.
  - apply animate_dijkstra_shape.
  - apply animate_astar_shape.
Qed.

Lemma tick_idle cb now st : solving st = false -> tick cb now st = Done (st, []).
Proof.
  intros Hs. destruct cb; simpl;
    unfold animate_bfs, animate_dfs, animate_dijkstra, animate_astar; by rewrite Hs.
Qed.

Lemma tick_paused cb now st :
  solving st = true -> paused st = true -> tick cb now st = Done (st, [After 100 cb]).
Proof.
  intros Hs Hp. destruct cb; simpl;
    unfold animate_bfs, animate_dfs, animate_dijkstra, animate_astar; by rewrite Hs, Hp.
Qed.

Lemma tick_keeps_paused cb now st st' evs :
  tick cb now st = Done (st', evs) -> paused st' = paused st.
Proof.
  intros H%tick_has_shape. destruct H; subst; try done; congruence.
Qed.

(** ** Idempotent terminal state (C6) *)

Lemma not_light_blue_info draws t m :
  Forall light_blue draws -> ShowInfo t m ∉ draws.
Proof.
  intros Hl Hin. apply (proj1 (Forall_forall _ _) Hl) in Hin as [c Hc]. done.
Qed.

Lemma terminal_not_solving cb now st st' evs :
  tick cb now st = Done (st', evs) -> solved evs \/ exhausted evs -> solving st' = false.
Proof.
  unfold solved, exhausted. intros H%tick_has_shape Hev.
  destruct H as [? -> ->|? ? -> ->|? ? -> ->|t path ? ? ? ? ->|draws ? ? ? ? Hl ->]; try done.
  - destruct Hev as [Hev|Hev]; by apply list_elem_of_singleton in Hev.
  - destruct Hev as [Hev|Hev]; apply elem_of_app in Hev as [Hev|Hev];
      solve [ by apply not_light_blue_info in Hev
            | by apply list_elem_of_singleton in Hev ].
Qed.

(** C6, as stated, fails: the call after the terminal one does not return
    the terminal result again.  On the corridor every variant reports the
    path with its third callback, and in the two rooms every variant reports
    the empty frontier with its second; the callback that follows returns
    with no event at all, so it reports neither. *)
Lemma terminal_result_is_not_returned_again :
  Forall (fun algo =>
    exists st' evs,
      solve 0 1 [2; 3] (app_with corridor (1, 1) (1, 3) algo) = Done (st', evs) /\
      solved evs /\
      tick (callback_of algo) 4 st' = Done (st', []) /\ ~ solved []) four_algorithms /\
  Forall (fun algo =>
    exists st' evs,
      solve 0 1 [2] (app_with two_rooms (1, 1) (1, 3) algo) = Done (st', evs) /\
      exhausted evs /\
      tick (callback_of algo) 3 st' = Done (st', []) /\ ~ exhausted []) four_algorithms.
Proof.
  split; repeat constructor; eexists _, _;
    (split; [vm_compute; reflexivity|]);
    (split; [unfold solved, exhausted; apply list_elem_of_In; simpl; auto 20|]);
    (split; [vm_compute; reflexivity|]);
    unfold solved, exhausted; by intros ?%elem_of_nil.
Qed.

(** C6, as amended: once a callback has reported the path or the empty
    frontier, every further call of any of the four callbacks, and any
    number of them in a row, raises nothing and leaves every field of the
    state as it is; it does not report the terminal result again: it shows
    nothing, schedules nothing, and its events differ from those of the
    terminal call. *)
Theorem terminal_step_is_noop cb now st st' evs :
  tick cb now st = Done (st', evs) -> solved evs \/ exhausted evs ->
  solving st' = false /\
  (forall cb' now', tick cb' now' st' = Done (st', [])) /\
  (forall cb' nows, run cb' nows st' = Done (st', [])) /\
  (forall cb' now' st'' evs',
     tick cb' now' st' = Done (st'', evs') ->
     st'' = st' /\ ~ solved evs' /\ ~ exhausted evs' /\ pending evs' = None /\
     evs' ≠ evs).
Proof.
  intros Htick Hev. pose proof (terminal_not_solving _ _ _ _ _ Htick Hev) as Hs.
  split_and!; [done|by intros; apply tick_idle| |].
  - intros cb' nows. unfold run. generalize (Some cb').
    induction nows as [|now' nows IH]; intros cbo; simpl; [done|].
    destruct cbo as [c|]; [|apply IH].
    rewrite tick_idle by done. cbn [mbind outcome_bind pending].
    by rewrite IH.
  - intros cb' now' st'' evs' Hnext. rewrite tick_idle in Hnext by done.
    injection Hnext as <- <-. unfold solved, exhausted in *.
    split_and!; [done|by intros ?%elem_of_nil|by intros ?%elem_of_nil|done|].
    intros <-. destruct Hev as [Hev|Hev]; by apply elem_of_nil in Hev.
Qed.

Lemma terminal_step_is_noop_witness :
  exists st evs0 st' evs,
    run CbAstar [1; 2] (init_search 0 (1, 1) (app_with corridor (1, 1) (1, 3) "A*"))
      = Done (st, evs0) /\
    tick CbAstar 3 st = Done (st', evs) /\
    solved evs /\
    solving st' = false /\
    (forall cb' now', tick cb' now' st' = Done (st', [])) /\
    (forall cb' nows, run cb' nows st' = Done (st', [])) /\
    (forall cb' now' st'' evs',
       tick cb' now' st' = Done (st'', evs') ->
       st'' = st' /\ ~ solved evs' /\ ~ exhausted evs' /\ pending evs' = None /\
       evs' ≠ evs).
Proof.
  eexists _, _, _, _.
  split; [vm_compute; reflexivity|].
  match goal with
  | |- tick CbAstar 3 ?st = _ /\ _ =>
    split; [vm_compute; reflexivity|];
    split; [unfold solved; apply list_elem_of_In; simpl; auto 10|];
    eapply (terminal_step_is_noop CbAstar 3 st); [vm_compute; reflexivity|]
  end.
  left. unfold solved. apply list_elem_of_In. simpl. auto 10.
Defined.

(** ** Pause and resume (C9) *)

(** Two outcomes agree when they fail alike or end in states that differ
    at most in the pause flag and have shown the same things. *)
Definition same_outcome (r1 r2 : outcome (App * list event)) : Prop :=
  match r1, r2 with
  | Done (st1, evs1), Done (st2, evs2) =>
    set_paused false st1 = set_paused false st2 /\ shown evs1 = shown evs2
  | Raise e1, Raise e2 => e1 = e2
  | NoFuel, NoFuel => True
  | _, _ => False
  end.

Lemma shown_app evs1 evs2 : shown (evs1 ++ evs2) = shown evs1 ++ shown evs2.
Proof. apply List.filter_app. Qed.

Lemma painted_shown fill evs : painted fill (shown evs) = painted fill evs.
Proof.
  unfold painted, shown, omap. induction evs as [|e evs IH]; [done|].
  destruct e; simpl; rewrite ?IH; done.
Qed.

Lemma same_outcome_refl r : same_outcome r r.
Proof. destruct r as [[??]| |]; simpl; auto. Qed.

Lemma same_outcome_bind r1 r2 pre1 pre2 :
  same_outcome r1 r2 -> shown pre1 = shown pre2 ->
  same_outcome ('(st, evs) ← r1; Done (st, pre1 ++ evs))
               ('(st, evs) ← r2; Done (st, pre2 ++ evs)).
Proof.
  destruct r1 as [[??]| |], r2 as [[??]| |]; simpl; try done.
  intros [-> Hs] Hp. by rewrite !shown_app, Hs, Hp.
Qed.

Lemma same_outcome_bind_l r1 r2 pre1 :
  same_outcome r1 r2 -> shown pre1 = [] ->
  same_outcome ('(st, evs) ← r1; Done (st, pre1 ++ evs)) r2.
Proof.
  destruct r1 as [[??]| |], r2 as [[??]| |]; simpl; try done.
  intros [-> Hs] Hp. by rewrite !shown_app, Hs, Hp.
Qed.

Lemma same_outcome_bind_r r1 r2 pre2 :
  same_outcome r1 r2 -> shown pre2 = [] ->
  same_outcome r1 ('(st, evs) ← r2; Done (st, pre2 ++ evs)).
Proof.
  destruct r1 as [[??]| |], r2 as [[??]| |]; simpl; try done.
  intros [-> Hs] Hp. by rewrite !shown_app, Hs, Hp.
Qed.

Lemma set_paused_id st b : paused st = b -> set_paused b st = st.
Proof. intros <-. by destruct st. Qed.

Lemma set_paused_twice b b' st : set_paused b (set_paused b' st) = set_paused b st.
Proof. by destruct st. Qed.

(** A paused callback leaves the state alone, so the paused drive does what
    the unpaused one does with the timers that fire unpaused. *)
Lemma drive_pause acts : forall cbo1 cbo2 st,
  cbo1 = cbo2 \/ (cbo1 = None /\ solving st = false) ->
  same_outcome (drive cbo1 acts st)
               (drive cbo2 (map Fire (unpaused (paused st) acts)) (set_paused false st)).
Proof.
  induction acts as [|[|now] acts IH]; intros cbo1 cbo2 st Hcb.
  - simpl. by rewrite set_paused_twice.
  - cbn [drive unpaused toggle_pause].
    specialize (IH cbo1 cbo2 (set_paused (negb (paused st)) st)).
    rewrite set_paused_twice in IH.
    replace (paused (set_paused (negb (paused st)) st)) with (negb (paused st)) in IH
      by (by destruct st).
    apply same_outcome_bind_l; [|done].
    apply IH. destruct Hcb as [?|[? ?]]; [by left|right]. by destruct st.
  - cbn [drive unpaused]. destruct cbo1 as [c|].
    + destruct Hcb as [<-|[? _]]; [|done].
      destruct (paused st) eqn:Hp.
      * destruct (solving st) eqn:Hs.
        -- rewrite tick_paused by done. cbn [mbind outcome_bind pending].
           apply same_outcome_bind_l; [|done].
           specialize (IH (Some c) (Some c) st). rewrite Hp in IH. by apply IH; left.
        -- rewrite tick_idle by done. cbn [mbind outcome_bind pending].
           apply same_outcome_bind_l; [|done].
           specialize (IH None (Some c) st). rewrite Hp in IH. by apply IH; right.
      * cbn [map drive]. rewrite (set_paused_id st false Hp).
        destruct (tick c now st) as [[st1 evs]| |] eqn:Htick; cbn [mbind outcome_bind]; try done.
        apply same_outcome_bind; [|done].
        specialize (IH (pending evs) (pending evs) st1).
        pose proof (tick_keeps_paused _ _ _ _ _ Htick) as Hp1. rewrite Hp in Hp1.
        rewrite Hp1 in IH. rewrite (set_paused_id st1 false Hp1) in IH.
        by apply IH; left.
    + destruct (paused st) eqn:Hp.
      * specialize (IH None cbo2 st). rewrite Hp in IH. apply IH.
        destruct Hcb as [<-|[_ ?]]; [by left | by right].
      * cbn [map drive]. destruct cbo2 as [c|].
        -- destruct Hcb as [?|[_ Hs]]; [done|].
           rewrite tick_idle by (by destruct st). cbn [mbind outcome_bind pending].
           apply same_outcome_bind_r; [|done].
           specialize (IH None None st). rewrite Hp in IH. by apply IH; left.
        -- specialize (IH None None st). rewrite Hp in IH. by apply IH; left.
Qed.

(** C9: for a fixed state at the start of a search and a fixed callback, a
    drive in which the pause button is pressed at arbitrary moments ends as
    the drive without pauses over the timers that fired unpaused: the same
    failure, or the same state up to the pause flag and the same things
    shown, so the same solution path and the same visited cells. *)
Theorem pause_resume cb acts st :
  paused st = false ->
  match drive (Some cb) acts st, run cb (unpaused false acts) st with
  | Done (st1, evs1), Done (st2, evs2) =>
    set_paused false st1 = st2 /\ paused st2 = false /\
    shown evs1 = shown evs2 /\
    painted Yellow evs1 = painted Yellow evs2 /\
    painted LightBlue evs1 = painted LightBlue evs2
  | Raise e1, Raise e2 => e1 = e2
  | NoFuel, NoFuel => True
  | _, _ => False
  end.
Proof.
  intros Hp. pose proof (drive_pause acts (Some cb) (Some cb) st (or_introl eq_refl)) as H.
  rewrite Hp in H. rewrite (set_paused_id st false Hp) in H.
  unfold run. destruct (drive (Some cb) acts st) as [[st1 evs1]| |];
    destruct (drive (Some cb) (map Fire (unpaused false acts)) st) as [[st2 evs2]| |] eqn:Hrun;
    simpl in H; try done.
  destruct H as [Hst Hev].
  assert (Hp2 : paused st2 = false).
  { clear -Hrun Hp. revert st Hp st2 evs2 Hrun. generalize (Some cb).
    induction (unpaused false acts) as [|now nows IH]; intros cbo st Hp st2 evs2 Hrun.
    - simpl in Hrun. by simplify_eq.
    - cbn [map drive] in Hrun. destruct cbo as [c|]; [|by eapply IH].
      apply bind_Done in Hrun as ([st1 evs1] & Htick & Hrun).
      apply bind_Done in Hrun as ([st3 evs3] & Hrun & [= <- <-]).
      eapply IH; [|done]. apply tick_keeps_paused in Htick. congruence. }
  rewrite (set_paused_id st2 false Hp2) in Hst.
  split_and!; [done..| |]; rewrite <- painted_shown, Hev, painted_shown; done.
Qed.

Lemma pause_resume_witness :
  match drive (Some CbBfs) [Fire 1; Toggle; Fire 2; Fire 3; Toggle; Fire 4; Fire 5]
          (init_search 0 (1, 1) (app_with corridor (1, 1) (1, 3) "BFS")),
        run CbBfs (unpaused false [Fire 1; Toggle; Fire 2; Fire 3; Toggle; Fire 4; Fire 5])
          (init_search 0 (1, 1) (app_with corridor (1, 1) (1, 3) "BFS")) with
  | Done (st1, evs1), Done (st2, evs2) =>
    set_paused false st1 = st2 /\ paused st2 = false /\
    shown evs1 = shown evs2 /\
    painted Yellow evs1 = painted Yellow evs2 /\
    painted LightBlue evs1 = painted LightBlue evs2
  | Raise e1, Raise e2 => e1 = e2
  | NoFuel, NoFuel => True
  | _, _ => False
  end.
Proof.
  apply (pause_resume CbBfs [Fire 1; Toggle; Fire 2; Fire 3; Toggle; Fire 4; Fire 5]
           (init_search 0 (1, 1) (app_with corridor (1, 1) (1, 3) "BFS"))).
  reflexivity.
Defined.

(** ** Starting a search (C8) *)

(** C8, as stated, fails: [on_solve_maze] checks neither bounds nor walls.
    With the start on the wall cell (0,0), or outside the 5x5 grid at (9,9),
    no error is shown, the search state is reset and the search runs. *)
Lemma on_solve_maze_accepts_wall_start :
  get corridor (0, 0) = Some 1 /\ get corridor (9, 9) = None /\
  (exists st',
     on_solve_maze 0 1 (app_with corridor (0, 0) (1, 3) "BFS")
       = Done (st', [After 50 CbBfs]) /\
     solving st' = true /\ parents st' !! (0, 0) = Some None) /\
  (exists st',
     on_solve_maze 0 1 (app_with corridor (9, 9) (1, 3) "BFS")
       = Done (st', [After 50 CbBfs]) /\
     solving st' = true /\ parents st' !! (9, 9) = Some None).
Proof.
  split; [reflexivity|]. split; [reflexivity|].
  split; eexists; (split; [vm_compute; reflexivity|]); split; reflexivity.
Qed.

(** C8, as amended: [on_solve_maze] shows a blocking error and neither
    touches the state nor runs a callback when the maze, the start or the end
    is missing; a wall can never become the start or the end, because
    [on_canvas_click] ignores a click on a cell that is not a Passage: the
    state stays as it is and nothing is shown. *)
Theorem solve_needs_maze_and_points t0 t1 st :
  (maze st = None \/ start_point st = None \/ end_point st = None ->
   exists msg, on_solve_maze t0 t1 st = Done (st, [ShowError "Error" msg])) /\
  (forall g x y v,
     maze st = Some g -> get g (x, y) = Some v -> v ≠ 0 ->
     on_canvas_click x y st = Done (st, [])).
Proof.
  split.
  - unfold on_solve_maze. intros Hmiss.
    destruct (maze st); [|eauto].
    destruct (start_point st); [|eauto].
    destruct (end_point st); [|eauto].
    destruct Hmiss as [?|[?|?]]; done.
  - intros g x y v Hg Hv Hne. unfold on_canvas_click. rewrite Hg.
    rewrite (grid_get_get _ _ _ _ Hv). cbn [mbind outcome_bind].
    destruct (Z.eqb_spec v 0); done.
Qed.

(** ** Path reconstruction (C3) *)

Lemma trace_back_linked fuel : forall ps cur path,
  trace_back fuel ps cur = Done path -> head path = cur /\ linked ps path.
Proof.
  induction fuel as [|fuel IH]; intros ps [c|] path Hrun; simpl in Hrun;
    try (by simplify_eq).
  apply bind_Done in Hrun as (rest & Hrest & [= <-]).
  destruct (IH _ _ _ Hrest) as [Hhd Hl]. simpl. by rewrite Hhd.
Qed.

(** C3, as stated, fails: the path is collected from the goal back to the
    start and is never reversed. *)
Lemma corridor_path_is_goal_first :
  exists st evs,
    solve 0 1 [2; 3; 4; 5] (app_with corridor (1, 1) (1, 3) "BFS") = Done (st, evs) /\
    solved evs /\
    painted Yellow evs ≠ [(1, 1); (1, 2); (1, 3)].
Proof.
  eexists _, _. split; [vm_compute; reflexivity|].
  split; [unfold solved; apply list_elem_of_In; simpl; auto 20|].
  vm_compute. discriminate.
Qed.

(** C3, as amended: the path starts at the goal, each of its cells is
    followed by its parent, and it ends at the cell without a parent, the
    start; it is drawn in that order, goal first.  On the corridor fixture
    with start (1,1) and goal (1,3), each of BFS, DFS, Dijkstra and A*
    reports [(1,3), (1,2), (1,1)], the reverse of the start-to-goal order. *)
Theorem path_runs_from_goal_to_start :
  (forall fuel ps goal path,
     trace_back fuel ps (Some goal) = Done path ->
     head path = Some goal /\ linked ps path) /\
  Forall (fun algo =>
    exists st evs,
      solve 0 1 [2; 3; 4; 5] (app_with corridor (1, 1) (1, 3) algo) = Done (st, evs) /\
      solved evs /\
      painted Yellow evs = [(1, 3); (1, 2); (1, 1)] /\
      reverse (painted Yellow evs) = [(1, 1); (1, 2); (1, 3)]) four_algorithms.
Proof.
  split; [intros fuel ps goal path H; by apply (trace_back_linked fuel)|].
  unfold four_algorithms.
  repeat (apply Forall_cons; split; [|]); [..|apply Forall_nil_2];
    (eexists _, _; split; [vm_compute; reflexivity|];
     split; [unfold solved; apply list_elem_of_In; simpl; auto 20|];
     split; reflexivity).
Qed.

(** ** The backward walk and its fuel *)

Lemma linked_app_r ps l1 l2 : linked ps (l1 ++ l2) -> linked ps l2.
Proof. induction l1 as [|c l1 IH]; [done|]. intros [_ H]. auto. Qed.

Lemma linked_unique ps c : forall a b,
  linked ps (c :: a) -> linked ps (c :: b) -> a = b.
Proof.
  intros a. revert c. induction a as [|a0 a IH]; intros c b [Ha Hla] [Hb Hlb].
  - rewrite Ha in Hb. by destruct b.
  - rewrite Ha in Hb. destruct b as [|b0 b]; [done|]. simpl in Hb.
    injection Hb as <-. f_equal. eauto.
Qed.

Lemma linked_NoDup ps path : linked ps path -> NoDup path.
Proof.
  induction path as [|c rest IH]; [constructor|].
  intros Hl. pose proof Hl as [_ Hrest]. constructor; [|auto].
  intros (l2 & l3 & ->)%list_elem_of_split.
  assert (Hl3 : linked ps (c :: l3)).
  { change (c :: l2 ++ c :: l3) with ((c :: l2) ++ c :: l3) in Hl.
    by apply linked_app_r in Hl. }
  pose proof (linked_unique _ _ _ _ Hl Hl3) as Heq.
  apply (f_equal length) in Heq. rewrite length_app in Heq. simpl in Heq. lia.
Qed.

Lemma linked_recorded ps path c :
  linked ps path -> c ∈ removelast path -> is_Some (ps !! c).
Proof.
  induction path as [|a rest IH]; intros Hl Hin; [by apply elem_of_nil in Hin|].
  destruct rest as [|b rest]; [by apply elem_of_nil in Hin|].
  destruct Hl as [Ha Hl].
  change (removelast (a :: b :: rest)) with (a :: removelast (b :: rest)) in Hin.
  apply elem_of_cons in Hin as [->|Hin]; [|by apply IH].
  simpl in Ha. destruct (ps !! a); [by eexists|done].
Qed.

Lemma trace_back_length fuel : forall ps cur path,
  trace_back fuel ps cur = Done path -> (length path <= fuel)%nat.
Proof.
  induction fuel as [|fuel IH]; intros ps [c|] path Hrun; simpl in Hrun;
    try (by simplify_eq); try (simplify_eq; simpl; lia).
  apply bind_Done in Hrun as (rest & Hrest & [= <-]).
  apply IH in Hrest. simpl. lia.
Qed.

Lemma trace_back_more fuel : forall fuel' ps cur path,
  trace_back fuel ps cur = Done path -> (length path <= fuel')%nat ->
  trace_back fuel' ps cur = Done path.
Proof.
  induction fuel as [|fuel IH]; intros fuel' ps [c|] path Hrun Hlen; simpl in Hrun;
    try (by simplify_eq); try (simplify_eq; by destruct fuel').
  apply bind_Done in Hrun as (rest & Hrest & [= <-]).
  destruct fuel' as [|fuel']; simpl in *; [lia|].
  rewrite (IH fuel' _ _ _ Hrest) by lia. done.
Qed.

(** A backward walk that ends uses at most one round per key of [parents],
    and one more: the fuel of [draw_solution_path] is never what stops it. *)
Lemma trace_back_enough fuel ps cur path :
  trace_back fuel ps cur = Done path ->
  trace_back (S (size ps)) ps cur = Done path.
Proof.
  intros Hrun. eapply trace_back_more; [done|].
  destruct (trace_back_linked _ _ _ _ Hrun) as [_ Hl].
  pose proof (linked_NoDup _ _ Hl) as Hnd.
  assert (Hsub : removelast path ⊆+ (map_to_list ps).*1).
  { apply NoDup_submseteq.
    - destruct path as [|a path] using rev_ind; [constructor|].
      rewrite removelast_last. by apply NoDup_app in Hnd as (? & _ & _).
    - intros c Hc. apply (linked_recorded _ _ _ Hl) in Hc as [v Hv].
      apply list_elem_of_fmap. exists (c, v). split; [done|].
      by apply elem_of_map_to_list. }
  apply submseteq_length in Hsub. rewrite length_fmap, length_map_to_list in Hsub.
  destruct path as [|a path] using rev_ind; [simpl; lia|].
  rewrite removelast_last in Hsub. rewrite length_app. simpl. lia.
Qed.

(** ** The parent map is a tree rooted at the start (C10) *)

(** [rank] decreases along parent links; [nodes] are the frontier cells. *)
Record tree_inv (s : coord) (rank : coord -> Z) (nodes : list coord)
    (ps : gmap coord (option coord)) : Prop := {
  ti_start : ps !! s = Some None;
  ti_root : forall c, ps !! c = Some None -> c = s;
  ti_parent : forall c p, ps !! c = Some (Some p) -> is_Some (ps !! p) /\ rank p < rank c;
  ti_rank : forall c, is_Some (ps !! c) -> 0 <= rank c;
  ti_nodes : forall c, c ∈ nodes -> is_Some (ps !! c);
}.

Lemma tree_inv_nodes s rank nodes nodes' ps :
  (forall c, c ∈ nodes' -> c ∈ nodes) ->
  tree_inv s rank nodes ps -> tree_inv s rank nodes' ps.
Proof. intros Hsub []. split; auto. Qed.

(** Every recorded cell walks back to the start. *)
Lemma tree_inv_trace s rank nodes ps :
  tree_inv s rank nodes ps ->
  forall c, is_Some (ps !! c) ->
  exists path, trace_back (S (size ps)) ps (Some c) = Done path /\ last path = Some s.
Proof.
  intros Hinv c Hc.
  cut (exists fuel path, trace_back fuel ps (Some c) = Done path /\ last path = Some s).
  { intros (fuel & path & Hrun & Hlast). exists path. split; [|done].
    by eapply trace_back_enough. }
  assert (Hwf : forall n c, is_Some (ps !! c) -> rank c < Z.of_nat n ->
    exists path, trace_back n ps (Some c) = Done path /\ last path = Some s).
  { clear c Hc. induction n as [|n IH]; intros c [v Hv] Hr.
    - pose proof (ti_rank _ _ _ _ Hinv c ltac:(by eexists)). lia.
    - simpl. rewrite Hv. destruct v as [p|]; simpl.
      + destruct (ti_parent _ _ _ _ Hinv _ _ Hv) as [Hp Hlt].
        destruct (IH p Hp ltac:(lia)) as (path & -> & Hlast). simpl.
        exists (c :: path). split; [done|].
        destruct path; [done|]. done.
      + apply (ti_root _ _ _ _ Hinv) in Hv as ->.
        exists [s]. split; [by destruct n|done]. }
  destruct (Hwf (Z.to_nat (rank c + 1)) c Hc) as (path & ? & ?); [|eauto].
  pose proof (ti_rank _ _ _ _ Hinv c Hc). lia.
Qed.

(** Recording a fresh cell under a recorded parent keeps the tree. *)
Lemma tree_inv_insert s rank nodes ps cur n :
  tree_inv s rank nodes ps -> is_Some (ps !! cur) -> ps !! n = None ->
  tree_inv s (fun c => if decide (c = n) then rank cur + 1 else rank c)
           (nodes ++ [n]) (<[n := Some cur]> ps).
Proof.
  intros [Hs Hroot Hpar Hrank Hnodes] Hcur Hn.
  assert (cur ≠ n) by (intros ->; rewrite Hn in Hcur; by destruct Hcur).
  split.
  - rewrite lookup_insert_ne; [done|]. intros <-. congruence.
  - intros c Hc. destruct (decide (n = c)) as [<-|?].
    + by rewrite lookup_insert_eq in Hc.
    + rewrite lookup_insert_ne in Hc by done. auto.
  - intros c p Hc. destruct (decide (n = c)) as [<-|?].
    + rewrite lookup_insert_eq in Hc. injection Hc as <-.
      rewrite lookup_insert_ne by done. split; [done|].
      rewrite decide_False by done. rewrite decide_True by done. lia.
    + rewrite lookup_insert_ne in Hc by done.
      destruct (Hpar _ _ Hc) as [Hp Hlt].
      assert (p ≠ n) by (intros ->; rewrite Hn in Hp; by destruct Hp).
      rewrite lookup_insert_ne by done. split; [done|].
      by rewrite !decide_False by done.
  - intros c Hc. case_decide as Hcn.
    + specialize (Hrank _ Hcur). lia.
    + rewrite lookup_insert_ne in Hc by done. auto.
  - intros c [Hc|Hc]%elem_of_app.
    + destruct (decide (n = c)) as [<-|?]; [by rewrite lookup_insert_eq|].
      rewrite lookup_insert_ne by done. auto.
    + apply list_elem_of_singleton in Hc as ->. by rewrite lookup_insert_eq.
Qed.

Lemma visit_tree s st cur ps q evs d ps' q' evs' :
  visit st cur (ps, q, evs) d = Done (ps', q', evs') ->
  (exists rank, tree_inv s rank (cur :: q) ps) ->
  exists rank, tree_inv s rank (cur :: q') ps'.
Proof.
  unfold visit. intros (open & _ & H)%bind_Done [rank Hinv].
  destruct open; simpl in H; [|simplify_eq; eauto].
  case_bool_decide as Hn; simplify_eq; [|eauto].
  eexists. apply (tree_inv_insert s rank (cur :: q) ps cur); [done| |done].
  apply (ti_nodes _ _ _ _ Hinv). by left.
Qed.

Lemma visits_tree s st cur ps q ps' q' evs' :
  foldM (visit st cur) (ps, q, []) deltas = Done (ps', q', evs') ->
  (exists rank, tree_inv s rank (cur :: q) ps) ->
  exists rank, tree_inv s rank q' ps'.
Proof.
  intros Hfold Hinv.
  cut (exists rank, tree_inv s rank (cur :: q') ps').
  { intros [rank H]. exists rank. eapply tree_inv_nodes; [|done]. intros c Hc. by right. }
  apply (foldM_inv (visit st cur)
           (fun a => exists rank, tree_inv s rank (cur :: a.1.2) a.1.1)
           deltas (ps, q, []) (ps', q', evs')); [done| |done].
  intros [[??]?] ? [[??]?] _ ? ?. by eapply visit_tree.
Qed.

Lemma heappush_perm {A} (leb : A -> A -> bool) x h : heappush leb x h ≡ₚ x :: h.
Proof.
  induction h as [|y h IH]; simpl; [done|].
  destruct (leb x y); [done|]. rewrite IH. apply perm_swap.
Qed.

Lemma elem_of_heappush {A} (leb : A -> A -> bool) x y h :
  x ∈ heappush leb y h <-> x = y \/ x ∈ h.
Proof. rewrite heappush_perm. apply elem_of_cons. Qed.

Lemma delta_moves (cur d : coord) :
  d ∈ deltas -> move cur d ≠ cur.
Proof.
  intros Hd Heq. destruct cur as [x y], d as [dx dy]. unfold move in Heq. simpl in Heq.
  injection Heq as Hx Hy. unfold deltas in Hd.
  apply list_elem_of_In in Hd. simpl in Hd.
  destruct Hd as [Hd|[Hd|[Hd|[Hd|[]]]]]; injection Hd as <- <-; lia.
Qed.

(** The tree for Dijkstra and A*: the rank of a cell is its recorded
    distance; [ents] are the (cost, cell) pairs of the heap. *)
Record pq_tree (s : coord) (ents : list (Z * coord))
    (ps : gmap coord (option coord)) (ds : gmap coord Z) : Prop := {
  pt_tree : tree_inv s (fun c => default 0 (ds !! c)) ents.*2 ps;
  pt_dom : forall c, is_Some (ps !! c) -> is_Some (ds !! c);
  pt_start : ds !! s = Some 0;
  pt_ents : forall g c, (g, c) ∈ ents -> default 0 (ds !! c) <= g;
}.

Lemma pq_tree_subset s ents ents' ps ds :
  (forall x, x ∈ ents' -> x ∈ ents) -> pq_tree s ents ps ds -> pq_tree s ents' ps ds.
Proof.
  intros Hsub [Ht Hd Hs He]. split; [|done..|auto].
  eapply tree_inv_nodes; [|done].
  intros c ([g c'] & -> & Hin)%list_elem_of_fmap.
  apply list_elem_of_fmap. exists (g, c'). auto.
Qed.

(** One relaxation: the cell [n] gets the cost [cost + 1] and the parent
    [cur], where [cur] was popped with [cost]. *)
Lemma pq_tree_relax s ents ps ds cost cur n :
  pq_tree s ents ps ds -> (cost, cur) ∈ ents -> n ≠ cur ->
  match ds !! n with None => true | Some old => cost + 1 <? old end = true ->
  pq_tree s ((cost + 1, n) :: ents) (<[n := Some cur]> ps) (<[n := cost + 1]> ds).
Proof.
  intros [[Hs Hroot Hpar Hrank Hnodes] Hdom Hds He] Hcur Hne Hlt.
  assert (Hcur_rec : is_Some (ps !! cur)).
  { apply Hnodes. apply list_elem_of_fmap. by exists (cost, cur). }
  pose proof (Hrank _ Hcur_rec) as Hr0. pose proof (He _ _ Hcur) as Hrc.
  assert (Hns : n ≠ s).
  { intros ->. rewrite Hds in Hlt. apply Z.ltb_lt in Hlt. lia. }
  assert (Hold : forall old, ds !! n = Some old -> cost + 1 < old).
  { intros old Ho. rewrite Ho in Hlt. by apply Z.ltb_lt. }
  assert (Hrec : is_Some (ps !! n) -> cost + 1 < default 0 (ds !! n)).
  { intros [old Ho]%Hdom. rewrite Ho. simpl. auto. }
  assert (Hrk : forall c, c ≠ n ->
            default 0 (<[n := cost + 1]> ds !! c) = default 0 (ds !! c)).
  { intros c ?. by rewrite lookup_insert_ne. }
  assert (Hrn : default 0 (<[n := cost + 1]> ds !! n) = cost + 1).
  { by rewrite lookup_insert_eq. }
  split; [split|..].
  - by rewrite lookup_insert_ne.
  - intros c Hc. destruct (decide (n = c)) as [<-|?].
    + by rewrite lookup_insert_eq in Hc.
    + rewrite lookup_insert_ne in Hc by done. auto.
  - intros c p Hc. destruct (decide (n = c)) as [<-|?].
    + rewrite lookup_insert_eq in Hc. injection Hc as <-.
      rewrite lookup_insert_ne by done. split; [done|].
      rewrite Hrn, Hrk by done. lia.
    + rewrite lookup_insert_ne in Hc by done.
      destruct (Hpar _ _ Hc) as [Hp Hlt'].
      rewrite (Hrk c) by done. destruct (decide (n = p)) as [<-|?].
      * rewrite lookup_insert_eq. split; [done|]. rewrite Hrn.
        specialize (Hrec Hp). lia.
      * rewrite lookup_insert_ne by done. split; [done|]. by rewrite Hrk.
  - intros c Hc. destruct (decide (n = c)) as [<-|?].
    + rewrite Hrn. lia.
    + rewrite lookup_insert_ne in Hc by done. rewrite Hrk by done. auto.
  - intros c [->|Hc]%elem_of_cons.
    + simpl. by rewrite lookup_insert_eq.
    + destruct (decide (n = c)) as [<-|?]; [by rewrite lookup_insert_eq|].
      rewrite lookup_insert_ne by done. auto.
  - intros c Hc. destruct (decide (n = c)) as [<-|?].
    + by rewrite lookup_insert_eq.
    + rewrite lookup_insert_ne in Hc by done. rewrite lookup_insert_ne by done. auto.
  - by rewrite lookup_insert_ne.
  - intros g c [[= -> ->]|Hin]%elem_of_cons.
    + rewrite Hrn. lia.
    + destruct (decide (n = c)) as [<-|?].
      * rewrite Hrn. specialize (He _ _ Hin).
        assert (is_Some (ps !! n)).
        { apply Hnodes. apply list_elem_of_fmap. by exists (g, n). }
        specialize (Hrec ltac:(done)). lia.
      * rewrite Hrk by done. auto.
Qed.

Lemma relax_dijkstra_tree s st cost cur ps ds h evs d ps' ds' h' evs' :
  d ∈ deltas ->
  relax_dijkstra st cost cur (ps, ds, h, evs) d = Done (ps', ds', h', evs') ->
  pq_tree s ((cost, cur) :: h) ps ds -> pq_tree s ((cost, cur) :: h') ps' ds'.
Proof.
  unfold relax_dijkstra. intros Hd (open & _ & H)%bind_Done Hinv.
  destruct open; [|by simplify_eq].
  destruct (match ds !! _ with None => true | Some old => _ end) eqn:Hlt; simplify_eq; [|done].
  eapply pq_tree_subset; [|eapply pq_tree_relax; [exact Hinv|by left|by apply delta_moves|done]].
  intros x [->|[->|Hx]%elem_of_heappush]%elem_of_cons.
  - right. by left.
  - by left.
  - by do 2 right.
Qed.

Definition fcost_ents (h : list (Z * Z * coord)) : list (Z * coord) :=
  map (fun x => (x.1.2, x.2)) h.

Lemma relax_astar_tree s st g cur ps ds h evs d ps' ds' h' evs' :
  d ∈ deltas ->
  relax_astar st g cur (ps, ds, h, evs) d = Done (ps', ds', h', evs') ->
  pq_tree s ((g, cur) :: fcost_ents h) ps ds ->
  pq_tree s ((g, cur) :: fcost_ents h') ps' ds'.
Proof.
  unfold relax_astar. intros Hd (open & _ & H)%bind_Done Hinv.
  destruct open; [|by simplify_eq].
  apply bind_Done in H as (e & _ & H).
  destruct (match ds !! _ with None => true | Some old => _ end) eqn:Hlt; simplify_eq; [|done].
  eapply pq_tree_subset; [|eapply pq_tree_relax; [exact Hinv|by left|by apply delta_moves|done]].
  intros x [->|Hx]%elem_of_cons; [right; by left|].
  unfold fcost_ents in Hx. apply list_elem_of_fmap in Hx as ([[f' g'] c'] & -> & Hx).
  apply elem_of_heappush in Hx as [[= -> -> ->]|Hx]; [by left|].
  do 2 right. apply list_elem_of_fmap. by exists (f', g', c').
Qed.

(** What holds of the search state of every callback, whatever the grid. *)
Definition frontier_ok (s : coord) (st : App) : Prop :=
  match search_nodes st with
  | Cells q => exists rank, tree_inv s rank q (parents st)
  | Costs h => pq_tree s h (parents st) (distances st)
  | FCosts h => pq_tree s (fcost_ents h) (parents st) (distances st)
  end.

Lemma goal_reached_search now st st' evs :
  goal_reached now st = Done (st', evs) ->
  search_nodes st' = search_nodes st /\ parents st' = parents st /\
  distances st' = distances st.
Proof.
  unfold goal_reached. intros (t0 & _ & H)%bind_Done.
  apply bind_Done in H as (evs' & _ & H). by simplify_eq.
Qed.

Lemma init_search_ok t0 s st : frontier_ok s (init_search t0 s st).
Proof.
  assert (Ht : forall rank nodes, (forall c, c ∈ nodes -> c = s) -> rank s = 0 ->
                 tree_inv s rank nodes (<[s := None]> ∅)).
  { intros rank nodes Hn Hr. split.
    - by rewrite lookup_insert_eq.
    - intros c Hc. destruct (decide (s = c)); [done|].
      by rewrite lookup_insert_ne, lookup_empty in Hc.
    - intros c p Hc. destruct (decide (s = c)) as [<-|].
      + by rewrite lookup_insert_eq in Hc.
      + by rewrite lookup_insert_ne, lookup_empty in Hc.
    - intros c [v Hc]. destruct (decide (s = c)) as [<-|]; [lia|].
      by rewrite lookup_insert_ne, lookup_empty in Hc.
    - intros c ->%Hn. by rewrite lookup_insert_eq. }
  assert (Hpq : pq_tree s [(0, s)] (<[s := None]> ∅) (<[s := 0]> ∅)).
  { split.
    - apply Ht; [|by rewrite lookup_insert_eq].
      by intros c ->%list_elem_of_singleton.
    - intros c [v Hc]. destruct (decide (s = c)) as [<-|]; [by rewrite lookup_insert_eq|].
      by rewrite lookup_insert_ne, lookup_empty in Hc.
    - by rewrite lookup_insert_eq.
    - intros g c [= -> ->]%list_elem_of_singleton. by rewrite lookup_insert_eq. }
  unfold frontier_ok, init_search.
  destruct (decide (algorithm_var st = "Dijkstra")); [exact Hpq|].
  destruct (decide (algorithm_var st = "A*")); [exact Hpq|].
  simpl. exists (fun _ => 0). apply Ht; [|done].
  by intros c ->%list_elem_of_singleton.
Qed.

Lemma tick_frontier_ok s cb now st st' evs :
  frontier_ok s st -> tick cb now st = Done (st', evs) -> frontier_ok s st'.
Proof.
  intros Hok Htick. unfold frontier_ok in *.
  destruct cb; simpl in Htick;
    unfold animate_bfs, animate_dfs, animate_dijkstra, animate_astar in Htick;
    (destruct (solving st); cbn [negb] in Htick; [|by simplify_eq]);
    (destruct (paused st); [by simplify_eq|]);
    destruct (search_nodes st) as [[|c0 q0]|[|[cost cur] rest]|[|[[f g] cur] rest]] eqn:Hfr;
    try discriminate Htick;
    try (injection Htick as <- <-; simpl; by rewrite Hfr).
  - (* BFS *)
    destruct Hok as [rank Hinv]. case_decide.
    + apply goal_reached_search in Htick as (-> & -> & _). cbn [search_nodes parents distances set_search].
      exists rank. eapply tree_inv_nodes; [|done]. intros c Hc. by right.
    + apply bind_Done in Htick as ([[ps q] draws] & Hfold & [= <- <-]).
      cbn [search_nodes parents distances set_search] in *.
      eapply visits_tree; eauto.
  - (* DFS *)
    destruct Hok as [rank Hinv].
    assert (Hsplit : c0 :: q0 = removelast (c0 :: q0) ++ [List.last q0 c0]).
    { rewrite (app_removelast_last c0) at 1 by done. f_equal.
      destruct q0; [done|]. simpl. f_equal. }
    case_decide.
    + apply goal_reached_search in Htick as (-> & -> & _). cbn [search_nodes parents set_search].
      exists rank. eapply tree_inv_nodes; [|done]. intros c Hc.
      rewrite Hsplit. apply elem_of_app. by left.
    + apply bind_Done in Htick as ([[ps q] draws] & Hfold & [= <- <-]).
      cbn [search_nodes parents set_search] in *.
      eapply visits_tree; [done|]. exists rank.
      eapply tree_inv_nodes; [|done]. intros c Hc. rewrite Hsplit.
      apply elem_of_cons in Hc as [->|Hc]; apply elem_of_app; [right; by left|by left].
  - (* Dijkstra *)
    case_decide.
    + apply goal_reached_search in Htick as (-> & -> & ->). cbn [search_nodes parents distances set_search].
      eapply pq_tree_subset; [|done]. intros x Hx. by right.
    + apply bind_Done in Htick as ([[[ps ds] h] draws] & Hfold & [= <- <-]).
      cbn [search_nodes parents distances set_search] in *.
      cut (pq_tree s ((cost, cur) :: h) ps ds).
      { apply pq_tree_subset. intros x Hx. by right. }
      apply (foldM_inv _ (fun a => pq_tree s ((cost, cur) :: a.1.2) a.1.1.1 a.1.1.2)
               deltas _ (ps, ds, h, draws)) in Hfold; [done|done|].
      intros [[[??]?]?] ? [[[??]?]?] ? ? ?. by eapply relax_dijkstra_tree.
  - (* A* *)
    case_decide.
    + apply goal_reached_search in Htick as (-> & -> & ->). cbn [search_nodes parents distances set_search].
      eapply pq_tree_subset; [|done]. intros x Hx. by right.
    + apply bind_Done in Htick as ([[[ps ds] h] draws] & Hfold & [= <- <-]).
      cbn [search_nodes parents distances set_search] in *.
      cut (pq_tree s ((g, cur) :: fcost_ents h) ps ds).
      { apply pq_tree_subset. intros x Hx. by right. }
      apply (foldM_inv _ (fun a => pq_tree s ((g, cur) :: fcost_ents a.1.2) a.1.1.1 a.1.1.2)
               deltas _ (ps, ds, h, draws)) in Hfold; [done|done|].
      intros [[[??]?]?] ? [[[??]?]?] ? ? ?. by eapply relax_astar_tree.
Qed.

(** C10: in every state reached from the reset of a search by callbacks of
    any of the four variants, the start has no parent, every recorded cell
    reaches the start by finitely many parent links, and the backward walk
    of the path drawing ends from whatever cell it starts. *)
Theorem parents_form_a_tree t0 s st0 st :
  reached (init_search t0 s st0) st ->
  parents st !! s = Some None /\
  (forall c, is_Some (parents st !! c) ->
     exists path, trace_back (S (size (parents st))) (parents st) (Some c) = Done path /\
                  last path = Some s) /\
  (forall cur, exists path,
     trace_back (S (size (parents st))) (parents st) cur = Done path).
Proof.
  intros Hr.
  assert (Hok : frontier_ok s st).
  { induction Hr as [|cb now st st' evs _ IH Htick|st _ IH].
    - apply init_search_ok.
    - by eapply tick_frontier_ok.
    - destruct st. exact IH. }
  assert (Htree : exists rank nodes, tree_inv s rank nodes (parents st)).
  { unfold frontier_ok in Hok. destruct (search_nodes st).
    - destruct Hok as [rank ?]. eauto.
    - destruct Hok. eauto.
    - destruct Hok. eauto. }
  destruct Htree as (rank & nodes & Htree).
  split_and!.
  - by destruct Htree.
  - by eapply tree_inv_trace.
  - intros [c|]; [|by exists []].
    destruct (parents st !! c) as [v|] eqn:Hc.
    + destruct (tree_inv_trace _ _ _ _ Htree c) as (path & ? & _); [by eexists|]. eauto.
    + exists [c]. simpl. rewrite Hc. simpl. by destruct (size (parents st)).
Qed.

Lemma parents_form_a_tree_witness :
  exists st,
    run CbAstar [1; 2] (init_search 0 (1, 1) (app_with corridor (1, 1) (1, 3) "A*"))
      = Done (st, [DrawCell (1, 2) LightBlue; After 50 CbAstar;
                   DrawCell (1, 3) LightBlue; After 50 CbAstar]) /\
    parents st !! (1, 1) = Some None /\
    (forall c, is_Some (parents st !! c) ->
       exists path, trace_back (S (size (parents st))) (parents st) (Some c) = Done path /\
                    last path = Some (1, 1)) /\
    (forall cur, exists path,
       trace_back (S (size (parents st))) (parents st) cur = Done path).
Proof.
  pose (st0 := init_search 0 (1, 1) (app_with corridor (1, 1) (1, 3) "A*")).
  destruct (tick CbAstar 1 st0) as [[st1 evs1]| |] eqn:H1; try discriminate H1.
  destruct (tick CbAstar 2 st1) as [[st2 evs2]| |] eqn:H2;
    try (revert H2; vm_compute in H1; injection H1 as <- <-; discriminate).
  exists st2. split.
  - unfold run. cbn [map drive]. fold st0. rewrite H1. cbn [mbind outcome_bind].
    vm_compute in H1. injection H1 as <- <-. cbn [pending]. rewrite H2.
    vm_compute in H2. injection H2 as <- <-. reflexivity.
  - apply (parents_form_a_tree 0 (1, 1) (app_with corridor (1, 1) (1, 3) "A*") st2).
    eapply reached_tick; [|exact H2]. eapply reached_tick; [|exact H1]. constructor.
Defined.

(** ** Running a search to its last callback *)

(** A search in progress on the grid [g] towards [e]. *)
Record searching (g : Grid) (e : coord) (st : App) : Prop := {
  sg_maze : maze st = Some g;
  sg_end : end_point st = Some e;
  sg_solving : solving st = true;
  sg_paused : paused st = false;
  sg_clock : is_Some (search_start_time st);
}.

(** On a rectangular grid the bounds test and the cell test of the solvers
    together say that the neighbour is a Passage cell. *)
Lemma cell_open_passage g w h st x y :
  maze st = Some g -> rect g w h -> 0 < h ->
  cell_open st x y = Done (bool_decide (passage g (x, y))).
Proof.
  intros Hg Hrect Hh. unfold cell_open, the_maze. rewrite Hg.
  destruct (Z.leb_spec 0 x) as [Hx|Hx].
  - cbn [mbind outcome_bind].
    assert (exists row0, g !! 0%nat = Some row0) as [row0 Hrow0].
    { destruct Hrect as [Hlen _]. unfold len in Hlen.
      destruct g as [|row0 g']; simpl in *; [lia|eauto]. }
    rewrite (py_index_lookup g 0 row0 ltac:(lia) Hrow0). cbn [mbind outcome_bind].
    assert (Hw : len row0 = w).
    { destruct Hrect as [_ Hrows]. eapply (proj1 (Forall_forall _ _) Hrows).
      by eapply list_elem_of_lookup_2. }
    rewrite Hw. destruct Hrect as [Hlen Hrows]. rewrite Hlen.
    destruct (Z.ltb_spec x w); destruct (Z.leb_spec 0 y); destruct (Z.ltb_spec y h);
      cbn [andb];
      try (f_equal; symmetry; apply bool_decide_eq_false; intros Hp;
           apply (rect_get_inv g w h) in Hp; [lia|by split]).
    destruct (rect_get g w h x y) as [v Hv]; [by split|lia|lia|].
    rewrite (grid_get_get _ _ _ _ Hv). cbn [mbind outcome_bind]. f_equal.
    destruct (Z.eqb_spec v 0) as [->|Hne].
    + by rewrite bool_decide_eq_true_2.
    + rewrite bool_decide_eq_false_2; [done|]. unfold passage. rewrite Hv. by intros [=].
  - f_equal. symmetry. apply bool_decide_eq_false. intros Hp.
    apply get_Some in Hp as (? & _). lia.
Qed.

Lemma foldM_seen {A B} (f : A -> B -> outcome A) (P : list B -> A -> Prop) l :
  forall seen a a',
  P seen a ->
  (forall seen a b a', b ∈ l -> P seen a -> f a b = Done a' -> P (seen ++ [b]) a') ->
  foldM f a l = Done a' -> P (seen ++ l) a'.
Proof.
  induction l as [|b l IH]; intros seen a a' Ha Hstep Hrun; simpl in Hrun.
  - injection Hrun as <-. by rewrite app_nil_r.
  - apply bind_Done in Hrun as (a1 & H1 & Hrun).
    rewrite (cons_middle b seen l), app_assoc.
    eapply IH; [|intros seen2 a2 b2 a3 Hb2; eapply Hstep; by right | done].
    eapply Hstep; [by left|done..].
Qed.

Lemma foldM_total {A B} (f : A -> B -> outcome A) l :
  (forall a b, b ∈ l -> exists a', f a b = Done a') ->
  forall a, exists a', foldM f a l = Done a'.
Proof.
  induction l as [|b l IH]; intros Hf a; simpl; [eauto|].
  destruct (Hf a b) as [a1 ->]; [by left|]. cbn [mbind outcome_bind].
  apply IH. intros a2 b2 Hb2. apply Hf. by right.
Qed.

(** [steps cb nows st st' evs]: the callbacks fired at the times [nows],
    none of them the last, take [st] to [st'] and show [evs]. *)
Inductive steps (cb : callback) : list Z -> App -> App -> list event -> Prop :=
| steps_nil st : steps cb [] st st []
| steps_cons now nows st st1 draws st2 evs :
    tick cb now st = Done (st1, draws ++ [After (animation_delay_var st) cb]) ->
    Forall light_blue draws ->
    steps cb nows st1 st2 evs ->
    steps cb (now :: nows) st st2 ((draws ++ [After (animation_delay_var st) cb]) ++ evs).

Lemma pending_after draws d cb : pending (draws ++ [After d cb]) = Some cb.
Proof.
  induction draws as [|e draws IH]; [done|].
  simpl. rewrite IH. by destruct e.
Qed.

Lemma pending_terminal t path :
  pending (SetTimeLabel (LabelTime t) :: map (fun c => DrawCell c Yellow) path ++
           [SetTimeLabel (LabelSolved t); ShowInfo "Maze Solved" "Maze solved!"]) = None.
Proof. simpl. induction path as [|c path IH]; [done|]. done. Qed.

Lemma drive_nothing nows st : drive None (map Fire nows) st = Done (st, []).
Proof. induction nows as [|now nows IH]; [done|]. done. Qed.

Lemma run_steps cb nows st st1 evs1 :
  steps cb nows st st1 evs1 ->
  forall now more st2 evs2,
    tick cb now st1 = Done (st2, evs2) -> pending evs2 = None ->
    run cb (nows ++ now :: more) st = Done (st2, evs1 ++ evs2).
Proof.
  unfold run. induction 1 as [st|now0 nows st st1 draws st2 evs Htick Hl Hsteps IH];
    intros now more st3 evs3 Hlast Hpend.
  - cbn [app map drive]. rewrite Hlast. cbn [mbind outcome_bind]. rewrite Hpend.
    rewrite drive_nothing. cbn [mbind outcome_bind]. by rewrite app_nil_r.
  - cbn [app map drive]. rewrite Htick. cbn [mbind outcome_bind].
    rewrite pending_after.
    rewrite (IH _ _ _ _ Hlast Hpend). cbn [mbind outcome_bind].
    do 2 f_equal. apply List.app_assoc.
Qed.

Lemma steps_quiet cb nows st st' evs :
  steps cb nows st st' evs ->
  Forall (fun ev => light_blue ev \/ exists d, ev = After d cb) evs.
Proof.
  induction 1 as [|now nows st st1 draws st2 evs _ Hl _ IH]; [constructor|].
  apply Forall_app. split; [|done]. apply Forall_app. split.
  - eapply Forall_impl; [done|]. auto.
  - apply Forall_singleton. eauto.
Qed.

(** If an invariant, indexed by the number of cells expanded so far, bounds
    that number and every callback either expands one more cell or finds the
    state ready for the last callback, then the last callback comes. *)
Lemma run_to_ready cb (I : nat -> App -> Prop) (Ready : App -> Prop) (bound : nat) :
  (forall n st, I n st -> (n <= bound)%nat) ->
  (forall n st, I n st ->
     Ready st \/
     forall now, exists st' draws,
       tick cb now st = Done (st', draws ++ [After (animation_delay_var st) cb]) /\
       Forall light_blue draws /\ I (S n) st') ->
  forall nows n st, I n st -> (bound - n <= length nows)%nat ->
  exists k st' evs n',
    (k <= bound - n)%nat /\ steps cb (take k nows) st st' evs /\ I n' st' /\ Ready st'.
Proof.
  intros Hbound Hstep. induction nows as [|now nows IH]; intros n st Hinv Hlen.
  - destruct (Hstep _ _ Hinv) as [Hr|Hc].
    + exists 0%nat, st, [], n. split_and!; [lia|constructor|done..].
    + destruct (Hc 0) as (st' & draws & _ & _ & Hinv').
      apply Hbound in Hinv'. apply Hbound in Hinv. simpl in Hlen. lia.
  - destruct (Hstep _ _ Hinv) as [Hr|Hc].
    + exists 0%nat, st, [], n. split_and!; [lia|constructor|done..].
    + destruct (Hc now) as (st' & draws & Htick & Hl & Hinv').
      pose proof (Hbound _ _ Hinv') as Hb.
      destruct (IH (S n) st' Hinv') as (k & st'' & evs & n' & Hk & Hsteps & Hinv'' & Hr).
      { simpl in Hlen. lia. }
      exists (S k), st'', ((draws ++ [After (animation_delay_var st) cb]) ++ evs), n'.
      split_and!; [lia| |done..]. simpl. by econstructor.
Qed.

(** ** Neighbours and walk lengths *)

Lemma neighbours_spec c v :
  v ∈ neighbours c <->
  (v.1 = c.1 + 1 /\ v.2 = c.2) \/ (v.1 = c.1 /\ v.2 = c.2 + 1) \/
  (v.1 = c.1 - 1 /\ v.2 = c.2) \/ (v.1 = c.1 /\ v.2 = c.2 - 1).
Proof.
  destruct c as [x y], v as [vx vy]. unfold neighbours, deltas, move. simpl.
  rewrite !elem_of_cons, elem_of_nil.
  split.
  - intros [H|[H|[H|[H|[]]]]]; injection H as -> ->; lia.
  - intros [[-> ->]|[[-> ->]|[[-> ->]|[-> ->]]]];
      [left|right; left|do 2 right; left|do 3 right; left]; f_equal; lia.
Qed.

Lemma move_neighbour c d : d ∈ deltas -> move c d ∈ neighbours c.
Proof. intros Hd. unfold neighbours. apply list_elem_of_fmap. eauto. Qed.

(** All walks between two cells have the same parity. *)
Lemma walk_parity g s c k :
  walk g s c k -> exists q, k - (c.1 + c.2 - s.1 - s.2) = 2 * q.
Proof.
  induction 1 as [|c c' n _ [q IH] Hnb _]; [exists 0; lia|].
  apply neighbours_spec in Hnb.
  destruct Hnb as [[? ?]|[[? ?]|[[? ?]|[? ?]]]]; (exists q + lia || exists (q + 1); lia).
Qed.

Lemma manhattan_nonneg a b : 0 <= manhattan a b.
Proof. unfold manhattan. lia. Qed.

Lemma manhattan_step u v e :
  v ∈ neighbours u -> manhattan v e <= manhattan u e + 1.
Proof. intros Hn%neighbours_spec. unfold manhattan. lia. Qed.

(** ** The cells a search has expanded and the cells it has yet to expand *)

Section Scan.
Variables (g : Grid) (s e : coord).

(** [done] are the cells expanded so far, [F] the cells of the frontier and
    [V] the cells recorded (the keys of [parents], or of [distances]). *)
Record scan_inv (done F : list coord) (V : gset coord) : Prop := {
  sc_start : s ∈ V;
  sc_dom : forall c, c ∈ V <-> c ∈ done ++ F;
  sc_nodup : NoDup (done ++ F);
  sc_reach : forall c, c ∈ V -> reachable g s c;
  sc_done : forall u, u ∈ done ->
            u ≠ e /\ forall v, v ∈ neighbours u -> passage g v -> v ∈ V;
}.

(** In the middle of the neighbour loop of [cur]: the neighbours [seen] have
    been looked at. *)
Record scan_mid (done : list coord) (cur : coord) (seen F : list coord)
    (V : gset coord) : Prop := {
  sm_inv : scan_inv done (cur :: F) V;
  sm_seen : forall v, v ∈ seen -> passage g v -> v ∈ V;
  sm_cur : cur ≠ e;
}.

Lemma scan_init : scan_inv [] [s] {[s]}.
Proof.
  split.
  - set_solver.
  - intros c. simpl. set_solver.
  - simpl. apply NoDup_singleton.
  - intros c ->%elem_of_singleton. exists 0. constructor.
  - intros u Hu. by apply elem_of_nil in Hu.
Qed.

Lemma scan_perm done F F' V : F ≡ₚ F' -> scan_inv done F V -> scan_inv done F' V.
Proof.
  intros Hp [Hs Hd Hn Hr Hc]. split; try done.
  - intros c. rewrite Hd. by rewrite Hp.
  - by rewrite <- Hp.
Qed.

Lemma scan_open done F cur rest V :
  scan_inv done F V -> F ≡ₚ cur :: rest -> cur ≠ e -> scan_mid done cur [] rest V.
Proof.
  intros Hinv Hp Hne. split; [by eapply scan_perm|
    intros v Hv; by apply elem_of_nil in Hv | done].
Qed.

Lemma scan_skip done cur seen F V n :
  scan_mid done cur seen F V -> (passage g n -> n ∈ V) ->
  scan_mid done cur (seen ++ [n]) F V.
Proof.
  intros [Hinv Hseen Hcur] Hn. split; [done| |done].
  intros v [Hv|Hv]%elem_of_app; [auto|].
  apply list_elem_of_singleton in Hv as ->. auto.
Qed.

Lemma scan_add done cur seen F F' V n :
  scan_mid done cur seen F V -> n ∈ neighbours cur -> passage g n -> n ∉ V ->
  F' ≡ₚ F ++ [n] ->
  scan_mid done cur (seen ++ [n]) F' ({[n]} ∪ V).
Proof.
  intros [[Hs Hd Hn Hr Hcl] Hseen Hcur] Hnb Hp Hfresh HF. split; [split| |done].
  - set_solver.
  - intros c. rewrite HF. rewrite elem_of_union, elem_of_singleton, Hd.
    rewrite !elem_of_app, !elem_of_cons, elem_of_app, list_elem_of_singleton. tauto.
  - rewrite HF. rewrite app_comm_cons, app_assoc.
    apply NoDup_app. split_and!; [done| |apply NoDup_singleton].
    intros c Hc Hc'. apply list_elem_of_singleton in Hc' as ->. apply Hfresh. by apply Hd.
  - intros c [Hc|Hc]%elem_of_union; [|auto].
    apply elem_of_singleton in Hc as ->.
    eapply reachable_step; [|done..]. apply Hr, Hd.
    apply elem_of_app. right. by left.
  - intros u Hu. destruct (Hcl u Hu) as [? Hv]. split; [done|]. set_solver.
  - intros v [Hv|Hv]%elem_of_app Hpv; [set_solver|].
    apply list_elem_of_singleton in Hv as ->. set_solver.
Qed.

Lemma scan_close done cur seen F V :
  scan_mid done cur seen F V -> (forall v, v ∈ neighbours cur -> v ∈ seen) ->
  scan_inv (done ++ [cur]) F V.
Proof.
  intros [[Hs Hd Hn Hr Hcl] Hseen Hcur] Hall. split; try done.
  - intros c. rewrite Hd. by rewrite <- app_assoc.
  - by rewrite <- app_assoc.
  - intros u [Hu|Hu]%elem_of_app; [auto|].
    apply list_elem_of_singleton in Hu as ->. split; [done|]. auto.
Qed.

(** Everything reachable has been recorded once the frontier is empty, and
    the goal is not among the cells expanded. *)
Lemma scan_exhausted done V : scan_inv done [] V -> ~ reachable g s e.
Proof.
  intros [Hs Hd Hn Hr Hc] [k Hw].
  assert (Hcl : forall u v, u ∈ done -> v ∈ neighbours u -> passage g v -> v ∈ V).
  { intros u v Hu. destruct (Hc _ Hu) as [_ Hv]. auto. }
  assert (Hin : e ∈ V).
  { clear Hc. induction Hw as [|c c' n _ IH Hnb Hp]; [done|].
    apply Hd in IH. rewrite app_nil_r in IH. eauto. }
  apply Hd in Hin. rewrite app_nil_r in Hin. by destruct (Hc _ Hin).
Qed.

Lemma scan_bound (done F : list coord) (V R : gset coord) :
  scan_inv done F V -> (forall c, reachable g s c -> c ∈ R) ->
  (length done + length F <= size R)%nat.
Proof.
  intros [Hs Hd Hn Hr Hc] HR. rewrite <- length_app.
  rewrite <- (size_list_to_set (C := gset coord) (done ++ F)) by done.
  apply subseteq_size. intros c Hc'%elem_of_list_to_set. apply HR, Hr. by apply Hd.
Qed.

End Scan.

(** ** Breadth-first and depth-first search *)

Lemma StronglySorted_snoc {A} (R : A -> A -> Prop) l x :
  StronglySorted R l -> Forall (fun a => R a x) l -> StronglySorted R (l ++ [x]).
Proof.
  induction 1 as [|a l Hl IH Ha]; intros Hx; simpl.
  - repeat constructor.
  - apply Forall_cons in Hx as [Hax Hx]. constructor; [auto|].
    apply Forall_app. split; [done|]. by apply Forall_singleton.
Qed.

Lemma StronglySorted_ext {A} (R R' : A -> A -> Prop) l :
  StronglySorted R l -> (forall a b, a ∈ l -> b ∈ l -> R a b -> R' a b) ->
  StronglySorted R' l.
Proof.
  induction 1 as [|a l Hl IH Ha]; intros Hext; constructor.
  - apply IH. intros b c Hb Hc. apply Hext; by right.
  - apply Forall_forall. intros b Hb. apply Hext; [by left|by right|].
    by apply (proj1 (Forall_forall _ _) Ha).
Qed.

Section Search.
Variables (g : Grid) (w h : Z) (s e : coord).
Hypothesis Hrect : rect g w h.
Hypothesis Hh : 0 < h.

Lemma visit_spec st cur ps q evs d :
  maze st = Some g ->
  visit st cur (ps, q, evs) d =
  Done (if bool_decide (passage g (move cur d)) && bool_decide (ps !! move cur d = None)
        then (<[move cur d := Some cur]> ps, q ++ [move cur d],
              evs ++ [DrawCell (move cur d) LightBlue])
        else (ps, q, evs)).
Proof.
  intros Hg. unfold visit.
  rewrite (cell_open_passage g w h st _ _ Hg Hrect Hh). cbn [mbind outcome_bind].
  rewrite <- (surjective_pairing (move cur d)). by destruct (_ && _).
Qed.

(** [lvl] is the depth of a recorded cell in the tree of parents.  In the
    first-in first-out frontier the depths do not decrease and span at most
    two values, and no recorded cell lies deeper. *)
Record lvl_mid (lvl : coord -> Z) (done : list coord) (cur : coord)
    (F : list coord) (ps : gmap coord (option coord)) : Prop := {
  lm_start : ps !! s = Some None /\ lvl s = 0;
  lm_walk : forall c, is_Some (ps !! c) -> walk g s c (lvl c);
  lm_parent : forall c p, ps !! c = Some (Some p) ->
              is_Some (ps !! p) /\ lvl c = lvl p + 1;
  lm_root : forall c, ps !! c = Some None -> c = s;
  lm_sorted : StronglySorted (fun a b => lvl a <= lvl b) (cur :: F);
  lm_span : forall c, is_Some (ps !! c) -> lvl c <= lvl cur + 1;
  lm_done : forall u v, u ∈ done -> v ∈ neighbours u -> is_Some (ps !! v) ->
            lvl v <= lvl u + 1;
}.

(** Recording the fresh Passage neighbour [n] of [cur] one level deeper. *)
Lemma lvl_mid_add lvl done cur seen F ps n :
  scan_mid g s e done cur seen F (dom ps) -> lvl_mid lvl done cur F ps ->
  n ∈ neighbours cur -> passage g n -> ps !! n = None ->
  lvl_mid (fun c => if decide (c = n) then lvl cur + 1 else lvl c) done cur
          (F ++ [n]) (<[n := Some cur]> ps).
Proof.
  intros [[Hs Hd Hnd Hr Hcl] Hseen Hcur] [[Hps Hl0] Hwalk Hpar Hroot Hsort Hspan Hdone]
    Hnb Hp Hfresh.
  assert (Hrec : forall c, is_Some (ps !! c) -> c ≠ n).
  { intros c Hc ->. rewrite Hfresh in Hc. by destruct Hc. }
  assert (Hcur_rec : is_Some (ps !! cur)).
  { apply elem_of_dom, Hd, elem_of_app. right. by left. }
  assert (Hs_rec : is_Some (ps !! s)) by (by rewrite Hps).
  split.
  - rewrite lookup_insert_ne by (by apply not_eq_sym, Hrec).
    rewrite decide_False by (by apply Hrec). done.
  - intros c Hc. case_decide as Hcn.
    + subst c. econstructor; [by apply Hwalk|done..].
    + rewrite lookup_insert_ne in Hc by done. auto.
  - intros c p Hc. destruct (decide (n = c)) as [<-|Hcn].
    + rewrite lookup_insert_eq in Hc. injection Hc as <-.
      rewrite lookup_insert_ne by (by apply not_eq_sym, Hrec).
      split; [done|]. rewrite decide_True by done.
      by rewrite decide_False by (by apply Hrec).
    + rewrite lookup_insert_ne in Hc by done. destruct (Hpar _ _ Hc) as [Hp' Hl].
      rewrite lookup_insert_ne by (by apply not_eq_sym, Hrec).
      split; [done|]. rewrite !decide_False; [done|by apply Hrec|by apply not_eq_sym].
  - intros c Hc. destruct (decide (n = c)) as [<-|Hcn].
    + by rewrite lookup_insert_eq in Hc.
    + rewrite lookup_insert_ne in Hc by done. auto.
  - change (cur :: F ++ [n]) with ((cur :: F) ++ [n]).
    assert (Hin : forall a, a ∈ cur :: F -> is_Some (ps !! a)).
    { intros a Ha. apply elem_of_dom, Hd, elem_of_app. by right. }
    apply StronglySorted_snoc.
    + eapply StronglySorted_ext; [exact Hsort|].
      intros a b Ha Hb Hab. simpl.
      rewrite !decide_False; [done|by apply Hrec, Hin..].
    + apply Forall_forall. intros a Ha. simpl.
      rewrite (decide_True (P := n = n)) by done.
      rewrite decide_False by (by apply Hrec, Hin). by apply Hspan, Hin.
  - intros c Hc. rewrite (decide_False (P := cur = n)) by (by apply Hrec).
    case_decide as Hcn; [lia|].
    rewrite lookup_insert_ne in Hc by (by apply not_eq_sym). auto.
  - intros u v Hu Hv Hrecv.
    assert (Hu_rec : is_Some (ps !! u)).
    { apply elem_of_dom, Hd, elem_of_app. by left. }
    rewrite (decide_False (P := u = n)) by (by apply Hrec).
    case_decide as Hvn.
    + subst v. destruct (Hcl _ Hu) as [_ Hclu].
      specialize (Hclu _ Hv Hp). apply elem_of_dom in Hclu.
      by apply Hrec in Hclu.
    + rewrite lookup_insert_ne in Hrecv by (by apply not_eq_sym). eauto.
Qed.

(** The neighbour loop of [cur], for both searches. *)
Lemma visits_scan st cur done rest ps :
  maze st = Some g ->
  scan_mid g s e done cur [] rest (dom ps) ->
  exists ps' q' draws,
    foldM (visit st cur) (ps, rest, []) deltas = Done (ps', q', draws) /\
    Forall light_blue draws /\
    scan_inv g s e (done ++ [cur]) q' (dom ps') /\
    ((exists lvl, lvl_mid lvl done cur rest ps) ->
     exists lvl, lvl_mid lvl done cur q' ps').
Proof.
  intros Hg Hmid.
  destruct (foldM_total (visit st cur) deltas) with (a := (ps, rest, @nil event))
    as [[[ps' q'] draws] Hfold].
  { intros [[ps1 q1] evs1] d _. rewrite visit_spec by done. eauto. }
  exists ps', q', draws. split; [done|].
  pose (P := fun (seen : list coord) (a : gmap coord (option coord) * list coord * list event) =>
    scan_mid g s e done cur (move cur <$> seen) a.1.2 (dom a.1.1) /\
    Forall light_blue a.2 /\
    ((exists lvl, lvl_mid lvl done cur rest ps) ->
     exists lvl, lvl_mid lvl done cur a.1.2 a.1.1)).
  assert (HP : P ([] ++ deltas) (ps', q', draws)).
  { eapply (foldM_seen (visit st cur) P); [|clear Hfold|exact Hfold].
    - split_and!; [done|constructor|done].
    - intros seen [[ps1 q1] evs1] d [[ps2 q2] evs2] Hd (Hsc & Hlb & Hlvl) Hv.
      rewrite visit_spec in Hv by done. simpl in Hsc, Hlb, Hlvl.
      unfold P. simpl. rewrite fmap_app. simpl.
      case_bool_decide as Hp; simpl in Hv; [case_bool_decide as Hfresh; simpl in Hv|];
        simplify_eq.
      + split_and!.
        * rewrite dom_insert_L. eapply scan_add; [done|by apply move_neighbour|done| |done].
          by apply not_elem_of_dom.
        * apply Forall_app. split; [done|]. apply Forall_singleton. by eexists.
        * intros Hl. destruct (Hlvl Hl) as [lvl Hlm]. eexists.
          eapply lvl_mid_add; [done..|by apply move_neighbour|done|done].
      + split_and!; [|done..]. apply scan_skip; [done|].
        intros _. apply elem_of_dom. by destruct (ps2 !! move cur d); [eexists|].
      + split_and!; [|done..]. by apply scan_skip. }
  destruct HP as (Hsc & Hlb & Hlvl). simpl in *.
  split_and!; [done| |done].
  eapply scan_close; [done|]. auto.
Qed.

(** When BFS is about to expand [cur], no walk from the start is shorter
    than the depth of [cur] unless it ends in a recorded cell at most that
    deep. *)
Lemma bfs_frontier_is_nearest lvl done cur rest ps :
  scan_inv g s e done (cur :: rest) (dom ps) -> lvl_mid lvl done cur rest ps ->
  forall c k, walk g s c k -> lvl cur <= k \/ (is_Some (ps !! c) /\ lvl c <= k).
Proof.
  intros [Hs Hd Hnd Hr Hcl] [[Hps Hl0] Hwalk Hpar Hroot Hsort Hspan Hdone] c k Hw.
  induction Hw as [|c c' n _ IH Hnb Hp].
  - right. rewrite Hps. split; [by eexists|lia].
  - destruct IH as [IH|[Hc IH]]; [left; lia|].
    apply elem_of_dom, Hd in Hc as Hc'. apply elem_of_app in Hc' as [Hc'|Hc'].
    + right. destruct (Hcl _ Hc') as [_ Hv]. specialize (Hv _ Hnb Hp).
      apply elem_of_dom in Hv. split; [done|].
      specialize (Hdone _ _ Hc' Hnb Hv). lia.
    + left. apply StronglySorted_inv in Hsort as [_ Hlow].
      apply elem_of_cons in Hc' as [->|Hc']; [lia|].
      apply (proj1 (Forall_forall _ _) Hlow) in Hc'. lia.
Qed.

(** The backward walk from a recorded cell has one cell per level. *)
Lemma lvl_trace lvl done cur F ps :
  lvl_mid lvl done cur F ps ->
  forall c, is_Some (ps !! c) ->
  exists path, trace_back (S (size ps)) ps (Some c) = Done path /\
               Z.of_nat (length path) = lvl c + 1.
Proof.
  intros [[Hps Hl0] Hwalk Hpar Hroot Hsort Hspan Hdone] c Hc.
  cut (exists fuel path, trace_back fuel ps (Some c) = Done path /\
                         Z.of_nat (length path) = lvl c + 1).
  { intros (fuel & path & Hrun & Hlen). exists path. split; [|done].
    by eapply trace_back_enough. }
  assert (Hwf : forall n c, is_Some (ps !! c) -> lvl c < Z.of_nat n ->
    exists path, trace_back n ps (Some c) = Done path /\
                 Z.of_nat (length path) = lvl c + 1).
  { clear c Hc. induction n as [|n IH]; intros c [v Hv] Hr.
    - pose proof (walk_nonneg _ _ _ _ (Hwalk c ltac:(by eexists))). lia.
    - simpl. rewrite Hv. destruct v as [p|]; simpl.
      + destruct (Hpar _ _ Hv) as [Hp Hlt].
        destruct (IH p Hp ltac:(lia)) as (path & -> & Hlen). simpl.
        exists (c :: path). split; [done|]. simpl length. lia.
      + apply Hroot in Hv as ->.
        exists [s]. split; [by destruct n|]. simpl. lia. }
  pose proof (walk_nonneg _ _ _ _ (Hwalk c Hc)).
  destruct (Hwf (Z.to_nat (lvl c + 1)) c Hc) as (path & ? & ?); [lia|eauto].
Qed.

End Search.

(** Every cell a walk can reach is the start or a cell of the grid, so the
    reachable cells are finitely many. *)
Definition grid_cells (s : coord) (w h : Z) : gset coord :=
  list_to_set (s :: list_prod (seqZ 0 w) (seqZ 0 h)).

Lemma grid_cells_reachable g w h s c :
  rect g w h -> reachable g s c -> c ∈ grid_cells s w h.
Proof.
  intros Hrect [k Hw]. unfold grid_cells. apply elem_of_list_to_set.
  destruct Hw as [|c c' n _ _ Hp]; [by left|]. right.
  destruct c' as [x y]. apply (rect_get_inv g w h) in Hp; [|done].
  apply list_elem_of_In, in_prod_iff. split; apply list_elem_of_In, elem_of_seqZ; lia.
Qed.

Lemma size_list_to_set_bound (l : list coord) :
  (size (list_to_set l : gset coord) <= length l)%nat.
Proof.
  induction l as [|a l IH].
  - rewrite list_to_set_nil, size_empty. simpl. lia.
  - rewrite list_to_set_cons, size_union_alt, size_singleton. simpl length.
    assert (size (list_to_set l ∖ {[a]} : gset coord) <= size (list_to_set l : gset coord))%nat
      by (apply subseteq_size; set_solver).
    lia.
Qed.

Lemma grid_cells_size s w h :
  0 <= w -> 0 <= h -> (size (grid_cells s w h) <= Z.to_nat (w * h) + 1)%nat.
Proof.
  intros Hw Hh. unfold grid_cells.
  etransitivity; [apply size_list_to_set_bound|].
  simpl. rewrite length_prod, !length_seqZ. nia.
Qed.

Lemma painted_quiet cb evs :
  Forall (fun ev => light_blue ev \/ exists d, ev = After d cb) evs ->
  painted Yellow evs = [].
Proof.
  unfold painted, omap. induction 1 as [|ev evs [[c ->]|[d ->]] _ IH]; [done|..];
    simpl; done.
Qed.

Lemma painted_app fill evs1 evs2 :
  painted fill (evs1 ++ evs2) = painted fill evs1 ++ painted fill evs2.
Proof. unfold painted. apply omap_app. Qed.

Lemma painted_path t1 t2 path :
  painted Yellow (SetTimeLabel t1 :: map (fun c => DrawCell c Yellow) path ++
                  [SetTimeLabel t2; ShowInfo "Maze Solved" "Maze solved!"]) = path.
Proof.
  unfold painted, omap. simpl. induction path as [|c path IH]; [done|].
  simpl. by rewrite IH.
Qed.

Lemma quiet_not_terminal cb evs :
  Forall (fun ev => light_blue ev \/ exists d, ev = After d cb) evs ->
  ~ solved evs /\ ~ exhausted evs.
Proof.
  intros Hq. unfold solved, exhausted.
  split; intros Hin; apply (proj1 (Forall_forall _ _) Hq) in Hin as [[c Hc]|[d Hd]]; done.
Qed.

Lemma steps_run cb nows st st' evs :
  steps cb nows st st' evs -> run cb nows st = Done (st', evs).
Proof.
  unfold run. induction 1 as [st|now0 nows st st1 draws st2 evs Htick Hl Hsteps IH];
    [done|].
  cbn [map drive]. rewrite Htick. cbn [mbind outcome_bind].
  rewrite pending_after, IH. done.
Qed.

Lemma solve_run t0 t1 nows st g s e :
  maze st = Some g -> start_point st = Some s -> end_point st = Some e ->
  solve t0 t1 nows st = run (callback_of (algorithm_var st)) (t1 :: nows) (init_search t0 s st).
Proof.
  intros Hg Hs He. unfold solve, on_solve_maze, run. rewrite Hg, Hs, He.
  cbn [map drive]. by destruct (tick _ t1 _) as [[st1 evs1]| |].
Qed.

(** The whole run: callbacks that expand one cell each, then the last one. *)
Lemma run_to_end cb (I : nat -> App -> Prop) (Ready : App -> Prop)
    (Fin : App -> App -> list event -> Prop) (bound : nat) :
  (forall n st, I n st -> (n <= bound)%nat) ->
  (forall n st, I n st ->
     Ready st \/
     forall now, exists st' draws,
       tick cb now st = Done (st', draws ++ [After (animation_delay_var st) cb]) /\
       Forall light_blue draws /\ I (S n) st') ->
  (forall n st, I n st -> Ready st ->
     forall now, exists st' evs,
       tick cb now st = Done (st', evs) /\ pending evs = None /\ Fin st st' evs) ->
  forall nows st, I 0%nat st -> (bound < length nows)%nat ->
  exists k stk quiet now st' evs,
    (k <= bound)%nat /\
    steps cb (take k nows) st stk quiet /\
    nows !! k = Some now /\ tick cb now stk = Done (st', evs) /\
    run cb nows st = Done (st', quiet ++ evs) /\
    Fin stk st' evs.
Proof.
  intros Hbound Hstep Hfin nows st Hinv Hlen.
  destruct (run_to_ready cb I Ready bound Hbound Hstep nows 0%nat st Hinv)
    as (k & stk & quiet & n' & Hk & Hsteps & Hinv' & Hready); [lia|].
  assert (Hsplit : exists now more, nows = take k nows ++ now :: more).
  { destruct (drop k nows) as [|now more] eqn:Hdrop.
    - apply (f_equal length) in Hdrop. rewrite length_drop in Hdrop. simpl in Hdrop. lia.
    - exists now, more. by rewrite <- Hdrop, take_drop. }
  destruct Hsplit as (now & more & Hsplit).
  destruct (Hfin _ _ Hinv' Hready now) as (st' & evs & Htick & Hpend & HFin).
  exists k, stk, quiet, now, st', evs. split_and!; [lia|done| |done| |done].
  - rewrite Hsplit. rewrite lookup_app_r by (rewrite length_take; lia).
    rewrite length_take. by replace (k - k `min` length nows)%nat with 0%nat by lia.
  - rewrite Hsplit. by eapply run_steps.
Qed.

Section Runs.
Variables (g : Grid) (w h : Z) (s e : coord) (R : gset coord).
Hypothesis Hrect : rect g w h.
Hypothesis Hh : 0 < h.
Hypothesis HR : forall c, reachable g s c -> c ∈ R.

(** *** Breadth-first search *)

Definition bfs_state (n : nat) (st : App) : Prop :=
  searching g e st /\
  exists lvl done Q,
    search_nodes st = Cells Q /\ length done = n /\
    scan_inv g s e done Q (dom (parents st)) /\
    match Q with
    | [] => True
    | cur :: rest => lvl_mid g s lvl done cur rest (parents st)
    end.

Definition cells_ready (st : App) : Prop :=
  search_nodes st = Cells [] \/ exists rest, search_nodes st = Cells (e :: rest).

(** What the last callback of a search leaves: no path and an unreachable
    goal, or a path with one cell more than the shortest walk has moves. *)
Definition bfs_final (st' : App) (evs : list event) : Prop :=
  solving st' = false /\
  ((exhausted evs /\ ~ solved evs /\ ~ reachable g s e) \/
   (solved evs /\
    exists d, walk g s e d /\ (forall m, walk g s e m -> d <= m) /\
              Z.of_nat (length (painted Yellow evs)) = d + 1)).

Lemma lvl_mid_pop lvl done cur a rest ps :
  lvl_mid g s lvl done cur (a :: rest) ps -> lvl_mid g s lvl (done ++ [cur]) a rest ps.
Proof.
  intros [Hstart Hwalk Hpar Hroot Hsort Hspan Hdone].
  apply StronglySorted_inv in Hsort as [Hsort Hlow].
  apply Forall_cons in Hlow as [Hlow _].
  split; try done.
  - intros c Hc. specialize (Hspan c Hc). lia.
  - intros u v [Hu|Hu]%elem_of_app Hv Hrec; [eauto|].
    apply list_elem_of_singleton in Hu as ->. auto.
Qed.

Lemma bfs_init t0 st :
  maze st = Some g -> end_point st = Some e -> paused st = false ->
  algorithm_var st = "BFS" -> bfs_state 0 (init_search t0 s st).
Proof.
  intros Hg He Hp Ha. unfold init_search. rewrite Ha.
  rewrite decide_False by done. rewrite decide_False by done.
  split; [split; simpl; eauto|].
  exists (fun _ => 0), [], [s]. simpl.
  rewrite dom_insert_L, dom_empty_L, union_empty_r_L.
  split_and!; [done|done|apply scan_init|].
  split.
  - by rewrite lookup_insert_eq.
  - intros c [v Hc]. destruct (decide (s = c)) as [<-|]; [constructor|].
    by rewrite lookup_insert_ne, lookup_empty in Hc.
  - intros c p Hc. destruct (decide (s = c)) as [<-|].
    + by rewrite lookup_insert_eq in Hc.
    + by rewrite lookup_insert_ne, lookup_empty in Hc.
  - intros c Hc. destruct (decide (s = c)) as [<-|]; [done|].
    by rewrite lookup_insert_ne, lookup_empty in Hc.
  - repeat constructor.
  - intros c _. lia.
  - intros u v Hu. by apply elem_of_nil in Hu.
Qed.

Lemma bfs_bound n st : bfs_state n st -> (n <= size R)%nat.
Proof.
  intros (_ & lvl & done & Q & _ & <- & Hsc & _).
  pose proof (scan_bound g s e done Q _ R Hsc HR). lia.
Qed.

Lemma searching_popped st fr ps ds :
  searching g e st -> searching g e (set_search fr ps ds st).
Proof. intros []. by split. Qed.

Lemma bfs_step n st :
  bfs_state n st ->
  cells_ready st \/
  forall now, exists st' draws,
    tick CbBfs now st = Done (st', draws ++ [After (animation_delay_var st) CbBfs]) /\
    Forall light_blue draws /\ bfs_state (S n) st'.
Proof.
  intros (Hsg & lvl & done & Q & HQ & Hn & Hsc & Hlvl).
  destruct Q as [|cur rest]; [left; by left|].
  destruct (decide (cur = e)) as [->|Hne]; [left; right; eauto|].
  right. intros now. simpl. unfold animate_bfs.
  destruct Hsg as [Hg He Hsol Hp Hclk]. rewrite Hsol, Hp, HQ. cbn [negb].
  cbn [end_point set_search]. rewrite He.
  rewrite decide_False by (intros [=]; done).
  destruct (visits_scan g w h s e Hrect Hh
              (set_search (Cells rest) (parents st) (distances st) st) cur done rest
              (parents st)) as (ps' & q' & draws & Hfold & Hlb & Hsc' & Hlvl');
    [done|by apply (scan_open g s e done (cur :: rest))|].
  cbn [parents set_search]. rewrite Hfold. cbn [mbind outcome_bind].
  eexists _, draws. split; [reflexivity|]. split; [done|].
  split; [by split|].
  destruct (Hlvl' ltac:(eauto)) as [lvl' Hlm].
  exists lvl', (done ++ [cur]), q'. cbn [search_nodes parents set_search].
  split_and!; [done|rewrite length_app; simpl; lia|done|].
  destruct q' as [|a rest']; [done|]. by apply lvl_mid_pop.
Qed.

Lemma bfs_last n st :
  bfs_state n st -> cells_ready st ->
  forall now, exists st' evs,
    tick CbBfs now st = Done (st', evs) /\ pending evs = None /\ bfs_final st' evs.
Proof.
  intros (Hsg & lvl & done & Q & HQ & Hn & Hsc & Hlvl) Hready now.
  destruct Hsg as [Hg He Hsol Hp [t0 Hclk]].
  simpl. unfold animate_bfs. rewrite Hsol, Hp, HQ. cbn [negb].
  destruct Hready as [Hr|[rest Hr]]; rewrite HQ in Hr; injection Hr as ->.
  - eexists _, _. split; [reflexivity|]. split; [done|].
    split; [done|]. left. unfold exhausted, solved. split_and!.
    + by left.
    + by intros ?%list_elem_of_singleton.
    + by eapply scan_exhausted.
  - cbn [end_point set_search]. rewrite He. rewrite decide_True by done.
    unfold goal_reached. cbn [search_start_time set_solving set_search]. rewrite Hclk.
    cbn [mbind outcome_bind]. unfold draw_solution_path.
    cbn [parents end_point set_search_time set_solving set_search]. rewrite He.
    assert (He_rec : is_Some (parents st !! e)).
    { apply elem_of_dom, (sc_dom _ _ _ _ _ _ Hsc), elem_of_app. right. by left. }
    destruct (lvl_trace g s lvl done e rest (parents st) Hlvl e He_rec)
      as (path & -> & Hlen).
    cbn [mbind outcome_bind]. eexists _, _. split; [reflexivity|].
    split; [apply pending_terminal|]. split; [done|]. right. split.
    + unfold solved. right. apply elem_of_app. right. right. by left.
    + exists (lvl e). split_and!.
      * by apply (lm_walk _ _ _ _ _ _ _ Hlvl).
      * intros m Hm.
        destruct (bfs_frontier_is_nearest g s e lvl done e rest _ Hsc Hlvl _ _ Hm); lia.
      * by rewrite painted_path.
Qed.

(** *** Depth-first search *)

Definition dfs_state (n : nat) (st : App) : Prop :=
  searching g e st /\
  exists done Q,
    search_nodes st = Cells Q /\ length done = n /\
    scan_inv g s e done Q (dom (parents st)).

Lemma dfs_init t0 st :
  maze st = Some g -> end_point st = Some e -> paused st = false ->
  algorithm_var st = "DFS" -> dfs_state 0 (init_search t0 s st).
Proof.
  intros Hg He Hp Ha. unfold init_search. rewrite Ha.
  rewrite decide_False by done. rewrite decide_False by done.
  split; [split; simpl; eauto|].
  exists [], [s]. simpl.
  rewrite dom_insert_L, dom_empty_L, union_empty_r_L.
  split_and!; [done|done|apply scan_init].
Qed.

Lemma dfs_bound n st : dfs_state n st -> (n <= size R)%nat.
Proof.
  intros (_ & done & Q & _ & <- & Hsc).
  pose proof (scan_bound g s e done Q _ R Hsc HR). lia.
Qed.

Lemma dfs_step n st :
  dfs_state n st -> ~ reachable g s e ->
  search_nodes st = Cells [] \/
  forall now, exists st' draws,
    tick CbDfs now st = Done (st', draws ++ [After (animation_delay_var st) CbDfs]) /\
    Forall light_blue draws /\ dfs_state (S n) st'.
Proof.
  intros (Hsg & done & Q & HQ & Hn & Hsc) Hunreach.
  destruct Q as [|c0 q0]; [by left|].
  right. intros now. simpl. unfold animate_dfs.
  destruct Hsg as [Hg He Hsol Hp Hclk]. rewrite Hsol, Hp, HQ. cbn [negb].
  cbn [end_point set_search]. rewrite He.
  set (cur := List.last q0 c0). set (rest := removelast (c0 :: q0)).
  assert (Hsplit : c0 :: q0 = rest ++ [cur]).
  { unfold rest, cur. rewrite (app_removelast_last c0) at 1 by done. f_equal.
    destruct q0; [done|]. simpl. f_equal. }
  assert (Hperm : c0 :: q0 ≡ₚ cur :: rest).
  { rewrite Hsplit. by rewrite Permutation_app_comm. }
  assert (Hne : cur ≠ e).
  { intros ->. apply Hunreach. apply (sc_reach _ _ _ _ _ _ Hsc).
    apply (sc_dom _ _ _ _ _ _ Hsc), elem_of_app. right. rewrite Hperm. by left. }
  rewrite decide_False by (intros [=]; done).
  destruct (visits_scan g w h s e Hrect Hh
              (set_search (Cells rest) (parents st) (distances st) st) cur done rest
              (parents st)) as (ps' & q' & draws & Hfold & Hlb & Hsc' & _);
    [done|by apply (scan_open g s e done (c0 :: q0))|].
  cbn [parents set_search]. rewrite Hfold. cbn [mbind outcome_bind].
  eexists _, draws. split; [reflexivity|]. split; [done|].
  split; [by split|].
  exists (done ++ [cur]), q'. cbn [search_nodes parents set_search].
  split_and!; [done|rewrite length_app; simpl; lia|done].
Qed.

End Runs.

Lemma rect_width_nonneg g w h : rect g w h -> 0 < h -> 0 <= w.
Proof.
  intros [Hlen Hrows] Hh. unfold len in *.
  destruct g as [|row g]; simpl in *; [lia|].
  apply Forall_cons in Hrows as [<- _]. lia.
Qed.

Lemma walk_zero g s c : walk g s c 0 -> c = s.
Proof.
  inversion 1 as [|c0 c' n Hw _ _ Hn]; [done|].
  apply walk_nonneg in Hw. lia.
Qed.

(** C1: on every rectangular grid (so on every generated one), for every
    start and goal joined by a walk through Passage cells, breadth-first
    search driven to its end signals the goal, and the path it draws has as
    many edges as a shortest walk from start to goal has moves. *)
Theorem bfs_path_is_shortest g w h s e d t0 t1 nows st :
  rect g w h -> 0 < h ->
  maze st = Some g -> start_point st = Some s -> end_point st = Some e ->
  paused st = false -> algorithm_var st = "BFS" ->
  walk g s e d -> (forall m, walk g s e m -> d <= m) ->
  (Z.to_nat (w * h) + 1 <= length nows)%nat ->
  exists st' evs,
    solve t0 t1 nows st = Done (st', evs) /\
    solved evs /\ solving st' = false /\
    Z.of_nat (length (painted Yellow evs)) - 1 = d.
Proof.
  intros Hrect Hh Hg Hs He Hp Ha Hwalk Hmin Hlen.
  rewrite (solve_run t0 t1 nows st g s e Hg Hs He). rewrite Ha.
  change (callback_of "BFS") with CbBfs.
  pose proof (rect_width_nonneg _ _ _ Hrect Hh) as Hw.
  pose proof (grid_cells_size s w h Hw ltac:(lia)) as Hsize.
  destruct (run_to_end CbBfs (bfs_state g s e) (cells_ready e)
              (fun _ => bfs_final g s e) (size (grid_cells s w h)))
    with (nows := t1 :: nows) (st := init_search t0 s st)
    as (k & stk & quiet & now & st' & evs & Hk & Hsteps & _ & _ & Hrun & Hsol & Hfin).
  - intros n st0. apply bfs_bound. intros c. by apply grid_cells_reachable.
  - intros n st0. by apply (bfs_step g w h).
  - intros n st0. by apply bfs_last.
  - by apply bfs_init.
  - simpl. lia.
  - exists st', (quiet ++ evs). split; [done|].
    pose proof (steps_quiet _ _ _ _ _ Hsteps) as Hq.
    destruct Hfin as [(_ & _ & Hun)|(Hsolved & d' & Hw' & Hmin' & Hlen')].
    { destruct Hun. by exists d. }
    split_and!; [|done|].
    + unfold solved in *. apply elem_of_app. by right.
    + rewrite painted_app, (painted_quiet _ _ Hq). simpl.
      specialize (Hmin _ Hw'). specialize (Hmin' _ Hwalk). lia.
Qed.

Lemma bfs_path_is_shortest_witness :
  exists st' evs,
    solve 0 1 (replicate 26 2) (app_with corridor (1, 1) (1, 3) "BFS") = Done (st', evs) /\
    solved evs /\ solving st' = false /\
    Z.of_nat (length (painted Yellow evs)) - 1 = 2.
Proof.
  apply (bfs_path_is_shortest corridor 5 5 (1, 1) (1, 3) 2 0 1 (replicate 26 2)
           (app_with corridor (1, 1) (1, 3) "BFS")); try reflexivity.
  - split; [reflexivity|]. repeat constructor.
  - change 2 with (0 + 1 + 1).
    eapply (walk_snoc _ _ (1, 2)); [eapply (walk_snoc _ _ (1, 1)); [constructor|..]|..];
      first [reflexivity | apply neighbours_spec; simpl; lia].
  - intros m Hm. pose proof (walk_nonneg _ _ _ _ Hm).
    destruct (walk_parity _ _ _ _ Hm) as [q Hq]. simpl in Hq.
    destruct (decide (m = 0)) as [->|]; [|lia].
    by apply walk_zero in Hm.
Defined.

(** ** Dijkstra and A*: recorded distances are shortest distances *)

Lemma neighbours_sym u v : v ∈ neighbours u -> u ∈ neighbours v.
Proof. rewrite !neighbours_spec. lia. Qed.

Lemma coord_leb_spec a b :
  coord_leb a b = true <-> a.1 < b.1 \/ (a.1 = b.1 /\ a.2 <= b.2).
Proof.
  unfold coord_leb. rewrite orb_true_iff, andb_true_iff.
  rewrite Z.ltb_lt, Z.eqb_eq, Z.leb_le. done.
Qed.

Lemma cost_leb_spec a b :
  cost_leb a b = true <->
  a.1 < b.1 \/ (a.1 = b.1 /\ (a.2.1 < b.2.1 \/ (a.2.1 = b.2.1 /\ a.2.2 <= b.2.2))).
Proof.
  unfold cost_leb. rewrite orb_true_iff, andb_true_iff.
  rewrite Z.ltb_lt, Z.eqb_eq, coord_leb_spec. done.
Qed.

Lemma fcost_leb_spec a b :
  fcost_leb a b = true <->
  a.1.1 < b.1.1 \/
  (a.1.1 = b.1.1 /\
   (a.1.2 < b.1.2 \/
    (a.1.2 = b.1.2 /\ (a.2.1 < b.2.1 \/ (a.2.1 = b.2.1 /\ a.2.2 <= b.2.2))))).
Proof.
  unfold fcost_leb. rewrite orb_true_iff, andb_true_iff.
  rewrite Z.ltb_lt, Z.eqb_eq, cost_leb_spec. done.
Qed.

(** A heap is kept sorted by its order. *)
Definition sorted_by {A} (leb : A -> A -> bool) (h : list A) : Prop :=
  StronglySorted (fun a b => leb a b = true) h.

Lemma heappush_sorted {A} (leb : A -> A -> bool) x h :
  (forall a b, leb a b = false -> leb b a = true) ->
  (forall a b c, leb a b = true -> leb b c = true -> leb a c = true) ->
  sorted_by leb h -> sorted_by leb (heappush leb x h).
Proof.
  intros Htot Htrans. unfold sorted_by.
  induction 1 as [|y h Hs IH Hy]; simpl; [repeat constructor|].
  destruct (leb x y) eqn:Hxy.
  - constructor; [by constructor|]. constructor; [done|].
    eapply Forall_impl; [done|]. intros z Hz. by eapply Htrans.
  - constructor; [done|]. rewrite heappush_perm. constructor; [auto|done].
Qed.

Lemma cost_leb_total a b : cost_leb a b = false -> cost_leb b a = true.
Proof.
  intros H%not_true_iff_false. apply cost_leb_spec. rewrite cost_leb_spec in H. lia.
Qed.

Lemma cost_leb_trans a b c :
  cost_leb a b = true -> cost_leb b c = true -> cost_leb a c = true.
Proof. rewrite !cost_leb_spec. lia. Qed.

Lemma fcost_leb_total a b : fcost_leb a b = false -> fcost_leb b a = true.
Proof.
  intros H%not_true_iff_false. apply fcost_leb_spec. rewrite fcost_leb_spec in H. lia.
Qed.

Lemma fcost_leb_trans a b c :
  fcost_leb a b = true -> fcost_leb b c = true -> fcost_leb a c = true.
Proof. rewrite !fcost_leb_spec. lia. Qed.

Section Pq.
Variables (g : Grid) (s e : coord) (hf : coord -> Z).
Hypothesis hf_nonneg : forall c, 0 <= hf c.
Hypothesis hf_step : forall u v, v ∈ neighbours u -> hf v <= hf u + 1.

(** [ents] are the heap entries [(f, g, cell)], [ds] the recorded
    distances, [done] the cells expanded so far. *)
Record pq_inv (done : list coord) (ents : list (Z * Z * coord))
    (ds : gmap coord Z) : Prop := {
  pq_scan : scan_inv g s e done ents.*2 (dom ds);
  pq_start : ds !! s = Some 0;
  pq_ents : forall f gc c, (f, gc, c) ∈ ents ->
            ds !! c = Some gc /\ f <= gc + hf c /\ (f = gc + hf c \/ gc = 0);
  pq_opt : forall c d, ds !! c = Some d ->
           walk g s c d /\ forall k, walk g s c k -> d <= k;
}.

(** In the middle of the neighbour loop of [cur], popped with cost [gb]. *)
Record pq_mid (done : list coord) (gb : Z) (cur : coord) (seen : list coord)
    (ents : list (Z * Z * coord)) (ds : gmap coord Z) : Prop := {
  pm_scan : scan_mid g s e done cur seen ents.*2 (dom ds);
  pm_start : ds !! s = Some 0;
  pm_ents : forall f gc c, (f, gc, c) ∈ ents ->
            ds !! c = Some gc /\ f <= gc + hf c /\ (f = gc + hf c \/ gc = 0);
  pm_opt : forall c d, ds !! c = Some d ->
           walk g s c d /\ forall k, walk g s c k -> d <= k;
  pm_cur : ds !! cur = Some gb;
  pm_near : forall n k, n ∈ neighbours cur -> walk g s n k -> k <= gb - 1 ->
            is_Some (ds !! n);
}.

(** Every walk from the start ends in a recorded cell at most as far, or
    passes a frontier entry that is at most as costly. *)
Lemma pq_frontier done ents ds :
  pq_inv done ents ds ->
  forall c k, walk g s c k ->
  (exists f gc c', (f, gc, c') ∈ ents /\ f <= k + hf c /\ gc <= k) \/
  (exists d, ds !! c = Some d /\ d <= k).
Proof.
  intros [[Hs Hd Hnd Hr Hcl] Hstart Hents Hopt] c k Hw.
  induction Hw as [|c c' n Hw IH Hnb Hp].
  - right. exists 0. split; [done|lia].
  - pose proof (hf_step c' c (neighbours_sym _ _ Hnb)) as Hh.
    destruct IH as [(f & gc & c0 & Hin & Hf & Hg)|(d & Hc & Hdk)].
    { left. exists f, gc, c0. split_and!; [done|lia..]. }
    assert (Hc' : c ∈ dom ds) by (apply elem_of_dom; by eexists).
    apply Hd, elem_of_app in Hc' as [Hc'|Hc'].
    + right. destruct (Hcl _ Hc') as [_ Hv]. specialize (Hv _ Hnb Hp).
      apply elem_of_dom in Hv as [d' Hd'].
      exists d'. split; [done|].
      destruct (Hopt _ _ Hd') as [_ Hmin]. apply Hmin. by econstructor.
    + left. apply list_elem_of_fmap in Hc' as ([[f gc] c0] & -> & Hin).
      destruct (Hents _ _ _ Hin) as (Hc0 & Hf & _). simpl in Hc. rewrite Hc in Hc0.
      injection Hc0 as <-. exists f, d, c0. simpl in *. split_and!; [done|lia..].
Qed.

Lemma pq_open done fb gb cur rest ds :
  pq_inv done ((fb, gb, cur) :: rest) ds ->
  Forall (fun x => fcost_leb (fb, gb, cur) x = true) rest ->
  cur ≠ e -> pq_mid done gb cur [] rest ds.
Proof.
  intros Hinv Hmin Hne. pose proof Hinv as [Hsc Hstart Hents Hopt].
  destruct (Hents fb gb cur ltac:(by left)) as (Hcur & Hfb & Hreg).
  split; try done.
  - by apply (scan_open g s e done (cur :: rest.*2)).
  - intros f gc c Hin. apply Hents. by right.
  - intros n k Hnb Hw Hk.
    destruct (pq_frontier _ _ _ Hinv _ _ Hw) as [(f & gc & c0 & Hin & Hf & Hg)|(d & Hd & _)];
      [|by eexists].
    pose proof (walk_nonneg _ _ _ _ Hw) as Hk0.
    pose proof (hf_step cur n Hnb) as Hh.
    apply elem_of_cons in Hin as [Heq|Hin]; [injection Heq as -> -> ->; lia|].
    apply (proj1 (Forall_forall _ _) Hmin) in Hin.
    apply fcost_leb_spec in Hin. simpl in Hin. lia.
Qed.

Lemma pq_skip done gb cur seen ents ds n :
  pq_mid done gb cur seen ents ds -> (passage g n -> is_Some (ds !! n)) ->
  pq_mid done gb cur (seen ++ [n]) ents ds.
Proof.
  intros [Hsc Hstart Hents Hopt Hcur Hnear] Hn. split; try done.
  apply scan_skip; [done|]. intros Hp. by apply elem_of_dom, Hn.
Qed.

(** A recorded neighbour is never improved: its distance is shortest. *)
Lemma pq_recorded done gb cur seen ents ds n old :
  pq_mid done gb cur seen ents ds -> n ∈ neighbours cur -> passage g n ->
  ds !! n = Some old -> (gb + 1 <? old) = false.
Proof.
  intros [Hsc Hstart Hents Hopt Hcur Hnear] Hnb Hp Hold.
  destruct (Hopt _ _ Hcur) as [Hw _]. destruct (Hopt _ _ Hold) as [_ Hmin].
  apply Z.ltb_ge. apply Hmin. by econstructor.
Qed.

(** A fresh neighbour is recorded with its shortest distance. *)
Lemma pq_relax done gb cur seen ents ents' ds n :
  pq_mid done gb cur seen ents ds -> n ∈ neighbours cur -> passage g n ->
  ds !! n = None -> ents' ≡ₚ (gb + 1 + hf n, gb + 1, n) :: ents ->
  pq_mid done gb cur (seen ++ [n]) ents' (<[n := gb + 1]> ds).
Proof.
  intros [Hsc Hstart Hents Hopt Hcur Hnear] Hnb Hp Hfresh Hperm.
  assert (Hrec : forall c, is_Some (ds !! c) -> c ≠ n).
  { intros c Hc ->. rewrite Hfresh in Hc. by destruct Hc. }
  destruct (Hopt _ _ Hcur) as [Hwcur _].
  assert (Hwn : walk g s n (gb + 1)) by (by econstructor).
  split.
  - rewrite dom_insert_L. eapply scan_add; [done..|by apply not_elem_of_dom|].
    rewrite Hperm. simpl. by rewrite Permutation_app_comm.
  - rewrite lookup_insert_ne; [done|]. apply not_eq_sym, Hrec. by eexists.
  - intros f gc c Hin. rewrite Hperm in Hin. apply elem_of_cons in Hin as [Heq|Hin].
    + injection Heq as -> -> ->. rewrite lookup_insert_eq. split_and!; [done|lia|by left].
    + destruct (Hents _ _ _ Hin) as (Hc & ? & ?).
      rewrite lookup_insert_ne by (apply not_eq_sym, Hrec; by eexists). done.
  - intros c d Hc. destruct (decide (n = c)) as [<-|Hcn].
    + rewrite lookup_insert_eq in Hc. injection Hc as <-. split; [done|].
      intros k Hk. destruct (decide (gb + 1 <= k)) as [|Hlt]; [done|].
      destruct (walk_parity _ _ _ _ Hk) as [q Hq].
      destruct (walk_parity _ _ _ _ Hwn) as [q' Hq'].
      destruct (Hnear n k Hnb Hk ltac:(lia)) as [v Hv]. congruence.
    + rewrite lookup_insert_ne in Hc by done. auto.
  - rewrite lookup_insert_ne; [done|]. apply not_eq_sym, Hrec. by eexists.
  - intros m k Hm Hk Hle. destruct (decide (n = m)) as [<-|Hnm].
    + by rewrite lookup_insert_eq.
    + rewrite lookup_insert_ne by done. eauto.
Qed.

Lemma pq_close done gb cur seen ents ds :
  pq_mid done gb cur seen ents ds -> (forall v, v ∈ neighbours cur -> v ∈ seen) ->
  pq_inv (done ++ [cur]) ents ds.
Proof.
  intros [Hsc Hstart Hents Hopt Hcur Hnear] Hall. split; try done.
  by eapply scan_close.
Qed.

Lemma pq_init : pq_inv [] [(0, 0, s)] (<[s := 0]> ∅).
Proof.
  split.
  - rewrite dom_insert_L, dom_empty_L, union_empty_r_L. apply scan_init.
  - by rewrite lookup_insert_eq.
  - intros f gc c Hin. apply list_elem_of_singleton in Hin. injection Hin as -> -> ->.
    rewrite lookup_insert_eq. split_and!; [done| |by right].
    specialize (hf_nonneg s). lia.
  - intros c d Hc. destruct (decide (s = c)) as [<-|Hne].
    + rewrite lookup_insert_eq in Hc. injection Hc as <-.
      split; [constructor|]. intros k Hk. by eapply walk_nonneg.
    + by rewrite lookup_insert_ne, lookup_empty in Hc.
Qed.

(** With the frontier empty the goal is unreachable; with the goal on top
    of the heap its cost is the length of a shortest walk. *)
Lemma pq_goal_cost done f gc rest ds :
  pq_inv done ((f, gc, e) :: rest) ds ->
  walk g s e gc /\ forall k, walk g s e k -> gc <= k.
Proof.
  intros [Hsc Hstart Hents Hopt].
  destruct (Hents f gc e ltac:(by left)) as (He & _). by apply Hopt.
Qed.

End Pq.

(** The entries of Dijkstra's heap seen as [(f, g, cell)] with [f = g]. *)
Definition cost_ents (h : list (Z * coord)) : list (Z * Z * coord) :=
  (fun x => (x.1, x.1, x.2)) <$> h.

Lemma frontier_ok_trace s st :
  frontier_ok s st ->
  forall cur, exists path,
    trace_back (S (size (parents st))) (parents st) cur = Done path.
Proof.
  intros Hok.
  assert (Htree : exists rank nodes, tree_inv s rank nodes (parents st)).
  { unfold frontier_ok in Hok. destruct (search_nodes st).
    - destruct Hok as [rank ?]. eauto.
    - destruct Hok. eauto.
    - destruct Hok. eauto. }
  destruct Htree as (rank & nodes & Htree).
  intros [c|]; [|by exists []].
  destruct (parents st !! c) as [v|] eqn:Hc.
  - destruct (tree_inv_trace _ _ _ _ Htree c) as (path & ? & _); [by eexists|]. eauto.
  - exists [c]. simpl. rewrite Hc. simpl. by destruct (size (parents st)).
Qed.

Section PqRuns.
Variables (g : Grid) (w h : Z) (s e : coord) (R : gset coord).
Hypothesis Hrect : rect g w h.
Hypothesis Hh : 0 < h.
Hypothesis HR : forall c, reachable g s c -> c ∈ R.

(** What the last callback of Dijkstra or A* leaves: no path and an
    unreachable goal, or the goal popped with the shortest distance. *)
Definition pq_final (st st' : App) (evs : list event) : Prop :=
  solving st' = false /\
  ((exhausted evs /\ ~ solved evs /\ ~ reachable g s e) \/
   (solved evs /\
    exists d, pops (search_nodes st) = Some (d, e) /\
              walk g s e d /\ forall m, walk g s e m -> d <= m)).

Lemma goal_reached_ok now st :
  searching g e st -> frontier_ok s st ->
  exists st' evs,
    goal_reached now st = Done (st', evs) /\ pending evs = None /\
    solved evs /\ solving st' = false.
Proof.
  intros [Hg He Hsol Hp [t0 Hclk]] Hok. unfold goal_reached.
  cbn [search_start_time set_solving]. rewrite Hclk. cbn [mbind outcome_bind].
  unfold draw_solution_path. cbn [parents end_point set_search_time set_solving].
  destruct (frontier_ok_trace s st Hok (end_point st)) as [path ->].
  cbn [mbind outcome_bind]. eexists _, _. split; [reflexivity|].
  split; [apply pending_terminal|]. split; [|done].
  unfold solved. right. apply elem_of_app. right. right. by left.
Qed.

Lemma frontier_ok_popped st fr :
  frontier_ok s st ->
  match search_nodes st, fr with
  | Costs (_ :: rest), Costs rest' => rest' = rest
  | FCosts (_ :: rest), FCosts rest' => rest' = rest
  | _, _ => False
  end ->
  frontier_ok s (set_search fr (parents st) (distances st) st).
Proof.
  unfold frontier_ok. cbn [search_nodes parents distances set_search].
  destruct (search_nodes st) as [q|[|x rest]|[|x rest]]; destruct fr as [q'|h'|h'];
    try done; intros Hok ->; (eapply pq_tree_subset; [|exact Hok]);
    intros y Hy; by right.
Qed.

(** *** Dijkstra *)

Definition dijkstra_state (n : nat) (st : App) : Prop :=
  searching g e st /\ frontier_ok s st /\
  exists done hp,
    search_nodes st = Costs hp /\ length done = n /\
    sorted_by cost_leb hp /\
    pq_inv g s e (fun _ => 0) done (cost_ents hp) (distances st).

Definition pq_ready (st : App) : Prop :=
  pops (search_nodes st) = None \/ exists d, pops (search_nodes st) = Some (d, e).

Lemma relax_dijkstra_spec st cost cur ps ds hp evs d :
  maze st = Some g ->
  relax_dijkstra st cost cur (ps, ds, hp, evs) d =
  Done (if bool_decide (passage g (move cur d)) &&
           match ds !! move cur d with None => true | Some old => cost + 1 <? old end
        then (<[move cur d := Some cur]> ps, <[move cur d := cost + 1]> ds,
              heappush cost_leb (cost + 1, move cur d) hp,
              evs ++ [DrawCell (move cur d) LightBlue])
        else (ps, ds, hp, evs)).
Proof.
  intros Hg. unfold relax_dijkstra.
  rewrite (cell_open_passage g w h st _ _ Hg Hrect Hh). cbn [mbind outcome_bind].
  rewrite <- (surjective_pairing (move cur d)).
  destruct (bool_decide _); simpl; [|done].
  destruct (ds !! move cur d) as [old|]; [destruct (_ <? old)|]; done.
Qed.

Lemma dijkstra_relaxes st cost cur done rest ps ds :
  maze st = Some g ->
  pq_mid g s e (fun _ => 0) done cost cur [] (cost_ents rest) ds ->
  sorted_by cost_leb rest ->
  exists ps' ds' hp' draws,
    foldM (relax_dijkstra st cost cur) (ps, ds, rest, []) deltas
      = Done (ps', ds', hp', draws) /\
    Forall light_blue draws /\
    pq_inv g s e (fun _ => 0) (done ++ [cur]) (cost_ents hp') ds' /\
    sorted_by cost_leb hp'.
Proof.
  intros Hg Hmid Hsorted.
  destruct (foldM_total (relax_dijkstra st cost cur) deltas)
    with (a := (ps, ds, rest, @nil event)) as [[[[ps' ds'] hp'] draws] Hfold].
  { intros [[[ps1 ds1] h1] evs1] d _. rewrite relax_dijkstra_spec by done. eauto. }
  exists ps', ds', hp', draws. split; [done|].
  pose (P := fun (seen : list coord)
      (a : gmap coord (option coord) * gmap coord Z * list (Z * coord) * list event) =>
    pq_mid g s e (fun _ => 0) done cost cur (move cur <$> seen) (cost_ents a.1.2) a.1.1.2 /\
    Forall light_blue a.2 /\ sorted_by cost_leb a.1.2).
  assert (HP : P ([] ++ deltas) (ps', ds', hp', draws)).
  { eapply (foldM_seen (relax_dijkstra st cost cur) P); [|clear Hfold|exact Hfold].
    - split_and!; [done|constructor|done].
    - intros seen [[[ps1 ds1] h1] evs1] d [[[ps2 ds2] h2] evs2] Hd (Hpm & Hlb & Hso) Hv.
      rewrite relax_dijkstra_spec in Hv by done. simpl in Hpm, Hlb, Hso.
      unfold P. simpl. rewrite fmap_app. simpl.
      pose proof (move_neighbour cur d Hd) as Hnb.
      case_bool_decide as Hp; simpl in Hv.
      + destruct (ds1 !! move cur d) as [old|] eqn:Hold.
        * rewrite (pq_recorded g s e _ _ _ _ _ _ _ _ _ Hpm Hnb Hp Hold) in Hv.
          simplify_eq. split_and!; [|done..]. apply pq_skip; [done|]. by eexists.
        * simplify_eq. split_and!.
          -- eapply pq_relax; [done..|]. unfold cost_ents.
             rewrite heappush_perm. simpl. by rewrite Z.add_0_r.
          -- apply Forall_app. split; [done|]. apply Forall_singleton. by eexists.
          -- apply heappush_sorted;
               [apply cost_leb_total|apply cost_leb_trans|done].
      + simplify_eq. split_and!; [|done..]. by apply pq_skip. }
  destruct HP as (Hpm & Hlb & Hso). simpl in *.
  split_and!; [done| |done].
  eapply pq_close; [done|]. auto.
Qed.

Lemma dijkstra_init t0 st :
  maze st = Some g -> end_point st = Some e -> paused st = false ->
  algorithm_var st = "Dijkstra" -> dijkstra_state 0 (init_search t0 s st).
Proof.
  intros Hg He Hp Ha. split; [|split; [apply init_search_ok|]].
  - unfold init_search. rewrite Ha. rewrite decide_True by done. split; simpl; eauto.
  - unfold init_search. rewrite Ha. rewrite decide_True by done.
    exists [], [(0, s)]. cbn [search_nodes distances heappush].
    split_and!; [done|done|repeat constructor|].
    apply pq_init. done.
Qed.

Lemma dijkstra_bound n st : dijkstra_state n st -> (n <= size R)%nat.
Proof.
  intros (_ & _ & done & hp & _ & <- & _ & [Hsc _ _ _]).
  pose proof (scan_bound g s e done _ _ R Hsc HR). lia.
Qed.

Lemma dijkstra_step n st :
  dijkstra_state n st ->
  pq_ready st \/
  forall now, exists st' draws,
    tick CbDijkstra now st
      = Done (st', draws ++ [After (animation_delay_var st) CbDijkstra]) /\
    Forall light_blue draws /\ dijkstra_state (S n) st'.
Proof.
  intros (Hsg & Hok & done & hp & Hfr & Hn & Hso & Hinv).
  destruct hp as [|[cost cur] rest]; [left; left; by rewrite Hfr|].
  destruct (decide (cur = e)) as [->|Hne]; [left; right; rewrite Hfr; by eexists|].
  right. intros now.
  assert (Hmid : pq_mid g s e (fun _ => 0) done cost cur [] (cost_ents rest) (distances st)).
  { apply StronglySorted_inv in Hso as [_ Hmin].
    eapply pq_open; [done|exact Hinv| |done].
    unfold cost_ents. apply Forall_fmap. eapply Forall_impl; [exact Hmin|].
    intros [c2 n2] Hle. simpl in *.
    apply fcost_leb_spec. apply cost_leb_spec in Hle. simpl in *. lia. }
  apply StronglySorted_inv in Hso as [Hso _].
  destruct (dijkstra_relaxes (set_search (Costs rest) (parents st) (distances st) st)
              cost cur done rest (parents st) (distances st))
    as (ps' & ds' & hp' & draws & Hfold & Hlb & Hinv' & Hso'); [by destruct Hsg|done..|].
  assert (Htick : tick CbDijkstra now st =
    Done (set_search (Costs hp') ps' ds'
            (set_search (Costs rest) (parents st) (distances st) st),
          draws ++ [After (animation_delay_var st) CbDijkstra])).
  { simpl. unfold animate_dijkstra.
    destruct Hsg as [Hg He Hsol Hp Hclk]. rewrite Hsol, Hp, Hfr. cbn [negb].
    cbn [end_point set_search]. rewrite He.
    rewrite decide_False by (intros [=]; done).
    cbn [parents distances set_search]. rewrite Hfold. done. }
  eexists _, draws. split; [exact Htick|]. split; [done|].
  split; [by do 2 apply searching_popped|].
  split; [by eapply tick_frontier_ok|].
  exists (done ++ [cur]), hp'. cbn [search_nodes distances set_search].
  split_and!; [done|rewrite length_app; simpl; lia|done..].
Qed.

Lemma dijkstra_last n st :
  dijkstra_state n st -> pq_ready st ->
  forall now, exists st' evs,
    tick CbDijkstra now st = Done (st', evs) /\ pending evs = None /\
    pq_final st st' evs.
Proof.
  intros (Hsg & Hok & done & hp & Hfr & Hn & Hso & Hinv) Hready now.
  pose proof Hsg as [Hg He Hsol Hp Hclk].
  simpl. unfold animate_dijkstra. rewrite Hsol, Hp, Hfr. cbn [negb].
  destruct hp as [|[cost cur] rest].
  - eexists _, _. split; [reflexivity|]. split; [done|].
    split; [done|]. left. unfold exhausted, solved. split_and!.
    + by left.
    + by intros ?%list_elem_of_singleton.
    + destruct Hinv as [Hsc _ _ _]. by eapply scan_exhausted.
  - destruct Hready as [Hr|[d Hr]]; rewrite Hfr in Hr; [done|].
    injection Hr as -> ->.
    cbn [end_point set_search]. rewrite He. rewrite decide_True by done.
    destruct (goal_reached_ok now (set_search (Costs rest) (parents st) (distances st) st))
      as (st' & evs & -> & Hpend & Hsolved & Hs');
      [by apply searching_popped|apply frontier_ok_popped; [done|by rewrite Hfr]|].
    eexists _, _. split; [reflexivity|]. split; [done|]. split; [done|].
    right. split; [done|]. exists d. rewrite Hfr. split; [done|].
    apply (pq_goal_cost g s e (fun _ => 0) done d d (cost_ents rest) (distances st)).
    exact Hinv.
Qed.

(** *** A* *)

Definition astar_state (n : nat) (st : App) : Prop :=
  searching g e st /\ frontier_ok s st /\
  exists done hp,
    search_nodes st = FCosts hp /\ length done = n /\
    sorted_by fcost_leb hp /\
    pq_inv g s e (fun c => manhattan c e) done hp (distances st).

Lemma relax_astar_spec st gb cur ps ds hp evs d :
  maze st = Some g -> end_point st = Some e ->
  relax_astar st gb cur (ps, ds, hp, evs) d =
  Done (if bool_decide (passage g (move cur d)) &&
           match ds !! move cur d with None => true | Some old => gb + 1 <? old end
        then (<[move cur d := Some cur]> ps, <[move cur d := gb + 1]> ds,
              heappush fcost_leb (gb + 1 + manhattan (move cur d) e, gb + 1, move cur d) hp,
              evs ++ [DrawCell (move cur d) LightBlue])
        else (ps, ds, hp, evs)).
Proof.
  intros Hg He. unfold relax_astar, the_end. rewrite He.
  rewrite (cell_open_passage g w h st _ _ Hg Hrect Hh). cbn [mbind outcome_bind].
  rewrite <- (surjective_pairing (move cur d)).
  destruct (bool_decide _); simpl; [|done].
  destruct (ds !! move cur d) as [old|]; [destruct (_ <? old)|]; done.
Qed.

Lemma astar_relaxes st gb cur done rest ps ds :
  maze st = Some g -> end_point st = Some e ->
  pq_mid g s e (fun c => manhattan c e) done gb cur [] rest ds ->
  sorted_by fcost_leb rest ->
  exists ps' ds' hp' draws,
    foldM (relax_astar st gb cur) (ps, ds, rest, []) deltas
      = Done (ps', ds', hp', draws) /\
    Forall light_blue draws /\
    pq_inv g s e (fun c => manhattan c e) (done ++ [cur]) hp' ds' /\
    sorted_by fcost_leb hp'.
Proof.
  intros Hg He Hmid Hsorted.
  destruct (foldM_total (relax_astar st gb cur) deltas)
    with (a := (ps, ds, rest, @nil event)) as [[[[ps' ds'] hp'] draws] Hfold].
  { intros [[[ps1 ds1] h1] evs1] d _. rewrite relax_astar_spec by done. eauto. }
  exists ps', ds', hp', draws. split; [done|].
  pose (P := fun (seen : list coord)
      (a : gmap coord (option coord) * gmap coord Z * list (Z * Z * coord) * list event) =>
    pq_mid g s e (fun c => manhattan c e) done gb cur (move cur <$> seen) a.1.2 a.1.1.2 /\
    Forall light_blue a.2 /\ sorted_by fcost_leb a.1.2).
  assert (HP : P ([] ++ deltas) (ps', ds', hp', draws)).
  { eapply (foldM_seen (relax_astar st gb cur) P); [|clear Hfold|exact Hfold].
    - split_and!; [done|constructor|done].
    - intros seen [[[ps1 ds1] h1] evs1] d [[[ps2 ds2] h2] evs2] Hd (Hpm & Hlb & Hso) Hv.
      rewrite relax_astar_spec in Hv by done. simpl in Hpm, Hlb, Hso.
      unfold P. simpl. rewrite fmap_app. simpl.
      pose proof (move_neighbour cur d Hd) as Hnb.
      case_bool_decide as Hp; simpl in Hv.
      + destruct (ds1 !! move cur d) as [old|] eqn:Hold.
        * rewrite (pq_recorded g s e _ _ _ _ _ _ _ _ _ Hpm Hnb Hp Hold) in Hv.
          simplify_eq. split_and!; [|done..]. apply pq_skip; [done|]. by eexists.
        * simplify_eq. split_and!.
          -- eapply pq_relax; [done..|].
             by rewrite heappush_perm.
          -- apply Forall_app. split; [done|]. apply Forall_singleton. by eexists.
          -- apply heappush_sorted;
               [apply fcost_leb_total|apply fcost_leb_trans|done].
      + simplify_eq. split_and!; [|done..]. by apply pq_skip. }
  destruct HP as (Hpm & Hlb & Hso). simpl in *.
  split_and!; [done| |done].
  eapply pq_close; [done|]. auto.
Qed.

Lemma astar_init t0 st :
  maze st = Some g -> end_point st = Some e -> paused st = false ->
  algorithm_var st = "A*" -> astar_state 0 (init_search t0 s st).
Proof.
  intros Hg He Hp Ha. split; [|split; [apply init_search_ok|]].
  - unfold init_search. rewrite Ha. rewrite decide_False by done.
    rewrite decide_True by done. split; simpl; eauto.
  - unfold init_search. rewrite Ha. rewrite decide_False by done.
    rewrite decide_True by done.
    exists [], [(0, 0, s)]. cbn [search_nodes distances heappush].
    split_and!; [done|done|repeat constructor|].
    apply pq_init. intros c. apply manhattan_nonneg.
Qed.

Lemma astar_bound n st : astar_state n st -> (n <= size R)%nat.
Proof.
  intros (_ & _ & done & hp & _ & <- & _ & [Hsc _ _ _]).
  pose proof (scan_bound g s e done _ _ R Hsc HR). lia.
Qed.

Lemma astar_step n st :
  astar_state n st ->
  pq_ready st \/
  forall now, exists st' draws,
    tick CbAstar now st
      = Done (st', draws ++ [After (animation_delay_var st) CbAstar]) /\
    Forall light_blue draws /\ astar_state (S n) st'.
Proof.
  intros (Hsg & Hok & done & hp & Hfr & Hn & Hso & Hinv).
  destruct hp as [|[[fb gb] cur] rest]; [left; left; by rewrite Hfr|].
  destruct (decide (cur = e)) as [->|Hne]; [left; right; rewrite Hfr; by eexists|].
  right. intros now.
  assert (Hmid : pq_mid g s e (fun c => manhattan c e) done gb cur [] rest (distances st)).
  { apply StronglySorted_inv in Hso as [_ Hmin].
    eapply pq_open; [intros; by apply manhattan_step|exact Hinv|done|done]. }
  apply StronglySorted_inv in Hso as [Hso _].
  destruct (astar_relaxes (set_search (FCosts rest) (parents st) (distances st) st)
              gb cur done rest (parents st) (distances st))
    as (ps' & ds' & hp' & draws & Hfold & Hlb & Hinv' & Hso');
    [by destruct Hsg|by destruct Hsg|done..|].
  assert (Htick : tick CbAstar now st =
    Done (set_search (FCosts hp') ps' ds'
            (set_search (FCosts rest) (parents st) (distances st) st),
          draws ++ [After (animation_delay_var st) CbAstar])).
  { simpl. unfold animate_astar.
    destruct Hsg as [Hg He Hsol Hp Hclk]. rewrite Hsol, Hp, Hfr. cbn [negb].
    cbn [end_point set_search]. rewrite He.
    rewrite decide_False by (intros [=]; done).
    cbn [parents distances set_search]. rewrite Hfold. done. }
  eexists _, draws. split; [exact Htick|]. split; [done|].
  split; [by do 2 apply searching_popped|].
  split; [by eapply tick_frontier_ok|].
  exists (done ++ [cur]), hp'. cbn [search_nodes distances set_search].
  split_and!; [done|rewrite length_app; simpl; lia|done..].
Qed.

Lemma astar_last n st :
  astar_state n st -> pq_ready st ->
  forall now, exists st' evs,
    tick CbAstar now st = Done (st', evs) /\ pending evs = None /\
    pq_final st st' evs.
Proof.
  intros (Hsg & Hok & done & hp & Hfr & Hn & Hso & Hinv) Hready now.
  pose proof Hsg as [Hg He Hsol Hp Hclk].
  simpl. unfold animate_astar. rewrite Hsol, Hp, Hfr. cbn [negb].
  destruct hp as [|[[fb gb] cur] rest].
  - eexists _, _. split; [reflexivity|]. split; [done|].
    split; [done|]. left. unfold exhausted, solved. split_and!.
    + by left.
    + by intros ?%list_elem_of_singleton.
    + destruct Hinv as [Hsc _ _ _]. by eapply scan_exhausted.
  - destruct Hready as [Hr|[d Hr]]; rewrite Hfr in Hr; [done|].
    injection Hr as -> ->.
    cbn [end_point set_search]. rewrite He. rewrite decide_True by done.
    destruct (goal_reached_ok now (set_search (FCosts rest) (parents st) (distances st) st))
      as (st' & evs & -> & Hpend & Hsolved & Hs');
      [by apply searching_popped|apply frontier_ok_popped; [done|by rewrite Hfr]|].
    eexists _, _. split; [reflexivity|]. split; [done|]. split; [done|].
    right. split; [done|]. exists d. rewrite Hfr. split; [done|].
    by eapply (pq_goal_cost g s e (fun c => manhattan c e)).
Qed.

End PqRuns.

(** ** A* pops the goal with Dijkstra's cost (C5) *)

(** C5: on every rectangular grid and for every start and goal joined by a
    walk through Passage cells, Dijkstra and A*, each driven until the goal
    is on top of its heap, pop the goal with the same accumulated cost, the
    length of a shortest walk; the goal has not been signalled before, and
    the callback that pops it signals it. *)
Theorem astar_pops_goal_at_dijkstra_cost g w h s e t0 t0' nowsD nowsA stD stA :
  rect g w h -> 0 < h ->
  maze stD = Some g -> end_point stD = Some e -> paused stD = false ->
  algorithm_var stD = "Dijkstra" ->
  maze stA = Some g -> end_point stA = Some e -> paused stA = false ->
  algorithm_var stA = "A*" ->
  reachable g s e ->
  (Z.to_nat (w * h) + 2 <= length nowsD)%nat ->
  (Z.to_nat (w * h) + 2 <= length nowsA)%nat ->
  exists d kD kA sD sA evD evA,
    (walk g s e d /\ forall m, walk g s e m -> d <= m) /\
    run CbDijkstra (take kD nowsD) (init_search t0 s stD) = Done (sD, evD) /\
    ~ solved evD /\ pops (search_nodes sD) = Some (d, e) /\
    (exists now st' evs,
       nowsD !! kD = Some now /\ tick CbDijkstra now sD = Done (st', evs) /\ solved evs) /\
    run CbAstar (take kA nowsA) (init_search t0' s stA) = Done (sA, evA) /\
    ~ solved evA /\ pops (search_nodes sA) = Some (d, e) /\
    (exists now st' evs,
       nowsA !! kA = Some now /\ tick CbAstar now sA = Done (st', evs) /\ solved evs).
Proof.
  intros Hrect Hh HgD HeD HpD HaD HgA HeA HpA HaA Hreach HlenD HlenA.
  pose proof (rect_width_nonneg _ _ _ Hrect Hh) as Hw.
  pose proof (grid_cells_size s w h Hw ltac:(lia)) as Hsize.
  assert (HR : forall c, reachable g s c -> c ∈ grid_cells s w h).
  { intros c. by apply grid_cells_reachable. }
  destruct (run_to_end CbDijkstra (dijkstra_state g s e) (pq_ready e)
              (pq_final g s e) (size (grid_cells s w h)))
    with (nows := nowsD) (st := init_search t0 s stD)
    as (kD & sD & evD & nowD & sD' & evD' & _ & HstepsD & HnowD & HtickD & _ & _ & HfinD).
  { intros n st0. by apply dijkstra_bound. }
  { intros n st0. by apply (dijkstra_step g w h). }
  { intros n st0. by apply dijkstra_last. }
  { by apply dijkstra_init. }
  { lia. }
  destruct (run_to_end CbAstar (astar_state g s e) (pq_ready e)
              (pq_final g s e) (size (grid_cells s w h)))
    with (nows := nowsA) (st := init_search t0' s stA)
    as (kA & sA & evA & nowA & sA' & evA' & _ & HstepsA & HnowA & HtickA & _ & _ & HfinA).
  { intros n st0. by apply astar_bound. }
  { intros n st0. by apply (astar_step g w h). }
  { intros n st0. by apply astar_last. }
  { by apply astar_init. }
  { lia. }
  destruct HfinD as [(_ & _ & Hun)|(HsolD & dD & HpopD & HwD & HminD)]; [done|].
  destruct HfinA as [(_ & _ & Hun)|(HsolA & dA & HpopA & HwA & HminA)]; [done|].
  assert (dA = dD) as ->.
  { specialize (HminD _ HwA). specialize (HminA _ HwD). lia. }
  exists dD, kD, kA, sD, sA, evD, evA.
  split_and!; try done.
  - by apply steps_run.
  - by apply (quiet_not_terminal CbDijkstra), (steps_quiet _ _ _ _ _ HstepsD).
  - eauto 6.
  - by apply steps_run.
  - by apply (quiet_not_terminal CbAstar), (steps_quiet _ _ _ _ _ HstepsA).
  - eauto 6.
Qed.

Lemma corridor_walk : walk corridor (1, 1) (1, 3) 2.
Proof.
  change 2 with (0 + 1 + 1).
  eapply (walk_snoc _ _ (1, 2)); [eapply (walk_snoc _ _ (1, 1)); [constructor|..]|..];
    first [reflexivity | apply neighbours_spec; simpl; lia].
Qed.

Lemma astar_pops_goal_at_dijkstra_cost_witness :
  exists d kD kA sD sA evD evA,
    (walk corridor (1, 1) (1, 3) d /\ forall m, walk corridor (1, 1) (1, 3) m -> d <= m) /\
    run CbDijkstra (take kD (replicate 27 2))
        (init_search 0 (1, 1) (app_with corridor (1, 1) (1, 3) "Dijkstra")) = Done (sD, evD) /\
    ~ solved evD /\ pops (search_nodes sD) = Some (d, (1, 3)) /\
    (exists now st' evs,
       replicate 27 2 !! kD = Some now /\
       tick CbDijkstra now sD = Done (st', evs) /\ solved evs) /\
    run CbAstar (take kA (replicate 27 2))
        (init_search 0 (1, 1) (app_with corridor (1, 1) (1, 3) "A*")) = Done (sA, evA) /\
    ~ solved evA /\ pops (search_nodes sA) = Some (d, (1, 3)) /\
    (exists now st' evs,
       replicate 27 2 !! kA = Some now /\
       tick CbAstar now sA = Done (st', evs) /\ solved evs).
Proof.
  apply (astar_pops_goal_at_dijkstra_cost corridor 5 5 (1, 1) (1, 3) 0 0
           (replicate 27 2) (replicate 27 2)
           (app_with corridor (1, 1) (1, 3) "Dijkstra")
           (app_with corridor (1, 1) (1, 3) "A*")); try reflexivity.
  - split; [reflexivity|]. repeat constructor.
  - exists 2. apply corridor_walk.
Defined.

(** ** An unsolvable search ends with an empty frontier (C7) *)

Lemma dfs_last g s e n st :
  dfs_state g s e n st -> search_nodes st = Cells [] ->
  forall now, exists st' evs,
    tick CbDfs now st = Done (st', evs) /\ pending evs = None /\
    (solving st' = false /\ exhausted evs /\ ~ solved evs).
Proof.
  intros ([Hg He Hsol Hp Hclk] & _) Hfr now.
  simpl. unfold animate_dfs. rewrite Hsol, Hp, Hfr. cbn [negb].
  eexists _, _. split; [reflexivity|]. split; [done|]. split; [done|].
  unfold exhausted, solved. split; [by left|by intros ?%list_elem_of_singleton].
Qed.

(** C7, as amended: when the goal is not reachable from the start, each of
    the four variants signals the empty frontier, and no path, within a
    number of callbacks bounded by the number of Passage cells reachable
    from the start plus one: one callback per reachable cell, and the one
    that finds the frontier empty. *)
Theorem unsolvable_search_exhausts (g : Grid) (w h : Z) (s e : coord)
    (R : gset coord) (algo : string) (t0 t1 : Z) (nows : list Z) (st : App) :
  rect g w h -> 0 < h ->
  maze st = Some g -> start_point st = Some s -> end_point st = Some e ->
  paused st = false -> algorithm_var st = algo -> algo ∈ four_algorithms ->
  (forall c, c ∈ R <-> reachable g s c) -> e ∉ R ->
  length nows = size R ->
  exists st' evs,
    solve t0 t1 nows st = Done (st', evs) /\
    exhausted evs /\ ~ solved evs /\ solving st' = false.
Proof.
  intros Hrect Hh Hg Hs He Hp Ha Halgo HR HeR Hlen.
  rewrite (solve_run t0 t1 nows st g s e Hg Hs He). rewrite Ha.
  assert (HR' : forall c, reachable g s c -> c ∈ R) by (intros c; apply HR).
  assert (Hun : ~ reachable g s e) by (intros Hr; by apply HeR, HR).
  assert (Hdone : forall cb quiet evs,
            Forall (fun ev => light_blue ev \/ exists d, ev = After d cb) quiet ->
            exhausted evs -> ~ solved evs ->
            exhausted (quiet ++ evs) /\ ~ solved (quiet ++ evs)).
  { intros cb quiet evs Hq Hex Hns. destruct (quiet_not_terminal cb quiet Hq) as [Hqs _].
    unfold exhausted, solved in *. rewrite !elem_of_app. tauto. }
  unfold four_algorithms in Halgo.
  repeat (apply elem_of_cons in Halgo as [->|Halgo]); [..|by apply elem_of_nil in Halgo].
  - change (callback_of "BFS") with CbBfs.
    destruct (run_to_end CbBfs (bfs_state g s e) (cells_ready e)
                (fun _ => bfs_final g s e) (size R))
      with (nows := t1 :: nows) (st := init_search t0 s st)
      as (k & stk & quiet & now & st' & evs & _ & Hsteps & _ & _ & Hrun & Hsol & Hfin).
    { intros n st0. by apply bfs_bound. }
    { intros n st0. by apply (bfs_step g w h). }
    { intros n st0. by apply bfs_last. }
    { by apply bfs_init. }
    { simpl. lia. }
    destruct Hfin as [(Hex & Hns & _)|(_ & d & Hw & _)]; [|destruct Hun; by exists d].
    exists st', (quiet ++ evs). split; [done|].
    destruct (Hdone CbBfs quiet evs (steps_quiet _ _ _ _ _ Hsteps) Hex Hns). done.
  - change (callback_of "DFS") with CbDfs.
    destruct (run_to_end CbDfs (dfs_state g s e) (fun st0 => search_nodes st0 = Cells [])
                (fun _ st' evs => solving st' = false /\ exhausted evs /\ ~ solved evs)
                (size R))
      with (nows := t1 :: nows) (st := init_search t0 s st)
      as (k & stk & quiet & now & st' & evs & _ & Hsteps & _ & _ & Hrun & Hsol & Hex & Hns).
    { intros n st0. by apply dfs_bound. }
    { intros n st0 Hst. by apply (dfs_step g w h). }
    { intros n st0. by apply dfs_last. }
    { by apply dfs_init. }
    { simpl. lia. }
    exists st', (quiet ++ evs). split; [done|].
    destruct (Hdone CbDfs quiet evs (steps_quiet _ _ _ _ _ Hsteps) Hex Hns). done.
  - change (callback_of "Dijkstra") with CbDijkstra.
    destruct (run_to_end CbDijkstra (dijkstra_state g s e) (pq_ready e)
                (pq_final g s e) (size R))
      with (nows := t1 :: nows) (st := init_search t0 s st)
      as (k & stk & quiet & now & st' & evs & _ & Hsteps & _ & _ & Hrun & Hsol & Hfin).
    { intros n st0. by apply dijkstra_bound. }
    { intros n st0. by apply (dijkstra_step g w h). }
    { intros n st0. by apply dijkstra_last. }
    { by apply dijkstra_init. }
    { simpl. lia. }
    destruct Hfin as [(Hex & Hns & _)|(_ & d & _ & Hw & _)]; [|destruct Hun; by exists d].
    exists st', (quiet ++ evs). split; [done|].
    destruct (Hdone CbDijkstra quiet evs (steps_quiet _ _ _ _ _ Hsteps) Hex Hns). done.
  - change (callback_of "A*") with CbAstar.
    destruct (run_to_end CbAstar (astar_state g s e) (pq_ready e)
                (pq_final g s e) (size R))
      with (nows := t1 :: nows) (st := init_search t0 s st)
      as (k & stk & quiet & now & st' & evs & _ & Hsteps & _ & _ & Hrun & Hsol & Hfin).
    { intros n st0. by apply astar_bound. }
    { intros n st0. by apply (astar_step g w h). }
    { intros n st0. by apply astar_last. }
    { by apply astar_init. }
    { simpl. lia. }
    destruct Hfin as [(Hex & Hns & _)|(_ & d & _ & Hw & _)]; [|destruct Hun; by exists d].
    exists st', (quiet ++ evs). split; [done|].
    destruct (Hdone CbAstar quiet evs (steps_quiet _ _ _ _ _ Hsteps) Hex Hns). done.
Qed.

Lemma two_rooms_reachable c :
  c ∈ ({[(1, 1)]} : gset coord) <-> reachable two_rooms (1, 1) c.
Proof.
  rewrite elem_of_singleton. split.
  - intros ->. exists 0. constructor.
  - intros [k Hw]. induction Hw as [|c c' n _ IH Hnb Hp]; [done|].
    subst c. apply neighbours_spec in Hnb. destruct c' as [x y]. simpl in Hnb.
    destruct Hnb as [[-> ->]|[[-> ->]|[[-> ->]|[-> ->]]]]; vm_compute in Hp; discriminate.
Qed.

(** C7, as stated, fails: from (1,1) only (1,1) itself is reachable, one
    cell, yet after one callback no variant has signalled the empty
    frontier; the search is still on. *)
Lemma one_cell_takes_two_callbacks :
  (forall c, c ∈ ({[(1, 1)]} : gset coord) <-> reachable two_rooms (1, 1) c) /\
  size ({[(1, 1)]} : gset coord) = 1%nat /\
  Forall (fun algo =>
    exists st' evs,
      solve 0 1 [] (app_with two_rooms (1, 1) (1, 3) algo) = Done (st', evs) /\
      ~ exhausted evs /\ solving st' = true) four_algorithms.
Proof.
  split; [apply two_rooms_reachable|]. split; [apply size_singleton|].
  unfold four_algorithms.
  repeat (apply Forall_cons; split; [|]); [..|apply Forall_nil_2];
    (eexists _, _; split; [vm_compute; reflexivity|]; split; [|reflexivity];
     unfold exhausted; intros Hin; apply list_elem_of_In in Hin; simpl in Hin;
     intuition discriminate).
Qed.

Lemma unsolvable_search_exhausts_witness :
  exists st' evs,
    solve 0 1 [2] (app_with two_rooms (1, 1) (1, 3) "A*") = Done (st', evs) /\
    exhausted evs /\ ~ solved evs /\ solving st' = false.
Proof.
  apply (unsolvable_search_exhausts two_rooms 3 5 (1, 1) (1, 3) {[(1, 1)]} "A*" 0 1 [2]
           (app_with two_rooms (1, 1) (1, 3) "A*")); try reflexivity.
  - split; [reflexivity|]. repeat constructor.
  - unfold four_algorithms. do 3 right. by left.
  - apply two_rooms_reachable.
  - intros Hin%elem_of_singleton. discriminate.
Defined.

(** * Further properties of the code *)

(** ** Maze generation: sizes that raise *)

Lemma force_odd_small n : n <= 1 -> Gen.force_odd n <= 1.
Proof.
  intros Hn. destruct (force_odd_spec n) as [Hodd ->].
  case_decide as He; [|done].
  assert (n ≠ 1) by (intros ->; done). lia.
Qed.

Lemma py_index_out {A} (l : list A) i : len l <= i -> py_index l i = Raise IndexError.
Proof.
  intros Hi. unfold py_index, py_norm. pose proof (Nat2Z.is_nonneg (length l)).
  unfold len in *. destruct (Z.ltb_spec i 0); [lia|].
  destruct (Z.leb_spec 0 i); [|lia].
  by destruct (Z.ltb_spec i (Z.of_nat (length l))); [lia|].
Qed.

Lemma py_setitem_out {A} (l : list A) i a :
  len l <= i -> py_setitem l i a = Raise IndexError.
Proof.
  intros Hi. unfold py_setitem, py_norm. pose proof (Nat2Z.is_nonneg (length l)).
  unfold len in *. destruct (Z.ltb_spec i 0); [lia|].
  destruct (Z.leb_spec 0 i); [|lia].
  by destruct (Z.ltb_spec i (Z.of_nat (length l))); [lia|].
Qed.

(** X1: whenever the requested width or height is at most 1 (zero and
    negative values included), [generate_maze] raises [IndexError] at the
    assignment [maze[1][1] = 0], before the carving loop starts. *)
Theorem generate_maze_small_raises rnd fuel width height :
  width <= 1 \/ height <= 1 ->
  Gen.generate_maze rnd fuel width height = Raise IndexError.
Proof.
  intros Hsmall. unfold Gen.generate_maze, grid_set.
  set (w := Gen.force_odd width). set (h := Gen.force_odd height).
  destruct (Z.le_gt_cases h 1) as [Hh|Hh].
  - rewrite py_index_out; [done|]. unfold len. rewrite length_replicate. lia.
  - rewrite (py_index_lookup _ 1 (replicate (Z.to_nat w) 1)); [|lia|].
    2:{ apply lookup_replicate. split; [done|lia]. }
    cbn [mbind outcome_bind].
    assert (Hw : w <= 1).
    { destruct Hsmall as [?|Hs]; [by apply force_odd_small|].
      apply force_odd_small in Hs. fold h in Hs. lia. }
    rewrite py_setitem_out; [done|]. unfold len. rewrite length_replicate. lia.
Qed.

Lemma generate_maze_small_raises_witness :
  (0 <= 1 \/ 7 <= 1) /\
  Gen.generate_maze (fun i => i) 10 0 7 = Raise IndexError.
Proof.
  split; [left; lia|]. apply generate_maze_small_raises. left. lia.
Defined.

(** ** Maze generation: the layout of the returned grid *)

Lemma py_remove_others {A} `{EqDecision A} (a : A) (l l' : list A) b :
  py_remove a l = Done l' -> b ∈ l -> b ≠ a -> b ∈ l'.
Proof.
  revert l'. induction l as [|c l IH]; intros l' Hrm Hb Hne; [done|].
  simpl in Hrm. destruct (decide (a = c)) as [->|Hac].
  - injection Hrm as <-. by apply elem_of_cons in Hb as [->|Hb].
  - apply bind_Done in Hrm as (l1 & Hl1 & [= <-]).
    apply elem_of_cons in Hb as [->|Hb]; [by left|]. right. eauto.
Qed.

Section Layout.
Variables (rnd : nat -> nat) (w h : Z).
Hypotheses (Hw : w mod 2 = 1) (Hh : h mod 2 = 1).

(** A carvable neighbour of [(x, y)]: two cells away, strictly inside the
    bounds the loop tests, and still a wall. *)
Definition carvable (maze : Grid) (x y : Z) (d : coord) : Prop :=
  0 < x + d.1 < w /\ 0 < y + d.2 < h /\ get maze (x + d.1, y + d.2) = Some 1.

Lemma probes_spec maze x y ds acc :
  rect maze w h ->
  exists acc', Gen.probes maze w h x y acc ds = Done acc' /\
    forall n, n ∈ acc' <->
      n ∈ acc \/ exists d, d ∈ ds /\ n = (x + d.1, y + d.2, d.1, d.2) /\
                           carvable maze x y d.
Proof.
  intros Hrect. revert acc. induction ds as [|[dx dy] ds IH]; intros acc.
  - exists acc. split; [done|]. intros n. split; [auto|].
    intros [?|(d & Hd & _)]; [done|]. by apply elem_of_nil in Hd.
  - cbn [Gen.probes]. unfold Gen.probe.
    destruct ((0 <? x + dx) && (x + dx <? w) && (0 <? y + dy) && (y + dy <? h)) eqn:Hb.
    + repeat (apply andb_true_iff in Hb as [Hb ?]).
      apply Z.ltb_lt in Hb.
      repeat match goal with H : (_ <? _) = true |- _ => apply Z.ltb_lt in H end.
      destruct (rect_get maze w h (x + dx) (y + dy) Hrect) as [v Hv]; [lia..|].
      rewrite (grid_get_get _ _ _ _ Hv). cbn [mbind outcome_bind].
      destruct (IH (if v =? 1 then acc ++ [(x + dx, y + dy, dx, dy)] else acc))
        as (acc' & -> & Hacc').
      exists acc'. split; [done|]. intros n. rewrite Hacc'.
      destruct (Z.eqb_spec v 1) as [->|Hv1].
      * rewrite elem_of_app, list_elem_of_singleton. split.
        -- intros [[?| ->]|(d & Hd & ?)]; [by left| |right; exists d; by split; [right|]].
           right. exists (dx, dy). split; [by left|]. split; [done|].
           unfold carvable. simpl. split_and!; (lia || done).
        -- intros [?|(d & [->|Hd]%elem_of_cons & Hn & Hc)]; [by left; left|by left; right|].
           right. exists d. by split.
      * split.
        -- intros [?|(d & Hd & ?)]; [by left|right; exists d; by split; [right|]].
        -- intros [?|(d & [->|Hd]%elem_of_cons & Hn & Hc)]; [by left| |].
           ++ destruct Hc as (_ & _ & Hc). simpl in Hc. congruence.
           ++ right. exists d. by split.
    + cbn [mbind outcome_bind]. destruct (IH acc) as (acc' & -> & Hacc').
      exists acc'. split; [done|]. intros n. rewrite Hacc'. split.
      * intros [?|(d & Hd & ?)]; [by left|right; exists d; by split; [right|]].
      * intros [?|(d & [->|Hd]%elem_of_cons & Hn & Hc)]; [by left| |].
        -- destruct Hc as (Hx & Hy & _). simpl in Hx, Hy.
           apply andb_false_iff in Hb as [Hb|Hb%Z.ltb_ge]; [|lia].
           apply andb_false_iff in Hb as [Hb|Hb%Z.ltb_ge]; [|lia].
           apply andb_false_iff in Hb as [Hb%Z.ltb_ge|Hb%Z.ltb_ge]; lia.
        -- right. exists d. by split.
Qed.

(** What one round of the loop does: it either drops a cell none of whose
    neighbours is carvable, or opens one carvable neighbour of a listed
    cell together with the cell in between and lists that neighbour. *)
Inductive round (maze : Grid) (cl : list coord) (maze' : Grid) (cl' : list coord) : Prop :=
  | round_drop x y :
      (x, y) ∈ cl -> maze' = maze ->
      (forall b, b ∈ cl' -> b ∈ cl) ->
      (forall b, b ∈ cl -> b ≠ (x, y) -> b ∈ cl') ->
      (forall d, d ∈ Gen.dirs -> ~ carvable maze x y d) ->
      round maze cl maze' cl'
  | round_open x y d :
      (x, y) ∈ cl -> d ∈ Gen.dirs -> carvable maze x y d ->
      cl' = cl ++ [(x + d.1, y + d.2)] ->
      rect maze' w h ->
      (forall c, get maze' c =
                 if decide (c = (x + d.1, y + d.2) \/ c = (x + d.1 / 2, y + d.2 / 2))
                 then Some 0 else get maze c) ->
      (get maze (x + d.1 / 2, y + d.2 / 2) = Some 1 ->
       (walls maze' + 2 = walls maze)%nat) ->
      round maze cl maze' cl'.

Lemma carve_body_round i maze cl :
  rect maze w h -> (forall c, c ∈ cl -> 0 < c.1 < w /\ 0 < c.2 < h) -> cl ≠ [] ->
  exists maze' cl' i',
    Gen.carve_body rnd i w h maze cl = Done (maze', cl', i') /\
    round maze cl maze' cl'.
Proof.
  intros Hrect Hcells Hne. unfold Gen.carve_body.
  destruct (choice_Done (rnd i) cl Hne) as ([x y] & -> & Hxy). cbn [mbind outcome_bind].
  destruct (Hcells _ Hxy) as (Hx & Hy). simpl in Hx, Hy.
  destruct (probes_spec maze x y Gen.dirs [] Hrect) as (nbs & -> & Hnbs).
  cbn [mbind outcome_bind]. destruct nbs as [|nb nbs].
  - destruct (py_remove_Done (x, y) cl Hxy) as (cl' & Hrm & Hlen & Hsub).
    rewrite Hrm. cbn [mbind outcome_bind].
    exists maze, cl', (S i). split; [done|].
    apply (round_drop _ _ _ _ x y); try done.
    + intros b Hb Hbne. by eapply py_remove_others.
    + intros d Hd Hc. specialize (Hnbs (x + d.1, y + d.2, d.1, d.2)).
      destruct Hnbs as [_ Hnbs]. eapply elem_of_nil, Hnbs. right. by exists d.
  - destruct (choice_Done (rnd (S i)) (nb :: nbs)) as ([[[nx ny] dx] dy] & -> & Hin); [done|].
    cbn [mbind outcome_bind]. apply Hnbs in Hin as [Hin|(d & Hd & Heq & Hc)];
      [by apply elem_of_nil in Hin|].
    destruct d as [dx' dy']. simpl in Heq. injection Heq as -> -> -> ->.
    pose proof Hc as (Hnx & Hny & Hwall). simpl in Hnx, Hny, Hwall.
    assert (Hmid : 0 <= x + dx' / 2 < w /\ 0 <= y + dy' / 2 < h /\
                   (x + dx' / 2, y + dy' / 2) ≠ (x + dx', y + dy')).
    { unfold Gen.dirs in Hd. apply list_elem_of_In in Hd. simpl in Hd.
      destruct Hd as [Hd|[Hd|[Hd|[Hd|[]]]]]; injection Hd as <- <-;
        change (2 / 2) with 1; change (-2 / 2) with (-1); change (0 / 2) with 0;
        (split; [lia|]); (split; [lia|]); intros [=]; lia. }
    destruct Hmid as (Hmx & Hmy & Hneq).
    destruct (rect_get maze w h _ _ Hrect Hmx Hmy) as [v Hv].
    destruct (grid_set_zero maze _ _ v Hv) as (maze1 & -> & Hget1 & Hrect1 & _ & Hw1).
    cbn [mbind outcome_bind].
    assert (Hwall1 : get maze1 (x + dx', y + dy') = Some 1).
    { rewrite Hget1. by rewrite decide_False by done. }
    destruct (grid_set_zero maze1 _ _ 1 Hwall1) as (maze2 & -> & Hget2 & Hrect2 & _ & Hw2).
    cbn [mbind outcome_bind]. specialize (Hw2 ltac:(done)).
    exists maze2, (cl ++ [(x + dx', y + dy')]), (S (S i)). split; [done|].
    apply (round_open _ _ _ _ x y (dx', dy')); try done; [by auto| |].
    + intros c. rewrite Hget2, Hget1. simpl. repeat case_decide; naive_solver.
    + simpl. intros Hm. rewrite Hv in Hm. injection Hm as ->.
      specialize (Hw1 ltac:(done)). lia.
Qed.

(** The layout that the loop maintains, for odd [w] and [h]. *)
Record layout_inv (maze : Grid) (cl : list coord) : Prop := {
  li_rect : rect maze w h;
  li_bits : forall c v, get maze c = Some v -> v = 0 \/ v = 1;
  li_cells : forall c, c ∈ cl ->
    0 < c.1 < w /\ 0 < c.2 < h /\ c.1 mod 2 = 1 /\ c.2 mod 2 = 1;
  li_pass : forall c, passage maze c ->
    0 < c.1 < w - 1 /\ 0 < c.2 < h - 1 /\ (c.1 mod 2 = 1 \/ c.2 mod 2 = 1);
  li_origin : passage maze (1, 1);
  li_closed : forall c, passage maze c -> c.1 mod 2 = 1 -> c.2 mod 2 = 1 ->
    c ∈ cl \/
    forall d, d ∈ Gen.dirs -> 0 < c.1 + d.1 < w -> 0 < c.2 + d.2 < h ->
              passage maze (c.1 + d.1, c.2 + d.2);
}.

Lemma round_layout maze cl maze' cl' :
  layout_inv maze cl -> round maze cl maze' cl' -> layout_inv maze' cl'.
Proof.
  intros [Hrect Hbits Hcells Hpass Horig Hclosed] [x y Hxy -> Hsub Hkeep Hnone
                                                  |x y [dx dy] Hxy Hd Hc -> Hrect' Hget _].
  - split; try done.
    + intros c Hc. auto.
    + intros c Hc Hc1 Hc2. destruct (decide (c = (x, y))) as [->|Hne].
      * right. intros d Hd Hdx Hdy. simpl in *.
        destruct (rect_get maze w h (x + d.1) (y + d.2) Hrect) as [v Hv]; [lia..|].
        destruct (Hbits _ _ Hv) as [->| ->]; [done|].
        exfalso. apply (Hnone d Hd). unfold carvable. split_and!; (lia || done).
      * destruct (Hclosed c Hc Hc1 Hc2) as [Hin|Hcl]; [left; auto|by right].
  - destruct Hc as (Hnx & Hny & Hwall). simpl in Hnx, Hny, Hwall, Hget.
    destruct (Hcells _ Hxy) as (Hx & Hy & Hxo & Hyo). simpl in Hx, Hy, Hxo, Hyo.
    assert (Hgeom : (x + dx) mod 2 = 1 /\ (y + dy) mod 2 = 1 /\
                    0 < x + dx / 2 < w - 1 /\ 0 < y + dy / 2 < h - 1 /\
                    x + dx < w - 1 /\ y + dy < h - 1 /\
                    ((x + dx / 2) mod 2 = 1 \/ (y + dy / 2) mod 2 = 1) /\
                    ((x + dx / 2) mod 2 = 0 \/ (y + dy / 2) mod 2 = 0)).
    { unfold Gen.dirs in Hd. apply list_elem_of_In in Hd. simpl in Hd.
      destruct Hd as [Hd|[Hd|[Hd|[Hd|[]]]]]; injection Hd as <- <-;
        change (2 / 2) with 1; change (-2 / 2) with (-1); change (0 / 2) with 0;
        clear -Hw Hh Hnx Hny Hx Hy Hxo Hyo;
        split_and!; Z.div_mod_to_equations; lia. }
    destruct Hgeom as (Hnxo & Hnyo & Hmx & Hmy & Hnx' & Hny' & Hmo & Hme).
    assert (Hmono : forall c, passage maze c -> passage maze' c).
    { intros c Hc. unfold passage. rewrite Hget. by case_decide. }
    split; try done.
    + intros c v. rewrite Hget. case_decide; [intros [= <-]; by left|apply Hbits].
    + intros c [Hc|Hc%list_elem_of_singleton]%elem_of_app; [auto|subst c].
      simpl. split_and!; (done || lia).
    + intros c Hc. unfold passage in Hc. rewrite Hget in Hc.
      case_decide as Hcase; [|by apply Hpass].
      destruct Hcase as [->| ->]; simpl; split_and!; (lia || auto).
    + by apply Hmono.
    + intros c Hc Hc1 Hc2. unfold passage in Hc. rewrite Hget in Hc.
      case_decide as Hcase.
      * destruct Hcase as [->| ->]; [left; apply elem_of_app; right; by left|].
        simpl in Hc1, Hc2. lia.
      * destruct (Hclosed c Hc Hc1 Hc2) as [Hin|Hcl].
        -- left. apply elem_of_app. by left.
        -- right. intros d Hdd Hdx Hdy. apply Hmono. by apply Hcl.
Qed.

Lemma carve_layout fuel : forall i maze cl maze',
  layout_inv maze cl ->
  Gen.carve rnd fuel i w h maze cl = Done maze' ->
  layout_inv maze' [].
Proof.
  induction fuel as [|fuel IH]; intros i maze cl maze' Hinv Hrun.
  - destruct cl; [|done]. by simplify_eq/=.
  - destruct cl as [|c0 cl]; [by simplify_eq/=|].
    cbn [Gen.carve] in Hrun.
    destruct (carve_body_round i maze (c0 :: cl)) as (m1 & cl1 & i1 & Hb & Hround).
    + by destruct Hinv.
    + intros c Hc. destruct (li_cells _ _ Hinv c Hc) as (? & ? & _). done.
    + done.
    + rewrite Hb in Hrun. simpl in Hrun. eapply IH; [|done].
      by eapply round_layout.
Qed.

End Layout.

(** With the list empty every odd cell inside the bounds is open. *)
Lemma layout_all_odd w h maze :
  layout_inv w h maze [] ->
  forall k l : nat,
    2 * Z.of_nat k + 1 < w -> 2 * Z.of_nat l + 1 < h ->
    passage maze (2 * Z.of_nat k + 1, 2 * Z.of_nat l + 1).
Proof.
  intros Hinv.
  assert (Hstep : forall c d, passage maze c -> c.1 mod 2 = 1 -> c.2 mod 2 = 1 ->
            d ∈ Gen.dirs -> 0 < c.1 + d.1 < w -> 0 < c.2 + d.2 < h ->
            passage maze (c.1 + d.1, c.2 + d.2)).
  { intros c d Hc Hc1 Hc2 Hd Hx Hy.
    destruct (li_closed _ _ _ _ Hinv c Hc Hc1 Hc2) as [Hin|Hcl]; [by apply elem_of_nil in Hin|].
    by apply Hcl. }
  assert (Hodd : forall n : nat, (2 * Z.of_nat n + 1) mod 2 = 1).
  { intros n. Z.div_mod_to_equations. lia. }
  induction k as [|k IHk].
  - induction l as [|l IHl]; intros Hk Hl.
    + apply (li_origin _ _ _ _ Hinv).
    + specialize (Hstep (1, 2 * Z.of_nat l + 1) (0, 2)). simpl in Hstep.
      replace (2 * Z.of_nat (S l) + 1) with (2 * Z.of_nat l + 1 + 2) by lia.
      apply Hstep; [apply IHl; lia|done|apply Hodd| |lia|lia].
      unfold Gen.dirs. set_solver.
  - intros l Hk Hl.
    specialize (Hstep (2 * Z.of_nat k + 1, 2 * Z.of_nat l + 1) (2, 0)). simpl in Hstep.
    replace (2 * Z.of_nat (S k) + 1) with (2 * Z.of_nat k + 1 + 2) by lia.
    rewrite <- (Z.add_0_r (2 * Z.of_nat l + 1)).
    apply Hstep; [apply IHk; lia|apply Hodd|apply Hodd| |lia|lia].
    unfold Gen.dirs. set_solver.
Qed.


(** The grid and the cell list that enter the loop, for odd sizes. *)
Lemma layout_start w h maze1 :
  w mod 2 = 1 -> h mod 2 = 1 ->
  grid_set (replicate (Z.to_nat h) (replicate (Z.to_nat w) 1)) 1 1 0 = Done maze1 ->
  layout_inv w h maze1 [(1, 1)] /\
  (forall c, passage maze1 c -> c = (1, 1)) /\
  S (walls maze1) = walls (replicate (Z.to_nat h) (replicate (Z.to_nat w) 1)).
Proof.
  intros Hwo Hho Hset. set (maze0 := replicate _ _) in *.
  destruct (grid_set_Done maze0 1 1 0 maze1 ltac:(lia) ltac:(lia) Hset) as [old Hold].
  assert (old = 1) as -> by (by eapply replicate_get).
  assert (Hdim : 2 < w /\ 2 < h).
  { apply get_Some in Hold as (_ & _ & row & Hrow & Hv).
    apply lookup_replicate in Hrow as [-> Hh].
    apply lookup_replicate in Hv as [_ Hw].
    assert (w ≠ 2) by (intros ->; done). assert (h ≠ 2) by (intros ->; done). lia. }
  destruct (grid_set_zero maze0 1 1 1 Hold) as (m & Hm & Hget & Hrect & _ & Hwalls).
  rewrite Hset in Hm. injection Hm as <-.
  assert (Hp : forall c, passage maze1 c -> c = (1, 1)).
  { intros c Hc. unfold passage in Hc. rewrite Hget in Hc.
    case_decide as Hc1; [done|]. by apply replicate_get in Hc. }
  split; [|split; [done|by apply Hwalls]]. split.
  - apply Hrect, replicate_rect; lia.
  - intros c v. rewrite Hget. case_decide; [intros [= <-]; by left|].
    intros ->%replicate_get. by right.
  - intros c ->%list_elem_of_singleton. simpl. split_and!; (lia || done).
  - intros c ->%Hp. simpl. split_and!; (lia || auto).
  - unfold passage. rewrite Hget. by rewrite decide_True.
  - intros c ->%Hp _ _. left. by left.
Qed.

Lemma generate_maze_layout rnd fuel width height maze :
  Gen.generate_maze rnd fuel width height = Done maze ->
  layout_inv (Gen.force_odd width) (Gen.force_odd height) maze [].
Proof.
  unfold Gen.generate_maze. intros (maze1 & Hset & Hrun)%bind_Done.
  destruct (force_odd_spec width) as [Hwo _]. destruct (force_odd_spec height) as [Hho _].
  destruct (layout_start _ _ _ Hwo Hho Hset) as (Hlay & _).
  by eapply (carve_layout rnd _ _ Hwo Hho).
Qed.

(** X2: in a grid returned by [generate_maze] every cell holds 0 or 1, and
    a Passage cell lies strictly inside the outermost rows and columns and
    has an odd coordinate: the border and the cells with two even
    coordinates stay walls. *)
Theorem generate_maze_keeps_border rnd fuel width height maze :
  Gen.generate_maze rnd fuel width height = Done maze ->
  (forall c v, get maze c = Some v -> v = 0 \/ v = 1) /\
  forall x y, passage maze (x, y) ->
    0 < x < Gen.force_odd width - 1 /\ 0 < y < Gen.force_odd height - 1 /\
    (x mod 2 = 1 \/ y mod 2 = 1).
Proof.
  intros Hinv%generate_maze_layout. split.
  - apply (li_bits _ _ _ _ Hinv).
  - intros x y Hp. apply (li_pass _ _ _ _ Hinv (x, y) Hp).
Qed.

Lemma generate_maze_keeps_border_witness :
  exists maze,
    Gen.generate_maze (fun i => i) 100 4 5 = Done maze /\
    (forall c v, get maze c = Some v -> v = 0 \/ v = 1) /\
    forall x y, passage maze (x, y) ->
      0 < x < Gen.force_odd 4 - 1 /\ 0 < y < Gen.force_odd 5 - 1 /\
      (x mod 2 = 1 \/ y mod 2 = 1).
Proof.
  eexists. split; [vm_compute; reflexivity|].
  apply (generate_maze_keeps_border (fun i => i) 100 4 5). vm_compute. reflexivity.
Defined.

(** X3: in a grid returned by [generate_maze] every cell with two odd
    coordinates inside the grid is a Passage cell: the carving loop ends
    only when it has reached all of them. *)
Theorem generate_maze_opens_odd_cells rnd fuel width height maze x y :
  Gen.generate_maze rnd fuel width height = Done maze ->
  0 < x < Gen.force_odd width -> 0 < y < Gen.force_odd height ->
  x mod 2 = 1 -> y mod 2 = 1 ->
  passage maze (x, y).
Proof.
  intros Hinv%generate_maze_layout Hx Hy Hxo Hyo.
  pose proof (layout_all_odd _ _ _ Hinv (Z.to_nat (x / 2)) (Z.to_nat (y / 2))) as Hall.
  assert (Hxe : 2 * Z.of_nat (Z.to_nat (x / 2)) + 1 = x)
    by (rewrite Z2Nat.id; Z.div_mod_to_equations; lia).
  assert (Hye : 2 * Z.of_nat (Z.to_nat (y / 2)) + 1 = y)
    by (rewrite Z2Nat.id; Z.div_mod_to_equations; lia).
  rewrite Hxe, Hye in Hall. apply Hall; lia.
Qed.

Lemma generate_maze_opens_odd_cells_witness :
  exists maze,
    Gen.generate_maze (fun i => i) 100 4 5 = Done maze /\
    0 < 3 < Gen.force_odd 4 /\ 0 < 1 < Gen.force_odd 5 /\
    3 mod 2 = 1 /\ 1 mod 2 = 1 /\ passage maze (3, 1).
Proof.
  eexists. split; [vm_compute; reflexivity|].
  split; [vm_compute; split; reflexivity|]. split; [vm_compute; split; reflexivity|].
  split; [reflexivity|]. split; [reflexivity|].
  apply (generate_maze_opens_odd_cells (fun i => i) 100 4 5);
    [vm_compute; reflexivity|vm_compute; split; reflexivity..|reflexivity|reflexivity].
Defined.

(** ** Maze generation: the number of Passage cells *)

(** The number of cells of a grid that hold 0. *)
Definition open_count (maze : Grid) : nat :=
  sum_list (map (fun row => length (filter (fun v => v = 0) row)) maze).

Lemma open_count_walls maze w h :
  rect maze w h -> 0 <= w -> (open_count maze + walls maze = Z.to_nat (w * h))%nat.
Proof.
  intros [Hlen Hrows] Hw. unfold len in Hlen. subst h.
  rewrite Z2Nat.inj_mul, Nat2Z.id by lia.
  unfold open_count, walls. induction Hrows as [|row maze Hrow _ IH]; [simpl; lia|].
  cbn [map sum_list_with sum_list length].
  assert (Hr : (length (filter (fun v : Z => v = 0%Z) row) + row_walls row = Z.to_nat w)%nat).
  { unfold row_walls. rewrite <- length_app.
    rewrite (Permutation_length (filter_app_complement (fun v : Z => v = 0) row)).
    unfold len in Hrow. lia. }
  simpl in IH. unfold id in *. rewrite Nat.mul_succ_r.
  set (P := (Z.to_nat w * length maze)%nat) in *. lia.
Qed.

Lemma walls_replicate (w h : Z) :
  walls (replicate (Z.to_nat h) (replicate (Z.to_nat w) 1)) = (Z.to_nat h * Z.to_nat w)%nat.
Proof.
  assert (Hr : forall n, row_walls (replicate n 1) = n).
  { unfold row_walls. induction n as [|n IH]; [done|]. cbn [replicate].
    rewrite filter_cons. rewrite decide_True by done. simpl. by rewrite IH. }
  unfold walls. induction (Z.to_nat h) as [|n IH]; [done|].
  simpl. unfold id in *. simpl in IH. by rewrite IH, Hr.
Qed.

Lemma NoDup_list_prod {A B} (l : list A) (l' : list B) :
  NoDup l -> NoDup l' -> NoDup (list_prod l l').
Proof.
  intros Hl Hl'. induction Hl as [|a l Ha _ IH]; [constructor|].
  simpl. apply NoDup_app. split_and!.
  - by apply (NoDup_fmap_2 (pair a)).
  - intros [a' b] Hin%list_elem_of_fmap Hin'%list_elem_of_In%in_prod_iff.
    destruct Hin as (b' & [= -> ->] & _). destruct Hin' as [Hin' _].
    by apply list_elem_of_In in Hin'.
  - done.
Qed.

(** The cells with two odd coordinates inside a [w] by [h] grid. *)
Definition odd_cells (w h : Z) : list coord :=
  (fun p : Z * Z => (2 * p.1 + 1, 2 * p.2 + 1)) <$>
    list_prod (seqZ 0 ((w - 1) / 2)) (seqZ 0 ((h - 1) / 2)).

Lemma odd_cells_NoDup w h : NoDup (odd_cells w h).
Proof.
  apply NoDup_fmap_2.
  - intros [a b] [a' b'] [=]. f_equal; lia.
  - apply NoDup_list_prod; apply NoDup_seqZ.
Qed.

Lemma odd_cells_spec w h c :
  w mod 2 = 1 -> h mod 2 = 1 ->
  c ∈ odd_cells w h <->
  0 < c.1 < w /\ 0 < c.2 < h /\ c.1 mod 2 = 1 /\ c.2 mod 2 = 1.
Proof.
  intros Hw Hh. unfold odd_cells. rewrite list_elem_of_fmap. split.
  - intros ([a b] & -> & Hin%list_elem_of_In%in_prod_iff).
    destruct Hin as [Ha%list_elem_of_In%elem_of_seqZ Hb%list_elem_of_In%elem_of_seqZ].
    simpl. split_and!; Z.div_mod_to_equations; lia.
  - destruct c as [x y]. simpl. intros (Hx & Hy & Hxo & Hyo).
    exists (x / 2, y / 2). split.
    + simpl. f_equal; Z.div_mod_to_equations; lia.
    + apply list_elem_of_In, in_prod_iff.
      split; apply list_elem_of_In, elem_of_seqZ; Z.div_mod_to_equations; lia.
Qed.

Lemma odd_cells_length w h :
  length (odd_cells w h) = (Z.to_nat ((w - 1) / 2) * Z.to_nat ((h - 1) / 2))%nat.
Proof. unfold odd_cells. by rewrite length_fmap, length_prod, !length_seqZ. Qed.

Section Count.
Variables (w h : Z).
Hypotheses (Hw : w mod 2 = 1) (Hh : h mod 2 = 1).

(** The layout, with the list [opened] of the odd cells that are open:
    a Passage cell with an even coordinate lies between two open odd
    cells, and every opened cell after the first took two walls away. *)
Record count_inv (maze : Grid) (cl opened : list coord) : Prop := {
  cn_layout : layout_inv w h maze cl;
  cn_cells : forall c, c ∈ cl -> passage maze c;
  cn_nodup : NoDup opened;
  cn_opened : forall c, c ∈ opened <->
                        passage maze c /\ c.1 mod 2 = 1 /\ c.2 mod 2 = 1;
  cn_mid : forall c, passage maze c ->
    (c.1 mod 2 = 0 -> passage maze (c.1 - 1, c.2) /\ passage maze (c.1 + 1, c.2)) /\
    (c.2 mod 2 = 0 -> passage maze (c.1, c.2 - 1) /\ passage maze (c.1, c.2 + 1));
  cn_walls : (walls maze + 2 * length opened = Z.to_nat (w * h) + 1)%nat;
}.

Lemma round_count maze cl opened maze' cl' :
  count_inv maze cl opened -> round w h maze cl maze' cl' ->
  exists opened', count_inv maze' cl' opened'.
Proof.
  intros [Hlay Hcl Hnd Hop Hmid Hwalls] Hround.
  pose proof (round_layout w h Hw Hh _ _ _ _ Hlay Hround) as Hlay'.
  destruct Hround as [x y Hxy -> Hsub Hkeep Hnone
                     |x y [dx dy] Hxy Hd Hc -> Hrect' Hget Hwl].
  - exists opened. split; try done. intros c Hc. auto.
  - destruct Hc as (Hnx & Hny & Hwall). simpl in Hnx, Hny, Hwall, Hget, Hwl.
    destruct (li_cells _ _ _ _ Hlay _ Hxy) as (Hx & Hy & Hxo & Hyo).
    simpl in Hx, Hy, Hxo, Hyo.
    pose proof (Hcl _ Hxy) as Hpxy.
    set (n := (x + dx, y + dy)) in *. set (m := (x + dx / 2, y + dy / 2)) in *.
    assert (Hgeom : 0 <= m.1 < w /\ 0 <= m.2 < h /\
              n.1 mod 2 = 1 /\ n.2 mod 2 = 1 /\
              ((m.1 mod 2 = 0 /\ m.2 mod 2 = 1 /\
                (((m.1 - 1, m.2) = (x, y) /\ (m.1 + 1, m.2) = n) \/
                 ((m.1 - 1, m.2) = n /\ (m.1 + 1, m.2) = (x, y)))) \/
               (m.2 mod 2 = 0 /\ m.1 mod 2 = 1 /\
                (((m.1, m.2 - 1) = (x, y) /\ (m.1, m.2 + 1) = n) \/
                 ((m.1, m.2 - 1) = n /\ (m.1, m.2 + 1) = (x, y)))))).
    { unfold Gen.dirs in Hd. apply list_elem_of_In in Hd. simpl in Hd. unfold n, m. simpl.
      destruct Hd as [Hd|[Hd|[Hd|[Hd|[]]]]]; injection Hd as <- <-;
        change (2 / 2) with 1; change (-2 / 2) with (-1); change (0 / 2) with 0;
        rewrite ?Z.add_0_r;
        (split; [lia|]); (split; [lia|]);
        (split; [clear -Hxo; Z.div_mod_to_equations; lia|]);
        (split; [clear -Hyo; Z.div_mod_to_equations; lia|]).
      - left. split; [clear -Hxo; Z.div_mod_to_equations; lia|]. split; [done|].
        left. split; f_equal; lia.
      - left. split; [clear -Hxo; Z.div_mod_to_equations; lia|]. split; [done|].
        right. split; f_equal; lia.
      - right. split; [clear -Hyo; Z.div_mod_to_equations; lia|]. split; [done|].
        left. split; f_equal; lia.
      - right. split; [clear -Hyo; Z.div_mod_to_equations; lia|]. split; [done|].
        right. split; f_equal; lia. }
    destruct Hgeom as (Hmx & Hmy & Hnxo & Hnyo & Haxis).
    assert (Hmono : forall c, passage maze c -> passage maze' c).
    { intros c Hc. unfold passage. rewrite Hget. by case_decide. }
    assert (Hpn : passage maze' n).
    { unfold passage. rewrite Hget. rewrite decide_True; [done|by left]. }
    assert (Hpm : passage maze' m).
    { unfold passage. rewrite Hget. rewrite decide_True; [done|by right]. }
    assert (Hnn : ~ passage maze n) by (unfold passage; congruence).
    assert (Hmwall : get maze m = Some 1).
    { destruct (rect_get maze w h m.1 m.2 (li_rect _ _ _ _ Hlay) Hmx Hmy) as [v Hv].
      change (m.1, m.2) with m in Hv.
      destruct (li_bits _ _ _ _ Hlay _ _ Hv) as [->| ->]; [|done].
      exfalso. destruct (Hmid m Hv) as [H1 H2].
      destruct Haxis as [(He & _ & [[_ <-]|[<- _]])|(He & _ & [[_ <-]|[<- _]])];
        [destruct (H1 He)..|destruct (H2 He)|destruct (H2 He)]; done. }
    specialize (Hwl Hmwall).
    exists (opened ++ [n]). split.
    + done.
    + intros c [Hc|Hc%list_elem_of_singleton]%elem_of_app; [auto|by subst c].
    + apply NoDup_app. split_and!; [done| |apply NoDup_singleton].
      intros c Hc ->%list_elem_of_singleton. by apply Hop in Hc as [? _].
    + intros c. rewrite elem_of_app, list_elem_of_singleton, Hop. split.
      * intros [(Hc & ? & ?)| ->]; [by auto|done].
      * intros (Hc & Hc1 & Hc2). unfold passage in Hc. rewrite Hget in Hc.
        case_decide as Hcase; [|by left].
        destruct Hcase as [->| ->]; [by right|].
        exfalso. destruct Haxis as [(He & _)|(He & _)]; lia.
    + intros c Hc. unfold passage in Hc. rewrite Hget in Hc.
      case_decide as Hcase.
      * destruct Hcase as [->| ->].
        -- split; intros He; lia.
        -- destruct Haxis as [(He & Ho & [[-> ->]|[-> ->]])|(He & Ho & [[-> ->]|[-> ->]])];
             (split; intros He'; [try lia|try lia]); auto.
      * destruct (Hmid c Hc) as [H1 H2]. split; intros He.
        -- destruct (H1 He). auto.
        -- destruct (H2 He). auto.
    + rewrite length_app. simpl. lia.
Qed.

Lemma carve_count rnd fuel : forall i maze cl opened maze',
  count_inv maze cl opened ->
  Gen.carve rnd fuel i w h maze cl = Done maze' ->
  exists opened', count_inv maze' [] opened'.
Proof.
  induction fuel as [|fuel IH]; intros i maze cl opened maze' Hinv Hrun.
  - destruct cl; [|done]. simplify_eq/=. eauto.
  - destruct cl as [|c0 cl]; [simplify_eq/=; eauto|].
    cbn [Gen.carve] in Hrun.
    destruct (carve_body_round rnd w h i maze (c0 :: cl)) as (m1 & cl1 & i1 & Hb & Hround).
    + apply (li_rect _ _ _ _ (cn_layout _ _ _ Hinv)).
    + intros c Hc. destruct (li_cells _ _ _ _ (cn_layout _ _ _ Hinv) c Hc) as (? & ? & _). done.
    + done.
    + rewrite Hb in Hrun. simpl in Hrun.
      destruct (round_count _ _ _ _ _ Hinv Hround) as [opened1 Hinv1]. eauto.
Qed.

(** With the list empty the opened cells are all the odd cells. *)
Lemma count_final maze opened :
  count_inv maze [] opened ->
  Z.of_nat (open_count maze) = 2 * (((w - 1) / 2) * ((h - 1) / 2)) - 1.
Proof.
  intros [Hlay Hcl Hnd Hop Hmid Hwalls].
  assert (Hperm : opened ≡ₚ odd_cells w h).
  { apply NoDup_Permutation; [done|apply odd_cells_NoDup|].
    intros c. rewrite Hop, (odd_cells_spec w h c Hw Hh). split.
    - intros (Hc & H1 & H2). destruct (li_pass _ _ _ _ Hlay c Hc) as (? & ? & _).
      split_and!; (lia || done).
    - intros (Hx & Hy & H1 & H2). split; [|done]. destruct c as [x y]. simpl in *.
      pose proof (layout_all_odd w h maze Hlay (Z.to_nat (x / 2)) (Z.to_nat (y / 2))) as Hall.
      assert (Hxe : 2 * Z.of_nat (Z.to_nat (x / 2)) + 1 = x)
        by (rewrite Z2Nat.id; Z.div_mod_to_equations; lia).
      assert (Hye : 2 * Z.of_nat (Z.to_nat (y / 2)) + 1 = y)
        by (rewrite Z2Nat.id; Z.div_mod_to_equations; lia).
      rewrite Hxe, Hye in Hall. apply Hall; lia. }
  apply Permutation_length in Hperm. rewrite odd_cells_length in Hperm.
  destruct (li_pass _ _ _ _ Hlay _ (li_origin _ _ _ _ Hlay)) as (Hw3 & Hh3 & _).
  simpl in Hw3, Hh3.
  pose proof (open_count_walls maze w h (li_rect _ _ _ _ Hlay) ltac:(lia)) as Hsum.
  rewrite Hperm in Hwalls.
  assert (Hn : Z.of_nat (Z.to_nat ((w - 1) / 2) * Z.to_nat ((h - 1) / 2)) =
               ((w - 1) / 2) * ((h - 1) / 2)).
  { rewrite Nat2Z.inj_mul, !Z2Nat.id; [done|Z.div_mod_to_equations; lia..]. }
  assert (Hwh : Z.of_nat (Z.to_nat (w * h)) = w * h) by (apply Z2Nat.id; nia).
  lia.
Qed.

End Count.

(** X4: a grid returned by [generate_maze] has exactly [2 * n - 1]
    Passage cells, where [n] is the number of cells with two odd
    coordinates inside the grid: each of these cells but the first was
    opened together with exactly one cell between it and an open
    neighbour, and nothing else is ever opened. *)
Theorem generate_maze_is_perfect rnd fuel width height maze :
  Gen.generate_maze rnd fuel width height = Done maze ->
  Z.of_nat (open_count maze) =
    2 * (((Gen.force_odd width - 1) / 2) * ((Gen.force_odd height - 1) / 2)) - 1.
Proof.
  unfold Gen.generate_maze. intros (maze1 & Hset & Hrun)%bind_Done.
  destruct (force_odd_spec width) as [Hwo _]. destruct (force_odd_spec height) as [Hho _].
  revert Hset Hrun Hwo Hho.
  generalize (Gen.force_odd width) (Gen.force_odd height). intros w h Hset Hrun Hwo Hho.
  destruct (layout_start _ _ _ Hwo Hho Hset) as (Hlay & Hone & Hwalls).
  rewrite walls_replicate in Hwalls.
  destruct (li_pass _ _ _ _ Hlay _ (li_origin _ _ _ _ Hlay)) as (Hw3 & Hh3 & _).
  simpl in Hw3, Hh3.
  assert (Hstart : count_inv w h maze1 [(1, 1)] [(1, 1)]).
  { split.
    - done.
    - intros c ->%list_elem_of_singleton. apply (li_origin _ _ _ _ Hlay).
    - apply NoDup_singleton.
    - intros c. rewrite list_elem_of_singleton. split.
      + intros ->. split; [apply (li_origin _ _ _ _ Hlay)|done].
      + intros [Hc _]. by apply Hone.
    - intros c ->%Hone. simpl. split; intros; done.
    - simpl. rewrite Z2Nat.inj_mul by lia. lia. }
  destruct (carve_count w h Hwo Hho rnd fuel _ _ _ _ _ Hstart Hrun) as [opened Hfin].
  by eapply count_final.
Qed.

Lemma generate_maze_is_perfect_witness :
  exists maze,
    Gen.generate_maze (fun i => (3 * i + 1)%nat) 200 7 4 = Done maze /\
    Z.of_nat (open_count maze) =
      2 * (((Gen.force_odd 7 - 1) / 2) * ((Gen.force_odd 4 - 1) / 2)) - 1.
Proof.
  eexists. split; [vm_compute; reflexivity|].
  apply (generate_maze_is_perfect (fun i => (3 * i + 1)%nat) 200 7 4).
  vm_compute. reflexivity.
Defined.

(** ** The handlers of the buttons and of the canvas *)

Lemma draw_maze_rect g w h : rect g w h -> 0 < h -> draw_maze g = Done [DrawMaze].
Proof.
  intros [Hlen Hrows] Hh. unfold draw_maze.
  destruct g as [|row0 g]; [unfold len in Hlen; simpl in Hlen; lia|].
  rewrite (py_index_lookup _ 0 row0) by (done || lia). cbn [mbind outcome_bind].
  assert (Hall : forallb (fun row => len row0 <=? len row) (row0 :: g) = true).
  { apply forallb_forall. intros row Hrow%list_elem_of_In.
    apply Z.leb_le. rewrite Forall_forall in Hrows.
    rewrite (Hrows row Hrow), (Hrows row0); [done|by left]. }
  by rewrite Hall.
Qed.

(** X5: for a width and a height of at least 2 "Generate Maze" returns and
    redraws; afterwards no point is selected, a callback that is still
    scheduled does nothing when it fires, "Solve" only asks for the two
    points and "Restart" does nothing.  The pause flag and a pending
    selection mode survive. *)
Theorem on_generate_maze_resets rnd fuel width height st :
  2 <= width -> 2 <= height -> (gen_fuel width height <= fuel)%nat ->
  exists g st',
    on_generate_maze rnd fuel width height st = Done (st', [DrawMaze]) /\
    Gen.generate_maze rnd fuel width height = Done g /\
    maze st' = Some g /\ start_point st' = None /\ end_point st' = None /\
    paused st' = paused st /\ selection_mode st' = selection_mode st /\
    (forall cb now, tick cb now st' = Done (st', [])) /\
    (forall t0 t1, on_solve_maze t0 t1 st' =
       Done (st', [ShowError "Error" "Please select both start and end points!"])) /\
    (forall t0 t1, on_restart_search t0 t1 st' = Done (st', [])).
Proof.
  intros Hw Hh Hfuel.
  destruct (generate_maze_returns rnd fuel width height Hw Hh Hfuel) as (g & Hg & Hrect).
  assert (Hpos : 0 < Gen.force_odd height).
  { destruct (force_odd_spec height) as [_ ->]. case_decide; lia. }
  unfold on_generate_maze. rewrite Hg. cbn [mbind outcome_bind].
  rewrite (draw_maze_rect _ _ _ Hrect Hpos). cbn [mbind outcome_bind].
  eexists g, _. split; [done|]. split_and!; try done.
  intros cb now. by apply tick_idle.
Qed.

Lemma on_generate_maze_resets_witness :
  exists g st',
    on_generate_maze (fun i => i) (gen_fuel 5 5) 5 5 (app_with corridor (1, 1) (1, 3) "DFS")
      = Done (st', [DrawMaze]) /\
    Gen.generate_maze (fun i => i) (gen_fuel 5 5) 5 5 = Done g /\
    maze st' = Some g /\ start_point st' = None /\ end_point st' = None /\
    paused st' = false /\ selection_mode st' = None /\
    (forall cb now, tick cb now st' = Done (st', [])) /\
    (forall t0 t1, on_solve_maze t0 t1 st' =
       Done (st', [ShowError "Error" "Please select both start and end points!"])) /\
    (forall t0 t1, on_restart_search t0 t1 st' = Done (st', [])).
Proof.
  apply (on_generate_maze_resets (fun i => i) (gen_fuel 5 5) 5 5
           (app_with corridor (1, 1) (1, 3) "DFS")); [lia|lia|].
  apply Nat.le_refl.
Defined.

(** X6: after "New Maze" a callback that is still scheduled does nothing,
    "Solve" reports that there is no maze, "Restart" and a click on the
    canvas do nothing; the containers of the last search are left as they
    were. *)
Theorem on_new_maze_stops_everything st :
  exists st',
  on_new_maze st = (st', [CanvasCleared; TimeLabelReset]) /\
  (forall cb now, tick cb now st' = Done (st', [])) /\
  (forall t0 t1, on_solve_maze t0 t1 st' =
     Done (st', [ShowError "Error" "Generate a maze first!"])) /\
  (forall t0 t1, on_restart_search t0 t1 st' = Done (st', [])) /\
  (forall x y, on_canvas_click x y st' = Done (st', [])) /\
  search_nodes st' = search_nodes st /\ parents st' = parents st /\
  distances st' = distances st.
Proof.
  eexists. split; [done|]. split_and!; try done. intros cb now. by apply tick_idle.
Qed.

(** X7: on a rectangular grid "Restart Search" is a redraw followed by
    exactly what "Solve" does when both points are selected, and does
    nothing at all (no error box) when one of them is missing. *)
Theorem restart_is_redraw_then_solve t0 t1 st g w h :
  maze st = Some g -> rect g w h -> 0 < h ->
  on_restart_search t0 t1 st =
    if decide (is_Some (start_point st) /\ is_Some (end_point st)) then
      '(st', evs) ← on_solve_maze t0 t1 st; Done (st', DrawMaze :: evs)
    else Done (st, []).
Proof.
  intros Hg Hrect Hh. unfold on_restart_search, on_solve_maze. rewrite Hg.
  destruct (start_point st) as [s|], (end_point st) as [e|];
    try (rewrite decide_False; [done|]; intros [[? [=]] [? [=]]]).
  rewrite decide_True by (split; eauto).
  rewrite (draw_maze_rect _ _ _ Hrect Hh). cbn [mbind outcome_bind].
  by destruct (tick _ _ _) as [[st' evs]| |].
Qed.

Lemma restart_is_redraw_then_solve_witness :
  on_restart_search 0 1 (app_with corridor (1, 1) (1, 3) "A*") =
    if decide (is_Some (start_point (app_with corridor (1, 1) (1, 3) "A*")) /\
               is_Some (end_point (app_with corridor (1, 1) (1, 3) "A*"))) then
      '(st', evs) ← on_solve_maze 0 1 (app_with corridor (1, 1) (1, 3) "A*");
      Done (st', DrawMaze :: evs)
    else Done (app_with corridor (1, 1) (1, 3) "A*", []).
Proof.
  apply (restart_is_redraw_then_solve 0 1 _ corridor 5 5); [reflexivity| |lia].
  split; [reflexivity|]. repeat constructor.
Defined.

(** X8: on a rectangular grid, pressing "Select Start" (or "Select End")
    and then clicking a Passage cell stores that cell as the start (the
    end), leaves the other point alone and redraws the maze; the click uses
    up the selection mode, so a further click changes nothing until a
    selection button is pressed again. *)
Theorem select_then_click g w h x y st :
  maze st = Some g -> rect g w h -> passage g (x, y) ->
  (exists st',
     on_canvas_click x y (on_select_start st).1 = Done (st', [DrawMaze]) /\
     start_point st' = Some (x, y) /\ end_point st' = end_point st /\
     forall x' y' r, on_canvas_click x' y' st' = Done r -> r = (st', [])) /\
  (exists st',
     on_canvas_click x y (on_select_end st).1 = Done (st', [DrawMaze]) /\
     end_point st' = Some (x, y) /\ start_point st' = start_point st /\
     forall x' y' r, on_canvas_click x' y' st' = Done r -> r = (st', [])).
Proof.
  intros Hg Hrect Hp.
  assert (Hh : 0 < h).
  { destruct (rect_get_inv g w h x y 0 Hrect Hp). lia. }
  pose proof (draw_maze_rect g w h Hrect Hh) as Hdraw.
  apply grid_get_get in Hp.
  assert (Hnone : forall st', maze st' = Some g -> selection_mode st' = None ->
            forall x' y' r, on_canvas_click x' y' st' = Done r -> r = (st', [])).
  { intros st' Hg' Hm x' y' r. unfold on_canvas_click. rewrite Hg', Hm.
    intros (v & _ & Hr)%bind_Done. destruct (negb _); by simplify_eq. }
  split; eexists;
    (split; [unfold on_canvas_click; simpl; rewrite Hg, Hp; simpl;
             rewrite Hdraw; simpl; done|]);
    (split; [done|]); (split; [done|]); by apply Hnone.
Qed.

Lemma select_then_click_witness :
  rect corridor 5 5 /\ passage corridor (1, 2) /\
  (exists st',
     on_canvas_click 1 2 (on_select_start (app_with corridor (1, 1) (1, 3) "BFS")).1
       = Done (st', [DrawMaze]) /\
     start_point st' = Some (1, 2) /\
     end_point st' = end_point (app_with corridor (1, 1) (1, 3) "BFS") /\
     forall x' y' r, on_canvas_click x' y' st' = Done r -> r = (st', [])) /\
  (exists st',
     on_canvas_click 1 2 (on_select_end (app_with corridor (1, 1) (1, 3) "BFS")).1
       = Done (st', [DrawMaze]) /\
     end_point st' = Some (1, 2) /\
     start_point st' = start_point (app_with corridor (1, 1) (1, 3) "BFS") /\
     forall x' y' r, on_canvas_click x' y' st' = Done r -> r = (st', [])).
Proof.
  assert (Hrect : rect corridor 5 5) by (split; [reflexivity|repeat constructor]).
  split; [done|]. split; [reflexivity|].
  apply (select_then_click corridor 5 5 1 2 (app_with corridor (1, 1) (1, 3) "BFS"));
    [reflexivity|done|reflexivity].
Defined.

(** X9: a click whose cell indices are not negative and lie outside a
    rectangular grid raises [IndexError] at [maze[y][x]], whatever the
    selection mode. *)
Theorem on_canvas_click_outside_raises g w h x y st :
  maze st = Some g -> rect g w h -> 0 <= x -> 0 <= y -> w <= x \/ h <= y ->
  on_canvas_click x y st = Raise IndexError.
Proof.
  intros Hg [Hlen Hrows] Hx Hy Hout. unfold on_canvas_click, grid_get. rewrite Hg.
  destruct (Z.le_gt_cases h y) as [Hhy|Hhy].
  - rewrite py_index_out; [done|lia].
  - assert (Hlt : (Z.to_nat y < length g)%nat) by (unfold len in Hlen; lia).
    apply lookup_lt_is_Some in Hlt as [row Hrow].
    rewrite (py_index_lookup _ _ _ Hy Hrow). cbn [mbind outcome_bind].
    rewrite py_index_out; [done|]. rewrite Forall_forall in Hrows.
    rewrite (Hrows row); [lia|]. by eapply list_elem_of_lookup_2.
Qed.

Lemma on_canvas_click_outside_raises_witness :
  on_canvas_click 5 2 (app_with corridor (1, 1) (1, 3) "BFS") = Raise IndexError.
Proof.
  apply (on_canvas_click_outside_raises corridor 5 5); [reflexivity| |lia|lia|lia].
  split; [reflexivity|]. repeat constructor.
Defined.

(** ** What one callback does to the state *)

Lemma tick_frame cb now st st' evs :
  tick cb now st = Done (st', evs) ->
  maze st' = maze st /\ start_point st' = start_point st /\
  end_point st' = end_point st /\ algorithm_var st' = algorithm_var st /\
  animation_delay_var st' = animation_delay_var st /\
  selection_mode st' = selection_mode st /\ paused st' = paused st /\
  search_start_time st' = search_start_time st.
Proof.
  assert (Hgoal : forall st1 st2 evs2, goal_reached now st1 = Done (st2, evs2) ->
    maze st2 = maze st1 /\ start_point st2 = start_point st1 /\
    end_point st2 = end_point st1 /\ algorithm_var st2 = algorithm_var st1 /\
    animation_delay_var st2 = animation_delay_var st1 /\
    selection_mode st2 = selection_mode st1 /\ paused st2 = paused st1 /\
    search_start_time st2 = search_start_time st1).
  { intros st1 st2 evs2. unfold goal_reached. intros (t0 & _ & H)%bind_Done.
    apply bind_Done in H as (evs' & _ & H). by simplify_eq. }
  intros Htick.
  destruct cb; simpl in Htick;
    unfold animate_bfs, animate_dfs, animate_dijkstra, animate_astar in Htick;
    (destruct (solving st); cbn [negb] in Htick; [|by simplify_eq]);
    (destruct (paused st) eqn:Hp; [by simplify_eq|]);
    destruct (search_nodes st) as [[|c0 q0]|[|[cost cur] rest]|[|[[f g] cur] rest]];
    try discriminate Htick;
    try (injection Htick as <- <-; by simpl);
    (case_decide;
     [apply Hgoal in Htick; simpl in Htick; destruct_and!; split_and!; congruence|]).
  - by apply bind_Done in Htick as ([[ps q] draws] & _ & [= <- <-]).
  - by apply bind_Done in Htick as ([[ps q] draws] & _ & [= <- <-]).
  - by apply bind_Done in Htick as ([[[ps ds] hp] draws] & _ & [= <- <-]).
  - by apply bind_Done in Htick as ([[[ps ds] hp] draws] & _ & [= <- <-]).
Qed.

(** X10: a callback changes only the containers of the search, the
    [solving] flag and the search time: the maze, the two points, the
    algorithm, the delay, the selection mode, the pause flag and the
    clock reading of the start are what they were. *)
Theorem tick_keeps_setup cb now st st' evs :
  tick cb now st = Done (st', evs) ->
  maze st' = maze st /\ start_point st' = start_point st /\
  end_point st' = end_point st /\ algorithm_var st' = algorithm_var st /\
  animation_delay_var st' = animation_delay_var st /\
  selection_mode st' = selection_mode st /\ paused st' = paused st /\
  search_start_time st' = search_start_time st.
Proof. apply tick_frame. Qed.

Lemma tick_keeps_setup_witness :
  exists st' evs,
    tick CbDfs 5 (init_search 0 (1, 1) (app_with corridor (1, 1) (1, 3) "DFS"))
      = Done (st', evs) /\
    maze st' = Some corridor /\ start_point st' = Some (1, 1) /\
    end_point st' = Some (1, 3) /\ algorithm_var st' = "DFS" /\
    animation_delay_var st' = 50 /\ selection_mode st' = None /\
    paused st' = false /\ search_start_time st' = Some 0.
Proof.
  eexists _, _. split; [vm_compute; reflexivity|].
  eapply (tick_keeps_setup CbDfs 5
            (init_search 0 (1, 1) (app_with corridor (1, 1) (1, 3) "DFS"))).
  vm_compute. reflexivity.
Defined.

(** ** Parent links join neighbouring Passage cells *)

Lemma cell_open_true g st x y :
  maze st = Some g -> cell_open st x y = Done true -> passage g (x, y).
Proof.
  intros Hg. unfold cell_open, the_maze. rewrite Hg.
  destruct (Z.leb_spec 0 x) as [Hx|]; [|done]. cbn [mbind outcome_bind].
  intros (row0 & _ & H)%bind_Done.
  destruct ((x <? len row0) && (0 <=? y) && (y <? len g)) eqn:Hb; [|done].
  apply andb_true_iff in Hb as [Hb _]. apply andb_true_iff in Hb as [_ Hy%Z.leb_le].
  apply bind_Done in H as (v & Hv & [= Hv0%Z.eqb_eq]). subst v.
  unfold grid_get in Hv. apply bind_Done in Hv as (row & Hrow & Hv).
  apply py_index_Done in Hrow; [|done]. apply py_index_Done in Hv; [|done].
  apply get_Some. eauto 6.
Qed.

(** Every parent link is either old or joins a Passage cell to a
    neighbour. *)
Definition grown (g : Grid) (ps ps' : gmap coord (option coord)) : Prop :=
  forall c p, ps' !! c = Some (Some p) ->
    ps !! c = Some (Some p) \/ (c ∈ neighbours p /\ passage g c).

Lemma grown_refl g ps : grown g ps ps.
Proof. intros c p ?. by left. Qed.

Lemma grown_insert g ps0 ps cur d :
  grown g ps0 ps -> d ∈ deltas -> passage g (move cur d) ->
  grown g ps0 (<[move cur d := Some cur]> ps).
Proof.
  intros Hgr Hd Hp c p Hc. destruct (decide (c = move cur d)) as [->|Hne].
  - rewrite lookup_insert_eq in Hc. injection Hc as <-. right.
    split; [by apply move_neighbour|done].
  - rewrite lookup_insert_ne in Hc by done. by apply Hgr.
Qed.

Lemma visit_grown g st cur ps0 ps q evs d ps' q' evs' :
  maze st = Some g -> d ∈ deltas ->
  visit st cur (ps, q, evs) d = Done (ps', q', evs') ->
  grown g ps0 ps -> grown g ps0 ps'.
Proof.
  intros Hg Hd. unfold visit. intros (open & Hopen & H)%bind_Done Hgr.
  destruct open; simpl in H; [|by simplify_eq].
  destruct (bool_decide _); simplify_eq; [|done].
  apply grown_insert; [done..|]. eapply cell_open_true; [done|].
  exact Hopen.
Qed.

Lemma relax_dijkstra_grown g st cost cur ps0 ps ds h evs d ps' ds' h' evs' :
  maze st = Some g -> d ∈ deltas ->
  relax_dijkstra st cost cur (ps, ds, h, evs) d = Done (ps', ds', h', evs') ->
  grown g ps0 ps -> grown g ps0 ps'.
Proof.
  intros Hg Hd. unfold relax_dijkstra. intros (open & Hopen & H)%bind_Done Hgr.
  destruct open; [|by simplify_eq].
  destruct (ds !! move cur d) as [old|]; [destruct (_ <? old)|]; simplify_eq; try done;
    (apply grown_insert; [done..|]; eapply cell_open_true; [done|];
     exact Hopen).
Qed.

Lemma relax_astar_grown g st gc cur ps0 ps ds h evs d ps' ds' h' evs' :
  maze st = Some g -> d ∈ deltas ->
  relax_astar st gc cur (ps, ds, h, evs) d = Done (ps', ds', h', evs') ->
  grown g ps0 ps -> grown g ps0 ps'.
Proof.
  intros Hg Hd. unfold relax_astar. intros (open & Hopen & H)%bind_Done Hgr.
  destruct open; [|by simplify_eq].
  apply bind_Done in H as (e & _ & H).
  destruct (ds !! move cur d) as [old|]; [destruct (_ <? old)|]; simplify_eq; try done;
    (apply grown_insert; [done..|]; eapply cell_open_true; [done|];
     exact Hopen).
Qed.

Lemma goal_reached_keeps now st st' evs :
  goal_reached now st = Done (st', evs) ->
  parents st' = parents st /\ distances st' = distances st /\
  exists path t1 t2,
    trace_back (S (size (parents st))) (parents st) (end_point st) = Done path /\
    evs = SetTimeLabel t1 :: map (fun c => DrawCell c Yellow) path ++
          [SetTimeLabel t2; ShowInfo "Maze Solved" "Maze solved!"].
Proof.
  unfold goal_reached. intros (t0 & _ & H)%bind_Done.
  apply bind_Done in H as (evs' & Hd & H). injection H as <- <-.
  unfold draw_solution_path in Hd. apply bind_Done in Hd as (path & Hpath & [= <-]).
  split_and!; try done. by eexists _, _, _.
Qed.

Lemma last_elem_of {A} (l : list A) (a : A) : List.last l a ∈ a :: l.
Proof.
  assert (H : forall l : list A, l ≠ [] -> List.last l a ∈ l).
  { clear l. induction l as [|b l IH]; intros Hne; [done|].
    destruct l as [|c l]; [by left|]. right. by apply IH. }
  destruct l as [|b l]; [by left|]. right. by apply H.
Qed.

(** What a callback does to the parents, and what its events are when it
    reports the goal. *)
Definition tick_effect (g : Grid) (st st' : App) (evs : list event) : Prop :=
  grown g (parents st) (parents st') /\
  (solving st' = false ->
   parents st' = parents st /\ distances st' = distances st) /\
  (solved evs ->
   exists e path,
     end_point st = Some e /\ e ∈ frontier_cells (search_nodes st) /\
     trace_back (S (size (parents st))) (parents st) (Some e) = Done path /\
     painted Yellow evs = path).

Lemma tick_parents g cb now st st' evs :
  maze st = Some g -> tick cb now st = Done (st', evs) -> tick_effect g st st' evs.
Proof.
  intros Hg Htick. pose proof Htick as Htick0.
  assert (Hidle : forall evs0, ~ solved evs0 -> tick_effect g st st evs0).
  { intros evs0 Hns. split; [apply grown_refl|]. split; [done|]. by intros ?%Hns. }
  assert (Hexh : ~ solved [ShowInfo "No Solution" "No path found!"]).
  { by intros ?%list_elem_of_singleton. }
  assert (Hstop : forall evs0, ~ solved evs0 -> tick_effect g st (set_solving false st) evs0).
  { intros evs0 Hns. split; [apply grown_refl|]. split; [done|]. by intros ?%Hns. }
  assert (Hgoal : forall e fr, e ∈ frontier_cells (search_nodes st) ->
    Some e = end_point st ->
    goal_reached now (set_search fr (parents st) (distances st) st) = Done (st', evs) ->
    tick_effect g st st' evs).
  { intros e fr Hin He (Hps & Hds & path & t1 & t2 & Hpath & ->)%goal_reached_keeps.
    cbn [parents distances end_point set_search] in *. unfold tick_effect.
    rewrite Hps, Hds.
    split; [apply grown_refl|]. split; [done|]. intros _.
    exists e, path. rewrite He. split_and!; try done. apply painted_path. }
  assert (Hmore : forall fr ps ds,
    st' = set_search fr ps ds st -> solving st = true ->
    grown g (parents st) ps -> tick_effect g st st' evs).
  { intros fr ps ds -> Hsol Hgr. split; [done|].
    split; [simpl; congruence|]. intros Hs.
    pose proof (terminal_not_solving _ _ _ _ _ Htick0 (or_introl Hs)) as Hf.
    simpl in Hf. congruence. }
  destruct cb; simpl in Htick;
    unfold animate_bfs, animate_dfs, animate_dijkstra, animate_astar in Htick;
    (destruct (solving st) eqn:Hsol; cbn [negb] in Htick;
     [|injection Htick as <- <-; apply Hidle; by intros ?%elem_of_nil]);
    (destruct (paused st) eqn:Hp;
     [injection Htick as <- <-; apply Hidle; by intros ?%list_elem_of_singleton|]);
    destruct (search_nodes st) as [[|c0 q0]|[|[cost cur] rest]|[|[[f gc] cur] rest]] eqn:Hfr;
    try discriminate Htick;
    try (injection Htick as <- <-; by apply Hstop).
  - case_decide as He; [eapply Hgoal; [|done..]; by left|].
    apply bind_Done in Htick as ([[ps q] draws] & Hfold & [= <- <-]).
    cbn [parents distances set_search animation_delay_var] in *.
    eapply (Hmore _ ps _); [done|done|].
    apply (foldM_inv _ (fun a => grown g (parents st) a.1.1) deltas _ (ps, q, draws))
      in Hfold; [done|apply grown_refl|].
    intros [[??]?] ? [[??]?] ? ? ?. by eapply visit_grown.
  - case_decide as He; [eapply Hgoal; [|done..]; apply last_elem_of|].
    apply bind_Done in Htick as ([[ps q] draws] & Hfold & [= <- <-]).
    cbn [parents distances set_search animation_delay_var] in *.
    eapply (Hmore _ ps _); [done|done|].
    apply (foldM_inv _ (fun a => grown g (parents st) a.1.1) deltas _ (ps, q, draws))
      in Hfold; [done|apply grown_refl|].
    intros [[??]?] ? [[??]?] ? ? ?. by eapply visit_grown.
  - case_decide as He; [eapply Hgoal; [|done..]; by left|].
    apply bind_Done in Htick as ([[[ps ds] hp] draws] & Hfold & [= <- <-]).
    cbn [parents distances set_search animation_delay_var] in *.
    eapply (Hmore _ ps ds); [done|done|].
    apply (foldM_inv _ (fun a => grown g (parents st) a.1.1.1) deltas _ (ps, ds, hp, draws))
      in Hfold; [done|apply grown_refl|].
    intros [[[??]?]?] ? [[[??]?]?] ? ? ?. by eapply relax_dijkstra_grown.
  - case_decide as He; [eapply Hgoal; [|done..]; by left|].
    apply bind_Done in Htick as ([[[ps ds] hp] draws] & Hfold & [= <- <-]).
    cbn [parents distances set_search animation_delay_var] in *.
    eapply (Hmore _ ps ds); [done|done|].
    apply (foldM_inv _ (fun a => grown g (parents st) a.1.1.1) deltas _ (ps, ds, hp, draws))
      in Hfold; [done|apply grown_refl|].
    intros [[[??]?]?] ? [[[??]?]?] ? ? ?. by eapply relax_astar_grown.
Qed.

Definition joined (g : Grid) (ps : gmap coord (option coord)) : Prop :=
  forall c p, ps !! c = Some (Some p) -> c ∈ neighbours p /\ passage g c.

Lemma joined_grown g ps ps' : joined g ps -> grown g ps ps' -> joined g ps'.
Proof. intros Hj Hgr c p Hc. destruct (Hgr c p Hc) as [?|?]; auto. Qed.

Lemma linked_route g ps path : joined g ps -> linked ps path -> route g path.
Proof.
  intros Hj. induction path as [|c rest IH]; [done|].
  intros [Hc Hl]. destruct rest as [|p rest]; [done|].
  cbn [route]. simpl in Hc.
  destruct (ps !! c) as [[p'|]|] eqn:Hpc; simplify_eq/=.
  destruct (Hj _ _ Hpc) as [Hn Hp]. split_and!; [done|done|by apply IH].
Qed.

Lemma frontier_ok_tree s st :
  frontier_ok s st -> exists rank nodes, tree_inv s rank nodes (parents st).
Proof.
  unfold frontier_ok. destruct (search_nodes st).
  - intros [rank ?]. eauto.
  - intros []. eauto.
  - intros []. eauto.
Qed.

Lemma frontier_ok_recorded s st c :
  frontier_ok s st -> c ∈ frontier_cells (search_nodes st) ->
  is_Some (parents st !! c).
Proof.
  unfold frontier_ok, frontier_cells. destruct (search_nodes st) as [q|hp|hp].
  - intros [rank Ht] Hc. by apply (ti_nodes _ _ _ _ Ht).
  - intros [Ht _ _ _] Hc. by apply (ti_nodes _ _ _ _ Ht).
  - intros [Ht _ _ _] Hc. apply (ti_nodes _ _ _ _ Ht).
    unfold fcost_ents. by rewrite <- list_fmap_compose.
Qed.

(** What every state of a search satisfies, whatever callbacks ran. *)
Record search_inv (g : Grid) (s : coord) (st0 st : App) : Prop := {
  si_maze : maze st = Some g;
  si_end : end_point st = end_point st0;
  si_front : frontier_ok s st;
  si_joined : joined g (parents st);
}.

Lemma search_inv_init g t0 s st0 :
  maze st0 = Some g -> search_inv g s st0 (init_search t0 s st0).
Proof.
  intros Hg. split.
  - unfold init_search. by repeat case_decide.
  - unfold init_search. by repeat case_decide.
  - apply init_search_ok.
  - assert (parents (init_search t0 s st0) = <[s := None]> ∅) as ->
      by (unfold init_search; by repeat case_decide).
    intros c p Hc. destruct (decide (s = c)) as [<-|].
    + by rewrite lookup_insert_eq in Hc.
    + by rewrite lookup_insert_ne, lookup_empty in Hc.
Qed.

Lemma search_inv_tick g s st0 cb now st st' evs :
  search_inv g s st0 st -> tick cb now st = Done (st', evs) ->
  search_inv g s st0 st'.
Proof.
  intros [Hg He Hok Hj] Htick.
  destruct (tick_frame _ _ _ _ _ Htick) as (Hm & _ & He' & _).
  destruct (tick_parents g _ _ _ _ _ Hg Htick) as (Hgr & _).
  split.
  - congruence.
  - congruence.
  - by eapply tick_frontier_ok.
  - by eapply joined_grown.
Qed.

Lemma search_inv_reached g t0 s st0 st :
  maze st0 = Some g -> reached (init_search t0 s st0) st -> search_inv g s st0 st.
Proof.
  intros Hg Hr. induction Hr as [|cb now st st' evs _ IH Htick|st _ IH].
  - by apply search_inv_init.
  - by eapply search_inv_tick.
  - destruct IH. by split.
Qed.

(** The path that a callback draws when it reports the goal, in a state
    that satisfies the invariant. *)
Lemma solved_path g s st0 cb now st st' evs :
  search_inv g s st0 st -> tick cb now st = Done (st', evs) -> solved evs ->
  exists e,
    end_point st0 = Some e /\ is_Some (parents st !! e) /\
    trace_back (S (size (parents st))) (parents st) (Some e)
      = Done (painted Yellow evs) /\
    head (painted Yellow evs) = Some e /\ last (painted Yellow evs) = Some s /\
    NoDup (painted Yellow evs) /\ route g (painted Yellow evs).
Proof.
  intros [Hg He Hok Hj] Htick Hs.
  destruct (tick_parents g _ _ _ _ _ Hg Htick) as (_ & _ & Hgoal).
  destruct (Hgoal Hs) as (e & path & Hend & Hin & Htrace & ->).
  pose proof (frontier_ok_recorded _ _ _ Hok Hin) as Hrec.
  destruct (frontier_ok_tree _ _ Hok) as (rank & nodes & Htree).
  destruct (tree_inv_trace _ _ _ _ Htree e Hrec) as (path' & Htrace' & Hlast).
  rewrite Htrace in Htrace'. injection Htrace' as <-.
  destruct (trace_back_linked _ _ _ _ Htrace) as [Hhead Hlinked].
  exists e. split_and!; try done.
  - congruence.
  - by eapply linked_NoDup.
  - by eapply linked_route.
Qed.

(** X11: whenever a callback of any of the four variants reports the goal,
    in any state that callbacks and pause toggles lead to from the reset of
    a search, the cells it paints as the path start with the goal, end
    with the start, contain no cell twice, and every cell but the start is
    a Passage cell next to the cell painted after it. *)
Theorem drawn_path_is_a_route g t0 s st0 st cb now st' evs :
  maze st0 = Some g -> reached (init_search t0 s st0) st ->
  tick cb now st = Done (st', evs) -> solved evs ->
  exists e,
    end_point st0 = Some e /\
    head (painted Yellow evs) = Some e /\ last (painted Yellow evs) = Some s /\
    NoDup (painted Yellow evs) /\ route g (painted Yellow evs).
Proof.
  intros Hg Hr Htick Hs.
  destruct (solved_path g s st0 cb now st st' evs) as (e & ? & _ & _ & ?);
    [by eapply search_inv_reached|done..|].
  by exists e.
Qed.

Lemma drawn_path_is_a_route_witness :
  exists st1 evs1 st' evs,
    tick CbDfs 1 (init_search 0 (1, 1) (app_with corridor (1, 1) (1, 2) "DFS"))
      = Done (st1, evs1) /\
    tick CbDfs 2 st1 = Done (st', evs) /\ solved evs /\
    exists e,
      end_point (app_with corridor (1, 1) (1, 2) "DFS") = Some e /\
      head (painted Yellow evs) = Some e /\ last (painted Yellow evs) = Some (1, 1) /\
      NoDup (painted Yellow evs) /\ route corridor (painted Yellow evs).
Proof.
  eexists _, _, _, _.
  split; [vm_compute; reflexivity|].
  split; [vm_compute; reflexivity|].
  split; [unfold solved; apply list_elem_of_In; simpl; auto 10|].
  eapply (drawn_path_is_a_route corridor 0 (1, 1)
            (app_with corridor (1, 1) (1, 2) "DFS") _ CbDfs 2).
  - reflexivity.
  - eapply (reached_tick _ CbDfs 1); [apply reached_init|]. vm_compute. reflexivity.
  - vm_compute. reflexivity.
  - unfold solved. apply list_elem_of_In. simpl. auto 10.
Defined.

(** ** A search whose start is its goal *)

(** X12: when the start is also the goal and the animation is not paused,
    "Solve" itself reports the goal, for every algorithm name and every
    grid: the path is the single cell, no neighbour is examined and no
    callback is scheduled. *)
Theorem search_from_goal_ends_at_once g s t0 t1 st :
  maze st = Some g -> start_point st = Some s -> end_point st = Some s ->
  paused st = false ->
  exists st',
    on_solve_maze t0 t1 st =
      Done (st', [SetTimeLabel (LabelTime (t1 - t0)); DrawCell s Yellow;
                  SetTimeLabel (LabelSolved (t1 - t0));
                  ShowInfo "Maze Solved" "Maze solved!"]) /\
    solving st' = false /\ search_time st' = t1 - t0 /\
    parents st' = {[s := None]}.
Proof.
  intros Hg Hs He Hp. unfold on_solve_maze. rewrite Hg, Hs, He.
  assert (Htrace : trace_back (S (size (<[s := None]> (∅ : gmap coord (option coord)))))
                     (<[s := None]> ∅) (Some s) = Done [s]).
  { rewrite insert_empty, map_size_singleton. simpl.
    by rewrite lookup_singleton_eq. }
  unfold callback_of, init_search.
  repeat case_decide; try congruence;
    cbn [tick animate_bfs animate_dfs animate_dijkstra animate_astar
         solving paused negb search_nodes heappush app List.last removelast];
    rewrite Hp;
    cbn [end_point set_search parents distances]; rewrite He;
    (rewrite decide_True by done);
    unfold goal_reached, draw_solution_path;
    cbn [search_start_time set_solving set_search mbind outcome_bind
         parents end_point set_search_time search_time];
    rewrite Htrace; cbn [mbind outcome_bind map app];
    eexists; (split; [reflexivity|]); split_and!; try done; apply insert_empty.
Qed.

Lemma search_from_goal_ends_at_once_witness :
  exists st',
    on_solve_maze 3 7 (app_with corridor (1, 2) (1, 2) "A*") =
      Done (st', [SetTimeLabel (LabelTime (7 - 3)); DrawCell (1, 2) Yellow;
                  SetTimeLabel (LabelSolved (7 - 3));
                  ShowInfo "Maze Solved" "Maze solved!"]) /\
    solving st' = false /\ search_time st' = 7 - 3 /\
    parents st' = {[(1, 2) := None]}.
Proof.
  apply (search_from_goal_ends_at_once corridor (1, 2) 3 7
           (app_with corridor (1, 2) (1, 2) "A*")); reflexivity.
Defined.

(** ** A reachable goal is found *)

Lemma solved_not_exhausted cb now st st' evs :
  tick cb now st = Done (st', evs) -> solved evs -> ~ exhausted evs.
Proof.
  unfold solved, exhausted. intros H%tick_has_shape Hs Hx.
  destruct H as [? -> ->|? ? -> ->|? ? -> ->|t path ? ? ? ? ->|draws ? ? ? ? Hl ->].
  - by apply elem_of_nil in Hs.
  - by apply list_elem_of_singleton in Hs.
  - by apply list_elem_of_singleton in Hs.
  - apply elem_of_cons in Hx as [?|Hx]; [done|].
    apply elem_of_app in Hx as [Hx|Hx].
    + apply list_elem_of_fmap in Hx as (c & ? & _). done.
    + apply elem_of_cons in Hx as [?|Hx]; [done|].
      by apply list_elem_of_singleton in Hx.
  - apply elem_of_app in Hs as [Hs|Hs%list_elem_of_singleton]; [|done].
    by apply not_light_blue_info in Hs.
Qed.

Section Found.
Variables (g : Grid) (w h : Z) (s e : coord) (R : gset coord) (st0 : App).
Hypothesis Hrect : rect g w h.
Hypothesis Hh : 0 < h.
Hypothesis HR : forall c, reachable g s c -> c ∈ R.
Hypothesis Hgoal : reachable g s e.

(** The expanded cells are distinct reachable cells other than the goal. *)
Lemma scan_goal_bound (done F : list coord) (V : gset coord) :
  scan_inv g s e done F V -> (S (length done) <= size R)%nat.
Proof.
  intros [Hs Hd Hn Hr Hc].
  apply NoDup_app in Hn as (Hnd & _ & _).
  rewrite <- (size_list_to_set (C := gset coord) done) by done.
  assert (Hsub : list_to_set done ⊆ R ∖ {[e]}).
  { intros c Hc'%elem_of_list_to_set. apply elem_of_difference. split.
    - apply HR, Hr, Hd, elem_of_app. by left.
    - intros ->%elem_of_singleton. by destruct (Hc e Hc'). }
  apply subseteq_size in Hsub.
  assert (He : e ∈ R) by auto.
  assert (Hsz : size R = S (size (R ∖ {[e]}))).
  { rewrite (union_difference_L {[e]} R) at 1 by set_solver.
    rewrite size_union by set_solver. by rewrite size_singleton. }
  lia.
Qed.

(** A run that expands cells until the goal comes up, for an invariant
    that counts the expanded cells. *)
Lemma found_run cb (I : nat -> App -> Prop) (Ready : App -> Prop) :
  (forall n st, I n st -> (S n <= size R)%nat) ->
  (forall n st, I n st ->
     Ready st \/
     forall now, exists st' draws,
       tick cb now st = Done (st', draws ++ [After (animation_delay_var st) cb]) /\
       Forall light_blue draws /\ I (S n) st') ->
  (forall n st, I n st -> Ready st ->
     forall now, exists st' evs,
       tick cb now st = Done (st', evs) /\ pending evs = None /\
       solved evs /\ solving st' = false) ->
  forall nows st, I 0%nat st -> (size R <= length nows)%nat ->
  exists n stk now st' evs quiet,
    I n stk /\ Ready stk /\ tick cb now stk = Done (st', evs) /\
    solved evs /\ solving st' = false /\
    run cb nows st = Done (st', quiet ++ evs) /\
    Forall (fun ev => light_blue ev \/ exists d, ev = After d cb) quiet.
Proof.
  intros Hb Hstep Hlast nows st HI Hlen.
  pose proof (Hb _ _ HI) as Hpos.
  destruct (run_to_end cb (fun n st => I n st)
              Ready
              (fun stk st' evs => (exists n, I n stk /\ Ready stk) /\
                                  solved evs /\ solving st' = false)
              (size R - 1))
    with (nows := nows) (st := st)
    as (k & stk & quiet & now & st' & evs & _ & Hsteps & _ & Htick & Hrun &
        (n & HIn & Hrdy) & Hsol & Hs').
  - intros n st1 H1. specialize (Hb _ _ H1). lia.
  - done.
  - intros n st1 H1 Hr1 now.
    destruct (Hlast n st1 H1 Hr1 now) as (st' & evs & ? & ? & ? & ?).
    exists st', evs. split_and!; eauto.
  - done.
  - lia.
  - exists n, stk, now, st', evs, quiet. split_and!; try done.
    by eapply steps_quiet.
Qed.

(** What the events of such a run show. *)
Lemma found_events cb now stk st' evs quiet :
  search_inv g s st0 stk -> end_point st0 = Some e ->
  tick cb now stk = Done (st', evs) -> solved evs ->
  Forall (fun ev => light_blue ev \/ exists d, ev = After d cb) quiet ->
  solved (quiet ++ evs) /\ ~ exhausted (quiet ++ evs) /\
  painted Yellow (quiet ++ evs) = painted Yellow evs /\
  head (painted Yellow evs) = Some e /\ last (painted Yellow evs) = Some s /\
  NoDup (painted Yellow evs) /\ route g (painted Yellow evs) /\
  is_Some (parents stk !! e) /\
  trace_back (S (size (parents stk))) (parents stk) (Some e)
    = Done (painted Yellow evs).
Proof.
  intros Hinv He Htick Hs Hq.
  destruct (solved_path g s st0 cb now stk st' evs Hinv Htick Hs)
    as (e' & He' & Hrec & Htrace & Hhead & Hlast & Hnd & Hroute).
  assert (e' = e) as -> by congruence.
  destruct (quiet_not_terminal cb quiet Hq) as [Hqs Hqx].
  split_and!; try done.
  - unfold solved in *. apply elem_of_app. by right.
  - unfold exhausted in *. intros [?|Hx]%elem_of_app; [done|].
    by eapply solved_not_exhausted.
  - by rewrite painted_app, (painted_quiet _ _ Hq).
Qed.

(** *** Breadth-first search *)

Definition bfs_found (n : nat) (st : App) : Prop :=
  bfs_state g s e n st /\ search_inv g s st0 st.

Lemma bfs_found_bound n st : bfs_found n st -> (S n <= size R)%nat.
Proof.
  intros [(_ & lvl & done & Q & _ & <- & Hsc & _) _]. by eapply scan_goal_bound.
Qed.

Lemma bfs_found_step n st :
  bfs_found n st ->
  cells_ready e st \/
  forall now, exists st' draws,
    tick CbBfs now st = Done (st', draws ++ [After (animation_delay_var st) CbBfs]) /\
    Forall light_blue draws /\ bfs_found (S n) st'.
Proof.
  intros [Hst Hinv]. destruct (bfs_step g w h s e Hrect Hh n st Hst) as [?|Hstep]; [by left|].
  right. intros now. destruct (Hstep now) as (st' & draws & Htick & Hl & Hst').
  exists st', draws. split_and!; try done. split; [done|]. by eapply search_inv_tick.
Qed.

Lemma bfs_found_last n st :
  bfs_found n st -> cells_ready e st ->
  forall now, exists st' evs,
    tick CbBfs now st = Done (st', evs) /\ pending evs = None /\
    solved evs /\ solving st' = false.
Proof.
  intros [Hst Hinv] Hr now.
  destruct (bfs_last g s e n st Hst Hr now) as (st' & evs & Htick & Hp & Hs' & Hfin).
  exists st', evs. split_and!; try done.
  by destruct Hfin as [(_ & _ & Hun)|(? & _)].
Qed.

(** *** Depth-first search *)

Definition dfs_found (n : nat) (st : App) : Prop :=
  dfs_state g s e n st /\ search_inv g s st0 st.

Definition dfs_ready (st : App) : Prop :=
  search_nodes st = Cells [] \/
  exists c0 q0, search_nodes st = Cells (c0 :: q0) /\ List.last q0 c0 = e.

Lemma dfs_found_bound n st : dfs_found n st -> (S n <= size R)%nat.
Proof.
  intros [(_ & done & Q & _ & <- & Hsc) _]. by eapply scan_goal_bound.
Qed.

Lemma dfs_found_step n st :
  dfs_found n st ->
  dfs_ready st \/
  forall now, exists st' draws,
    tick CbDfs now st = Done (st', draws ++ [After (animation_delay_var st) CbDfs]) /\
    Forall light_blue draws /\ dfs_found (S n) st'.
Proof.
  intros [(Hsg & done & Q & HQ & Hn & Hsc) Hinv].
  destruct Q as [|c0 q0]; [left; by left|].
  destruct (decide (List.last q0 c0 = e)) as [Hlast|Hne].
  { left. right. by exists c0, q0. }
  right. intros now.
  assert (Htick : exists st' draws,
    tick CbDfs now st = Done (st', draws ++ [After (animation_delay_var st) CbDfs]) /\
    Forall light_blue draws /\ dfs_state g s e (S n) st').
  { simpl. unfold animate_dfs.
    destruct Hsg as [Hg He Hsol Hp Hclk]. rewrite Hsol, Hp, HQ. cbn [negb].
    cbn [end_point set_search]. rewrite He.
    set (cur := List.last q0 c0) in *. set (rest := removelast (c0 :: q0)).
    assert (Hsplit : c0 :: q0 = rest ++ [cur]).
    { unfold rest, cur. rewrite (app_removelast_last c0) at 1 by done. f_equal.
      destruct q0; [done|]. simpl. f_equal. }
    assert (Hperm : c0 :: q0 ≡ₚ cur :: rest).
    { rewrite Hsplit. by rewrite Permutation_app_comm. }
    rewrite decide_False by (intros [=]; done).
    destruct (visits_scan g w h s e Hrect Hh
                (set_search (Cells rest) (parents st) (distances st) st) cur done rest
                (parents st)) as (ps' & q' & draws & Hfold & Hlb & Hsc' & _);
      [done|by apply (scan_open g s e done (c0 :: q0))|].
    cbn [parents set_search]. rewrite Hfold. cbn [mbind outcome_bind].
    eexists _, draws. split; [reflexivity|]. split; [done|].
    split; [by split|].
    exists (done ++ [cur]), q'. cbn [search_nodes parents set_search].
    split_and!; [done|rewrite length_app; simpl; lia|done]. }
  destruct Htick as (st' & draws & Htick & Hl & Hst').
  exists st', draws. split_and!; try done. split; [done|]. by eapply search_inv_tick.
Qed.

Lemma dfs_found_last n st :
  dfs_found n st -> dfs_ready st ->
  forall now, exists st' evs,
    tick CbDfs now st = Done (st', evs) /\ pending evs = None /\
    solved evs /\ solving st' = false.
Proof.
  intros [(Hsg & done & Q & HQ & Hn & Hsc) Hinv] Hr now.
  destruct Hr as [Hr|(c0 & q0 & Hr & Hlast)]; rewrite HQ in Hr; injection Hr as ->.
  { by destruct (scan_exhausted g s e done _ Hsc). }
  pose proof Hsg as [Hg He Hsol Hp Hclk].
  simpl. unfold animate_dfs. rewrite Hsol, Hp, HQ. cbn [negb].
  cbn [end_point set_search]. rewrite He, Hlast. rewrite decide_True by done.
  destruct (goal_reached_ok g s e now
              (set_search (Cells (removelast (c0 :: q0))) (parents st) (distances st) st))
    as (st' & evs & -> & Hpend & Hsolved & Hs');
    [by apply searching_popped| |eexists _, _; by split_and!].
  pose proof (si_front _ _ _ _ Hinv) as Hok. unfold frontier_ok in *.
  rewrite HQ in Hok. cbn [search_nodes parents set_search].
  destruct Hok as [rank Ht]. exists rank. eapply tree_inv_nodes; [|done].
  intros c Hc. rewrite (app_removelast_last c0 (l := c0 :: q0)) by done.
  apply elem_of_app. by left.
Qed.

(** *** Dijkstra and A* *)

Definition dijkstra_found (n : nat) (st : App) : Prop :=
  dijkstra_state g s e n st /\ search_inv g s st0 st.

Definition astar_found (n : nat) (st : App) : Prop :=
  astar_state g s e n st /\ search_inv g s st0 st.

Lemma dijkstra_found_bound n st : dijkstra_found n st -> (S n <= size R)%nat.
Proof.
  intros [(_ & _ & done & hp & _ & <- & _ & [Hsc _ _ _]) _]. by eapply scan_goal_bound.
Qed.

Lemma astar_found_bound n st : astar_found n st -> (S n <= size R)%nat.
Proof.
  intros [(_ & _ & done & hp & _ & <- & _ & [Hsc _ _ _]) _]. by eapply scan_goal_bound.
Qed.

Lemma dijkstra_found_step n st :
  dijkstra_found n st ->
  pq_ready e st \/
  forall now, exists st' draws,
    tick CbDijkstra now st
      = Done (st', draws ++ [After (animation_delay_var st) CbDijkstra]) /\
    Forall light_blue draws /\ dijkstra_found (S n) st'.
Proof.
  intros [Hst Hinv].
  destruct (dijkstra_step g w h s e Hrect Hh n st Hst) as [?|Hstep]; [by left|].
  right. intros now. destruct (Hstep now) as (st' & draws & Htick & Hl & Hst').
  exists st', draws. split_and!; try done. split; [done|]. by eapply search_inv_tick.
Qed.

Lemma astar_found_step n st :
  astar_found n st ->
  pq_ready e st \/
  forall now, exists st' draws,
    tick CbAstar now st
      = Done (st', draws ++ [After (animation_delay_var st) CbAstar]) /\
    Forall light_blue draws /\ astar_found (S n) st'.
Proof.
  intros [Hst Hinv].
  destruct (astar_step g w h s e Hrect Hh n st Hst) as [?|Hstep]; [by left|].
  right. intros now. destruct (Hstep now) as (st' & draws & Htick & Hl & Hst').
  exists st', draws. split_and!; try done. split; [done|]. by eapply search_inv_tick.
Qed.

Lemma dijkstra_found_last n st :
  dijkstra_found n st -> pq_ready e st ->
  forall now, exists st' evs,
    tick CbDijkstra now st = Done (st', evs) /\ pending evs = None /\
    solved evs /\ solving st' = false.
Proof.
  intros [Hst Hinv] Hr now.
  destruct (dijkstra_last g s e n st Hst Hr now) as (st' & evs & Htick & Hp & Hs' & Hfin).
  exists st', evs. split_and!; try done.
  by destruct Hfin as [(_ & _ & Hun)|(? & _)].
Qed.

Lemma astar_found_last n st :
  astar_found n st -> pq_ready e st ->
  forall now, exists st' evs,
    tick CbAstar now st = Done (st', evs) /\ pending evs = None /\
    solved evs /\ solving st' = false.
Proof.
  intros [Hst Hinv] Hr now.
  destruct (astar_last g s e n st Hst Hr now) as (st' & evs & Htick & Hp & Hs' & Hfin).
  exists st', evs. split_and!; try done.
  by destruct Hfin as [(_ & _ & Hun)|(? & _)].
Qed.

End Found.

(** X13: on a rectangular grid on which the goal can be reached from the
    start, each of the four variants reports the goal, and never "No
    Solution", within as many callbacks as [R] has cells, for any set [R]
    that holds the reachable cells (the call made by "Solve" itself
    included); the path it paints runs from the goal to the start along
    neighbouring Passage cells. *)
Theorem reachable_goal_is_found (g : Grid) (w h : Z) (s e : coord)
    (R : gset coord) (algo : string) (t0 t1 : Z) (nows : list Z) (st : App) :
  rect g w h -> 0 < h ->
  maze st = Some g -> start_point st = Some s -> end_point st = Some e ->
  paused st = false -> algorithm_var st = algo -> algo ∈ four_algorithms ->
  (forall c, reachable g s c -> c ∈ R) -> reachable g s e ->
  (size R <= S (length nows))%nat ->
  exists st' evs,
    solve t0 t1 nows st = Done (st', evs) /\
    solved evs /\ ~ exhausted evs /\ solving st' = false /\
    head (painted Yellow evs) = Some e /\ last (painted Yellow evs) = Some s /\
    NoDup (painted Yellow evs) /\ route g (painted Yellow evs).
Proof.
  intros Hrect Hh Hg Hs He Hp Ha Halgo HR Hgoal Hlen.
  rewrite (solve_run t0 t1 nows st g s e Hg Hs He). rewrite Ha.
  pose proof (search_inv_init g t0 s st Hg) as Hinit.
  assert (Hend : forall cb stk now st' evs quiet,
            search_inv g s st stk ->
            tick cb now stk = Done (st', evs) -> solved evs -> solving st' = false ->
            run cb (t1 :: nows) (init_search t0 s st) = Done (st', quiet ++ evs) ->
            Forall (fun ev => light_blue ev \/ exists d, ev = After d cb) quiet ->
            exists st' evs,
              run cb (t1 :: nows) (init_search t0 s st) = Done (st', evs) /\
              solved evs /\ ~ exhausted evs /\ solving st' = false /\
              head (painted Yellow evs) = Some e /\ last (painted Yellow evs) = Some s /\
              NoDup (painted Yellow evs) /\ route g (painted Yellow evs)).
  { intros cb stk now st' evs quiet Hinv Htick Hsol Hs' Hrun Hq.
    destruct (found_events g s e st cb now stk st' evs quiet Hinv He Htick Hsol Hq)
      as (? & ? & Hpaint & ? & ? & ? & ? & _).
    exists st', (quiet ++ evs). rewrite Hpaint. by split_and!. }
  unfold four_algorithms in Halgo.
  repeat (apply elem_of_cons in Halgo as [->|Halgo]); [..|by apply elem_of_nil in Halgo].
  - change (callback_of "BFS") with CbBfs.
    destruct (found_run R CbBfs (bfs_found g s e st) (cells_ready e))
      with (nows := t1 :: nows) (st := init_search t0 s st)
      as (n & stk & now & st' & evs & quiet & [_ Hinv] & _ & Htick & Hsol & Hs' & Hrun & Hq).
    { intros n st1. by eapply bfs_found_bound. }
    { intros n st1. by eapply bfs_found_step. }
    { intros n st1. by eapply bfs_found_last. }
    { split; [by apply bfs_init|done]. }
    { simpl. lia. }
    by eapply Hend.
  - change (callback_of "DFS") with CbDfs.
    destruct (found_run R CbDfs (dfs_found g s e st) (dfs_ready e))
      with (nows := t1 :: nows) (st := init_search t0 s st)
      as (n & stk & now & st' & evs & quiet & [_ Hinv] & _ & Htick & Hsol & Hs' & Hrun & Hq).
    { intros n st1. by eapply dfs_found_bound. }
    { intros n st1. by eapply dfs_found_step. }
    { intros n st1. by eapply dfs_found_last. }
    { split; [by apply dfs_init|done]. }
    { simpl. lia. }
    by eapply Hend.
  - change (callback_of "Dijkstra") with CbDijkstra.
    destruct (found_run R CbDijkstra (dijkstra_found g s e st) (pq_ready e))
      with (nows := t1 :: nows) (st := init_search t0 s st)
      as (n & stk & now & st' & evs & quiet & [_ Hinv] & _ & Htick & Hsol & Hs' & Hrun & Hq).
    { intros n st1. by eapply dijkstra_found_bound. }
    { intros n st1. by eapply dijkstra_found_step. }
    { intros n st1. by eapply dijkstra_found_last. }
    { split; [by apply dijkstra_init|done]. }
    { simpl. lia. }
    by eapply Hend.
  - change (callback_of "A*") with CbAstar.
    destruct (found_run R CbAstar (astar_found g s e st) (pq_ready e))
      with (nows := t1 :: nows) (st := init_search t0 s st)
      as (n & stk & now & st' & evs & quiet & [_ Hinv] & _ & Htick & Hsol & Hs' & Hrun & Hq).
    { intros n st1. by eapply astar_found_bound. }
    { intros n st1. by eapply astar_found_step. }
    { intros n st1. by eapply astar_found_last. }
    { split; [by apply astar_init|done]. }
    { simpl. lia. }
    by eapply Hend.
Qed.

Lemma reachable_goal_is_found_witness :
  exists st' evs,
    solve 0 1 (replicate 25 2) (app_with corridor (1, 1) (1, 3) "DFS") = Done (st', evs) /\
    solved evs /\ ~ exhausted evs /\ solving st' = false /\
    head (painted Yellow evs) = Some (1, 3) /\ last (painted Yellow evs) = Some (1, 1) /\
    NoDup (painted Yellow evs) /\ route corridor (painted Yellow evs).
Proof.
  apply (reachable_goal_is_found corridor 5 5 (1, 1) (1, 3) (grid_cells (1, 1) 5 5)
           "DFS" 0 1 (replicate 25 2) (app_with corridor (1, 1) (1, 3) "DFS"));
    try reflexivity.
  - split; [reflexivity|]. repeat constructor.
  - apply list_elem_of_In. simpl. auto.
  - intros c. apply (grid_cells_reachable corridor 5 5). split; [reflexivity|].
    repeat constructor.
  - exists 2. apply corridor_walk.
  - etrans; [apply grid_cells_size; lia|]. vm_compute. lia.
Defined.

(** ** Dijkstra and A* draw a shortest path *)

(** When every recorded distance is the shortest one, a parent link goes
    from a cell to a neighbour that is one step nearer to the start, so the
    backward walk from a cell has one cell more than its distance. *)
Lemma pq_path_length g s ents ps ds :
  pq_tree s ents ps ds -> joined g ps ->
  (forall c d, ds !! c = Some d -> walk g s c d /\ forall k, walk g s c k -> d <= k) ->
  forall c, is_Some (ps !! c) ->
  exists path d,
    trace_back (S (size ps)) ps (Some c) = Done path /\
    ds !! c = Some d /\ Z.of_nat (length path) = d + 1.
Proof.
  intros [Ht Hdom Hstart Hents] Hj Hopt c Hc.
  cut (exists fuel path d, trace_back fuel ps (Some c) = Done path /\
                           ds !! c = Some d /\ Z.of_nat (length path) = d + 1).
  { intros (fuel & path & d & Hrun & Hd & Hlen). exists path, d. split; [|done].
    by eapply trace_back_enough. }
  assert (Hwf : forall n c d, is_Some (ps !! c) -> ds !! c = Some d -> d < Z.of_nat n ->
    exists path, trace_back n ps (Some c) = Done path /\
                 Z.of_nat (length path) = d + 1).
  { clear c Hc. induction n as [|n IH]; intros c d [v Hv] Hd Hr.
    - destruct (Hopt _ _ Hd) as [Hw _]. apply walk_nonneg in Hw. lia.
    - simpl. rewrite Hv. destruct v as [p|]; simpl.
      + destruct (ti_parent _ _ _ _ Ht _ _ Hv) as [Hp Hlt].
        destruct (Hdom p Hp) as [dp Hdp]. rewrite Hd, Hdp in Hlt. simpl in Hlt.
        destruct (Hj _ _ Hv) as [Hn Hpass].
        destruct (Hopt _ _ Hdp) as [Hwp _]. destruct (Hopt _ _ Hd) as [_ Hmin].
        assert (d <= dp + 1) by (apply Hmin; by eapply walk_snoc).
        destruct (IH p dp Hp Hdp ltac:(lia)) as (path & -> & Hlen). simpl.
        exists (c :: path). split; [done|]. simpl length. lia.
      + apply (ti_root _ _ _ _ Ht) in Hv as ->.
        rewrite Hstart in Hd. injection Hd as <-.
        exists [s]. split; [by destruct n|done]. }
  destruct (Hdom c Hc) as [d Hd].
  destruct (Hopt _ _ Hd) as [Hw _]. apply walk_nonneg in Hw.
  destruct (Hwf (Z.to_nat (d + 1)) c d Hc Hd) as (path & ? & ?); [lia|].
  by eexists _, path, d.
Qed.

(** X14: on a rectangular grid on which the goal can be reached, Dijkstra
    and A* report the goal, and the number of steps of the path they paint
    is the length of a shortest walk from the start to the goal. *)
Theorem weighted_path_is_shortest g w h s e d algo t0 t1 nows st :
  rect g w h -> 0 < h ->
  maze st = Some g -> start_point st = Some s -> end_point st = Some e ->
  paused st = false -> algorithm_var st = algo ->
  algo = "Dijkstra" \/ algo = "A*" ->
  walk g s e d -> (forall m, walk g s e m -> d <= m) ->
  (Z.to_nat (w * h) + 1 <= length nows)%nat ->
  exists st' evs,
    solve t0 t1 nows st = Done (st', evs) /\
    solved evs /\ solving st' = false /\
    Z.of_nat (length (painted Yellow evs)) - 1 = d.
Proof.
  intros Hrect Hh Hg Hs He Hp Ha Halgo Hwalk Hmin Hlen.
  rewrite (solve_run t0 t1 nows st g s e Hg Hs He). rewrite Ha.
  pose proof (search_inv_init g t0 s st Hg) as Hinit.
  pose proof (rect_width_nonneg _ _ _ Hrect Hh) as Hw.
  pose proof (grid_cells_size s w h Hw ltac:(lia)) as Hsize.
  assert (HR : forall c, reachable g s c -> c ∈ grid_cells s w h).
  { intros c. by apply grid_cells_reachable. }
  assert (Hgoal : reachable g s e) by (by exists d).
  assert (Hend : forall cb stk now st' evs quiet ents,
            search_inv g s st stk ->
            pq_tree s ents (parents stk) (distances stk) ->
            (forall c d, distances stk !! c = Some d ->
               walk g s c d /\ forall k, walk g s c k -> d <= k) ->
            tick cb now stk = Done (st', evs) -> solved evs -> solving st' = false ->
            run cb (t1 :: nows) (init_search t0 s st) = Done (st', quiet ++ evs) ->
            Forall (fun ev => light_blue ev \/ exists d, ev = After d cb) quiet ->
            exists st' evs,
              run cb (t1 :: nows) (init_search t0 s st) = Done (st', evs) /\
              solved evs /\ solving st' = false /\
              Z.of_nat (length (painted Yellow evs)) - 1 = d).
  { intros cb stk now st' evs quiet ents Hinv Htree Hopt Htick Hsol Hs' Hrun Hq.
    destruct (found_events g s e st cb now stk st' evs quiet Hinv He Htick Hsol Hq)
      as (? & ? & Hpaint & _ & _ & _ & _ & Hrec & Htrace).
    destruct (pq_path_length g s ents _ _ Htree (si_joined _ _ _ _ Hinv) Hopt e Hrec)
      as (path & d' & Htrace' & Hd' & Hlen').
    rewrite Htrace in Htrace'. injection Htrace' as <-.
    destruct (Hopt _ _ Hd') as [Hw' Hmin'].
    exists st', (quiet ++ evs). rewrite Hpaint. split_and!; try done.
    specialize (Hmin _ Hw'). specialize (Hmin' _ Hwalk). lia. }
  destruct Halgo as [-> | ->].
  - change (callback_of "Dijkstra") with CbDijkstra.
    destruct (found_run (grid_cells s w h) CbDijkstra (dijkstra_found g s e st) (pq_ready e))
      with (nows := t1 :: nows) (st := init_search t0 s st)
      as (n & stk & now & st' & evs & quiet & [Hst Hinv] & _ & Htick & Hsol & Hs' & Hrun & Hq).
    { intros n st1. by eapply dijkstra_found_bound. }
    { intros n st1. by eapply dijkstra_found_step. }
    { intros n st1. by eapply dijkstra_found_last. }
    { split; [by apply dijkstra_init|done]. }
    { simpl. lia. }
    destruct Hst as (_ & Hok & done & hp & Hfr & _ & _ & Hpq).
    unfold frontier_ok in Hok. rewrite Hfr in Hok.
    eapply Hend; [done|exact Hok| |done..]. apply (pq_opt _ _ _ _ _ _ _ Hpq).
  - change (callback_of "A*") with CbAstar.
    destruct (found_run (grid_cells s w h) CbAstar (astar_found g s e st) (pq_ready e))
      with (nows := t1 :: nows) (st := init_search t0 s st)
      as (n & stk & now & st' & evs & quiet & [Hst Hinv] & _ & Htick & Hsol & Hs' & Hrun & Hq).
    { intros n st1. by eapply astar_found_bound. }
    { intros n st1. by eapply astar_found_step. }
    { intros n st1. by eapply astar_found_last. }
    { split; [by apply astar_init|done]. }
    { simpl. lia. }
    destruct Hst as (_ & Hok & done & hp & Hfr & _ & _ & Hpq).
    unfold frontier_ok in Hok. rewrite Hfr in Hok.
    eapply Hend; [done|exact Hok| |done..]. apply (pq_opt _ _ _ _ _ _ _ Hpq).
Qed.

Lemma weighted_path_is_shortest_witness :
  exists st' evs,
    solve 0 1 (replicate 26 2) (app_with corridor (1, 1) (1, 3) "A*") = Done (st', evs) /\
    solved evs /\ solving st' = false /\
    Z.of_nat (length (painted Yellow evs)) - 1 = 2.
Proof.
  apply (weighted_path_is_shortest corridor 5 5 (1, 1) (1, 3) 2 "A*" 0 1 (replicate 26 2)
           (app_with corridor (1, 1) (1, 3) "A*")); try reflexivity.
  - split; [reflexivity|]. repeat constructor.
  - by right.
  - apply corridor_walk.
  - intros m Hm. pose proof (walk_nonneg _ _ _ _ Hm).
    destruct (walk_parity _ _ _ _ Hm) as [q Hq]. simpl in Hq.
    destruct (decide (m = 0)) as [->|]; [|lia].
    by apply walk_zero in Hm.
Defined.

(** ** The recorded distances during a Dijkstra or A* search *)

(** A property of the state that holds whenever a run returns, however
    many callbacks it was given. *)
Lemma run_keeps cb (I : nat -> App -> Prop) (Ready K : App -> Prop) :
  (forall n st, I n st ->
     Ready st \/
     forall now, exists st' draws,
       tick cb now st = Done (st', draws ++ [After (animation_delay_var st) cb]) /\
       Forall light_blue draws /\ I (S n) st') ->
  (forall n st, I n st -> Ready st ->
     forall now, exists st' evs,
       tick cb now st = Done (st', evs) /\ pending evs = None /\ K st') ->
  (forall n st, I n st -> K st) ->
  forall nows n st st' evs,
    I n st -> run cb nows st = Done (st', evs) -> K st'.
Proof.
  intros Hstep Hlast HK. induction nows as [|now nows IH]; intros n st st' evs HI Hrun.
  - injection Hrun as <- <-. eauto.
  - unfold run in Hrun. cbn [map drive] in Hrun.
    destruct (Hstep n st HI) as [Hr|Hs].
    + destruct (Hlast n st HI Hr now) as (st1 & evs1 & Htick & Hpend & HK1).
      rewrite Htick in Hrun. cbn [mbind outcome_bind] in Hrun.
      rewrite Hpend, drive_nothing in Hrun. cbn [mbind outcome_bind] in Hrun.
      by injection Hrun as <- <-.
    + destruct (Hs now) as (st1 & draws & Htick & _ & HI1).
      rewrite Htick in Hrun. cbn [mbind outcome_bind] in Hrun.
      rewrite pending_after in Hrun.
      change (drive (Some cb) (map Fire nows) st1) with (run cb nows st1) in Hrun.
      destruct (run cb nows st1) as [[st2 evs2]| |] eqn:Hrun1; try discriminate Hrun.
      cbn [mbind outcome_bind] in Hrun. injection Hrun as <- <-.
      by eapply IH.
Qed.

(** The parents and the distances form a tree of shortest walks. *)
Definition shortest_tree (g : Grid) (s : coord) (st : App) : Prop :=
  (exists ents, pq_tree s ents (parents st) (distances st)) /\
  joined g (parents st) /\
  forall c d, distances st !! c = Some d ->
    walk g s c d /\ forall k, walk g s c k -> d <= k.

Lemma shortest_tree_stopped g s cb now st st' evs :
  maze st = Some g -> shortest_tree g s st ->
  tick cb now st = Done (st', evs) -> solving st' = false ->
  shortest_tree g s st'.
Proof.
  intros Hg Hst Htick Hs'.
  destruct (tick_parents g _ _ _ _ _ Hg Htick) as (_ & Hkeep & _).
  destruct (Hkeep Hs') as [Hps Hds]. unfold shortest_tree. by rewrite Hps, Hds.
Qed.

Lemma shortest_tree_paths g s st :
  shortest_tree g s st ->
  forall c, is_Some (parents st !! c) ->
  exists d path,
    distances st !! c = Some d /\
    walk g s c d /\ (forall k, walk g s c k -> d <= k) /\
    trace_back (S (size (parents st))) (parents st) (Some c) = Done path /\
    Z.of_nat (length path) = d + 1 /\ route g path /\ last path = Some s.
Proof.
  intros ([ents Htree] & Hj & Hopt) c Hc.
  destruct (pq_path_length g s ents _ _ Htree Hj Hopt c Hc) as (path & d & Htr & Hd & Hlen).
  destruct (Hopt _ _ Hd) as [Hw Hmin].
  destruct (tree_inv_trace _ _ _ _ (pt_tree _ _ _ _ Htree) c Hc) as (path' & Htr' & Hlast).
  rewrite Htr in Htr'. injection Htr' as <-.
  destruct (trace_back_linked _ _ _ _ Htr) as [_ Hl].
  exists d, path. split_and!; try done. by eapply linked_route.
Qed.

(** X15: on a rectangular grid, whenever a Dijkstra or A* search started
    by "Solve" has returned, after any number of callbacks, every recorded
    cell has a recorded distance, that distance is the length of a
    shortest walk from the start, and the backward walk over the parents
    from the cell is such a walk: it has that many steps, moves between
    neighbouring Passage cells and ends at the start.  So no distance is
    ever lowered after it was recorded. *)
Theorem recorded_distances_are_shortest g w h s e algo t0 t1 nows st st' evs :
  rect g w h -> 0 < h ->
  maze st = Some g -> start_point st = Some s -> end_point st = Some e ->
  paused st = false -> algorithm_var st = algo ->
  algo = "Dijkstra" \/ algo = "A*" ->
  solve t0 t1 nows st = Done (st', evs) ->
  forall c, is_Some (parents st' !! c) ->
  exists d path,
    distances st' !! c = Some d /\
    walk g s c d /\ (forall k, walk g s c k -> d <= k) /\
    trace_back (S (size (parents st'))) (parents st') (Some c) = Done path /\
    Z.of_nat (length path) = d + 1 /\ route g path /\ last path = Some s.
Proof.
  intros Hrect Hh Hg Hs He Hp Ha Halgo Hrun.
  rewrite (solve_run t0 t1 nows st g s e Hg Hs He) in Hrun. rewrite Ha in Hrun.
  pose proof (search_inv_init g t0 s st Hg) as Hinit.
  apply shortest_tree_paths.
  destruct Halgo as [-> | ->].
  - change (callback_of "Dijkstra") with CbDijkstra in Hrun.
    assert (HK : forall n st1, dijkstra_found g s e st n st1 -> shortest_tree g s st1).
    { intros n st1 [(_ & Hok & done & hp & Hfr & _ & _ & Hpq) Hinv].
      unfold frontier_ok in Hok. rewrite Hfr in Hok. split_and!.
      - by eexists.
      - by destruct Hinv.
      - apply (pq_opt _ _ _ _ _ _ _ Hpq). }
    eapply (run_keeps CbDijkstra (dijkstra_found g s e st) (pq_ready e)
              (shortest_tree g s)); [| |exact HK| |exact Hrun].
    + intros n st1. by eapply dijkstra_found_step.
    + intros n st1 [Hst Hinv] Hr now.
      destruct (dijkstra_last g s e n st1 Hst Hr now) as (st2 & evs2 & Htick & Hpend & Hs2 & _).
      exists st2, evs2. split_and!; try done.
      eapply shortest_tree_stopped; [by destruct Hinv|by eapply HK|done..].
    + split; [by apply dijkstra_init|done].
  - change (callback_of "A*") with CbAstar in Hrun.
    assert (HK : forall n st1, astar_found g s e st n st1 -> shortest_tree g s st1).
    { intros n st1 [(_ & Hok & done & hp & Hfr & _ & _ & Hpq) Hinv].
      unfold frontier_ok in Hok. rewrite Hfr in Hok. split_and!.
      - by eexists.
      - by destruct Hinv.
      - apply (pq_opt _ _ _ _ _ _ _ Hpq). }
    eapply (run_keeps CbAstar (astar_found g s e st) (pq_ready e)
              (shortest_tree g s)); [| |exact HK| |exact Hrun].
    + intros n st1. by eapply astar_found_step.
    + intros n st1 [Hst Hinv] Hr now.
      destruct (astar_last g s e n st1 Hst Hr now) as (st2 & evs2 & Htick & Hpend & Hs2 & _).
      exists st2, evs2. split_and!; try done.
      eapply shortest_tree_stopped; [by destruct Hinv|by eapply HK|done..].
    + split; [by apply astar_init|done].
Qed.

Lemma recorded_distances_are_shortest_witness :
  exists st' evs,
    solve 0 1 [2] (app_with corridor (1, 1) (1, 3) "Dijkstra") = Done (st', evs) /\
    forall c, is_Some (parents st' !! c) ->
    exists d path,
      distances st' !! c = Some d /\
      walk corridor (1, 1) c d /\ (forall k, walk corridor (1, 1) c k -> d <= k) /\
      trace_back (S (size (parents st'))) (parents st') (Some c) = Done path /\
      Z.of_nat (length path) = d + 1 /\ route corridor path /\ last path = Some (1, 1).
Proof.
  eexists _, _. split; [vm_compute; reflexivity|].
  eapply (recorded_distances_are_shortest corridor 5 5 (1, 1) (1, 3) "Dijkstra" 0 1 [2]
            (app_with corridor (1, 1) (1, 3) "Dijkstra")); try reflexivity.
  - split; [reflexivity|]. repeat constructor.
  - by left.
Defined.

(** ** The chain of callbacks *)

(** X16: a callback schedules a successor exactly when the search is still
    running after it, and then exactly one, of its own kind, as its last
    event: after 100 ms while paused (nothing else happens then) and after
    the configured delay otherwise.  A callback that leaves the search
    stopped schedules nothing. *)
Theorem callback_chain_follows_solving cb now st st' evs :
  tick cb now st = Done (st', evs) ->
  (solving st' = true ->
   exists draws,
     evs = draws ++ [After (if paused st then 100 else animation_delay_var st) cb] /\
     Forall light_blue draws /\ (paused st = true -> st' = st /\ draws = [])) /\
  (solving st' = false -> pending evs = None /\ forall d cb', After d cb' ∉ evs).
Proof.
  intros H%tick_has_shape.
  destruct H as [Hs -> ->|Hs Hp -> ->|Hs Hp -> ->|t path Hs Hp Hs' Hp' ->
                |draws Hs Hp Hs' Hp' Hl ->].
  - split; [congruence|]. intros _. split; [done|]. intros d cb' ?%elem_of_nil. done.
  - split; [|congruence]. intros _. exists []. rewrite Hp. by split_and!.
  - split; [simpl; congruence|]. intros _. split; [done|].
    by intros d cb' ?%list_elem_of_singleton.
  - split; [congruence|]. intros _. split; [apply pending_terminal|].
    intros d cb' Hin. apply elem_of_cons in Hin as [?|Hin]; [done|].
    apply elem_of_app in Hin as [Hin|Hin].
    + by apply list_elem_of_fmap in Hin as (c & ? & _).
    + apply elem_of_cons in Hin as [?|Hin]; [done|].
      by apply list_elem_of_singleton in Hin.
  - split; [|congruence]. intros _. exists draws. rewrite Hp. split_and!; try done.
Qed.

Lemma callback_chain_follows_solving_witness :
  exists st' evs,
    tick CbBfs 5 (init_search 0 (1, 1) (app_with corridor (1, 1) (1, 3) "BFS"))
      = Done (st', evs) /\
    (solving st' = true ->
     exists draws,
       evs = draws ++ [After 50 CbBfs] /\
       Forall light_blue draws /\
       (false = true -> st' = init_search 0 (1, 1) (app_with corridor (1, 1) (1, 3) "BFS")
                        /\ draws = [])) /\
    (solving st' = false -> pending evs = None /\ forall d cb', After d cb' ∉ evs).
Proof.
  eexists _, _. split; [vm_compute; reflexivity|].
  eapply (callback_chain_follows_solving CbBfs 5
            (init_search 0 (1, 1) (app_with corridor (1, 1) (1, 3) "BFS"))).
  vm_compute. reflexivity.
Defined.

(** ** The cells that the search paints *)

Lemma visit_cases g st cur ps q evs d r :
  maze st = Some g ->
  visit st cur (ps, q, evs) d = Done r ->
  r = (ps, q, evs) \/
  (passage g (move cur d) /\ ps !! move cur d = None /\
   r = (<[move cur d := Some cur]> ps, q ++ [move cur d],
        evs ++ [DrawCell (move cur d) LightBlue])).
Proof.
  intros Hg. unfold visit. intros (open & Hopen & H)%bind_Done.
  destruct open; simpl in H; [|left; by simplify_eq].
  destruct (bool_decide_reflect (ps !! move cur d = None)) as [Hn|Hn];
    simplify_eq; [right|by left].
  split_and!; try done. by eapply cell_open_true.
Qed.

Lemma relax_dijkstra_cases g st cost cur ps ds h evs d r :
  maze st = Some g ->
  relax_dijkstra st cost cur (ps, ds, h, evs) d = Done r ->
  r = (ps, ds, h, evs) \/
  (passage g (move cur d) /\
   (ds !! move cur d = None \/
    exists old, ds !! move cur d = Some old /\ cost + 1 < old) /\
   r = (<[move cur d := Some cur]> ps, <[move cur d := cost + 1]> ds,
        heappush cost_leb (cost + 1, move cur d) h,
        evs ++ [DrawCell (move cur d) LightBlue])).
Proof.
  intros Hg. unfold relax_dijkstra. intros (open & Hopen & H)%bind_Done.
  destruct open; [|left; by simplify_eq].
  pose proof (cell_open_true g st _ _ Hg Hopen) as Hp.
  destruct (ds !! move cur d) as [old|] eqn:Hd.
  - destruct (Z.ltb_spec (cost + 1) old); simplify_eq; [right|by left].
    split_and!; try done. right. by exists old.
  - simplify_eq. right. split_and!; try done. by left.
Qed.

Lemma relax_astar_cases g st gc cur ps ds h evs d r :
  maze st = Some g ->
  relax_astar st gc cur (ps, ds, h, evs) d = Done r ->
  r = (ps, ds, h, evs) \/
  (passage g (move cur d) /\
   (ds !! move cur d = None \/
    exists old, ds !! move cur d = Some old /\ gc + 1 < old) /\
   exists f,
   r = (<[move cur d := Some cur]> ps, <[move cur d := gc + 1]> ds,
        heappush fcost_leb (f, gc + 1, move cur d) h,
        evs ++ [DrawCell (move cur d) LightBlue])).
Proof.
  intros Hg. unfold relax_astar. intros (open & Hopen & H)%bind_Done.
  destruct open; [|left; by simplify_eq].
  pose proof (cell_open_true g st _ _ Hg Hopen) as Hp.
  apply bind_Done in H as (e & _ & H).
  destruct (ds !! move cur d) as [old|] eqn:Hd.
  - destruct (Z.ltb_spec (gc + 1) old); simplify_eq; [right|by left].
    split_and!; try done; [right; by exists old|by eexists].
  - simplify_eq. right. split_and!; try done; [by left|by eexists].
Qed.

Lemma painted_snoc evs c :
  painted LightBlue (evs ++ [DrawCell c LightBlue]) = painted LightBlue evs ++ [c].
Proof. by rewrite painted_app. Qed.

Lemma painted_after evs d cb :
  painted LightBlue (evs ++ [After d cb]) = painted LightBlue evs.
Proof. rewrite painted_app. simpl. apply app_nil_r. Qed.

Lemma painted_blue_path t1 t2 path :
  painted LightBlue (SetTimeLabel t1 :: map (fun c => DrawCell c Yellow) path ++
                     [SetTimeLabel t2; ShowInfo "Maze Solved" "Maze solved!"]) = [].
Proof.
  change (SetTimeLabel t1 :: ?l) with ([SetTimeLabel t1] ++ l).
  rewrite !painted_app. simpl. rewrite app_nil_r.
  induction path as [|c path IH]; [done|]. simpl. exact IH.
Qed.

(** The neighbour loop of BFS and DFS paints fresh Passage cells, each
    once, and they are the keys that [parents] gains. *)
Definition cells_painted (g : Grid) (ps0 ps : gmap coord (option coord))
    (evs : list event) : Prop :=
  NoDup (painted LightBlue evs) /\
  (forall c, c ∈ painted LightBlue evs -> passage g c /\ ps0 !! c = None) /\
  dom ps = dom ps0 ∪ list_to_set (painted LightBlue evs).

Lemma visits_paint g st cur ps0 q0 ps q evs :
  maze st = Some g ->
  foldM (visit st cur) (ps0, q0, []) deltas = Done (ps, q, evs) ->
  cells_painted g ps0 ps evs.
Proof.
  intros Hg Hfold.
  apply (foldM_inv _ (fun a => cells_painted g ps0 a.1.1 a.2) deltas _ (ps, q, evs))
    in Hfold; [done| |].
  { split_and!; [constructor|by intros c ?%elem_of_nil|set_solver]. }
  intros [[ps1 q1] evs1] d [[ps2 q2] evs2] Hd (Hnd & Hp & Hdom) Hv. simpl in *.
  destruct (visit_cases g _ _ _ _ _ _ _ Hg Hv) as [?|(Hpass & Hnone & ?)]; simplify_eq.
  { done. }
  assert (Hfresh : move cur d ∉ dom ps0 ∪ list_to_set (painted LightBlue evs1)).
  { rewrite <- Hdom. by apply not_elem_of_dom. }
  unfold cells_painted. rewrite painted_snoc. split_and!.
  - apply NoDup_app. split_and!; [done| |apply NoDup_singleton].
    intros c Hc ->%list_elem_of_singleton. set_solver.
  - intros c [Hc|Hc%list_elem_of_singleton]%elem_of_app; [auto|subst c].
    split; [done|]. apply not_elem_of_dom. set_solver.
  - rewrite dom_insert_L, Hdom, list_to_set_app_L. set_solver.
Qed.

(** The neighbour loop of Dijkstra and A* paints Passage cells, each once;
    they are the keys that [distances] gains or whose distance it lowers. *)
Definition costs_painted (g : Grid) (c1 : Z) (ds0 ds : gmap coord Z)
    (evs : list event) : Prop :=
  NoDup (painted LightBlue evs) /\
  (forall c, c ∈ painted LightBlue evs ->
     passage g c /\ ds !! c = Some c1 /\
     (ds0 !! c = None \/ exists old, ds0 !! c = Some old /\ c1 < old)) /\
  (forall c, c ∉ painted LightBlue evs -> ds !! c = ds0 !! c) /\
  dom ds = dom ds0 ∪ list_to_set (painted LightBlue evs).

Lemma costs_painted_step g c1 ds0 ds evs n :
  costs_painted g c1 ds0 ds evs -> passage g n ->
  (ds !! n = None \/ exists old, ds !! n = Some old /\ c1 < old) ->
  costs_painted g c1 ds0 (<[n := c1]> ds) (evs ++ [DrawCell n LightBlue]).
Proof.
  intros (Hnd & Hp & Hsame & Hdom) Hpass Hlow.
  assert (Hnew : n ∉ painted LightBlue evs).
  { intros Hin. destruct (Hp _ Hin) as (_ & Hd & _).
    destruct Hlow as [Hn|(old & Ho & Hlt)]; [congruence|].
    rewrite Hd in Ho. injection Ho as <-. lia. }
  unfold costs_painted. rewrite painted_snoc. split_and!.
  - apply NoDup_app. split_and!; [done| |apply NoDup_singleton].
    by intros c Hc ->%list_elem_of_singleton.
  - intros c [Hc|Hc%list_elem_of_singleton]%elem_of_app.
    + destruct (Hp _ Hc) as (? & ? & ?). split_and!; try done.
      rewrite lookup_insert_ne; [done|]. by intros ->.
    + subst c. rewrite lookup_insert_eq. split_and!; try done.
      by rewrite <- (Hsame n Hnew).
  - intros c Hc. rewrite elem_of_app, list_elem_of_singleton in Hc.
    rewrite lookup_insert_ne by (intros ->; tauto). apply Hsame. tauto.
  - rewrite dom_insert_L, Hdom, list_to_set_app_L. set_solver.
Qed.

Lemma costs_painted_init g c1 ds0 : costs_painted g c1 ds0 ds0 [].
Proof. split_and!; [constructor|by intros c ?%elem_of_nil|done|set_solver]. Qed.

Lemma dijkstra_paints g st cost cur ps0 ds0 h0 ps ds h evs :
  maze st = Some g ->
  foldM (relax_dijkstra st cost cur) (ps0, ds0, h0, []) deltas = Done (ps, ds, h, evs) ->
  costs_painted g (cost + 1) ds0 ds evs.
Proof.
  intros Hg Hfold.
  apply (foldM_inv _ (fun a => costs_painted g (cost + 1) ds0 a.1.1.2 a.2) deltas _
           (ps, ds, h, evs)) in Hfold; [done|apply costs_painted_init|].
  intros [[[ps1 ds1] h1] evs1] d [[[ps2 ds2] h2] evs2] Hd Hinv Hv. simpl in *.
  destruct (relax_dijkstra_cases g _ _ _ _ _ _ _ _ _ Hg Hv) as [?|(Hpass & Hlow & ?)];
    simplify_eq; [done|].
  by apply costs_painted_step.
Qed.

Lemma astar_paints g st gc cur ps0 ds0 h0 ps ds h evs :
  maze st = Some g ->
  foldM (relax_astar st gc cur) (ps0, ds0, h0, []) deltas = Done (ps, ds, h, evs) ->
  costs_painted g (gc + 1) ds0 ds evs.
Proof.
  intros Hg Hfold.
  apply (foldM_inv _ (fun a => costs_painted g (gc + 1) ds0 a.1.1.2 a.2) deltas _
           (ps, ds, h, evs)) in Hfold; [done|apply costs_painted_init|].
  intros [[[ps1 ds1] h1] evs1] d [[[ps2 ds2] h2] evs2] Hd Hinv Hv. simpl in *.
  destruct (relax_astar_cases g _ _ _ _ _ _ _ _ _ Hg Hv) as [?|(Hpass & Hlow & f & ?)];
    simplify_eq; [done|].
  by apply costs_painted_step.
Qed.

(** The keys that count as seen: those of [parents] for BFS and DFS, which
    test [parents], and those of [distances] for Dijkstra and A*, which
    test [distances]. *)
Definition keys (cb : callback) (st : App) : gset coord :=
  match cb with
  | CbBfs | CbDfs => dom (parents st)
  | CbDijkstra | CbAstar => dom (distances st)
  end.

Definition lowered (cb : callback) (st st' : App) (c : coord) : Prop :=
  match cb with
  | CbBfs | CbDfs => False
  | CbDijkstra | CbAstar =>
    exists old new,
      distances st !! c = Some old /\ distances st' !! c = Some new /\ new < old
  end.

(** What one callback paints light blue. *)
Definition paint_step (g : Grid) (cb : callback) (st st' : App)
    (evs : list event) : Prop :=
  NoDup (painted LightBlue evs) /\
  (forall c, c ∈ painted LightBlue evs ->
     passage g c /\ (c ∉ keys cb st \/ lowered cb st st' c)) /\
  keys cb st' = keys cb st ∪ list_to_set (painted LightBlue evs).

Lemma paint_nothing g cb st st' evs :
  painted LightBlue evs = [] -> keys cb st' = keys cb st -> paint_step g cb st st' evs.
Proof.
  intros Hp Hk. unfold paint_step. rewrite Hp, Hk.
  split_and!; [constructor|by intros c ?%elem_of_nil|set_solver].
Qed.

Lemma tick_paints g cb now st st' evs :
  maze st = Some g -> tick cb now st = Done (st', evs) -> paint_step g cb st st' evs.
Proof.
  intros Hg Htick.
  assert (Hgoal : forall fr,
    goal_reached now (set_search fr (parents st) (distances st) st) = Done (st', evs) ->
    paint_step g cb st st' evs).
  { intros fr (Hps & Hds & path & t1 & t2 & _ & ->)%goal_reached_keeps.
    cbn [parents distances set_search] in *. apply paint_nothing.
    - apply painted_blue_path.
    - unfold keys. rewrite Hps, Hds. by destruct cb. }
  destruct cb; simpl in Htick;
    unfold animate_bfs, animate_dfs, animate_dijkstra, animate_astar in Htick;
    (destruct (solving st) eqn:Hsol; cbn [negb] in Htick;
     [|injection Htick as <- <-; by apply paint_nothing]);
    (destruct (paused st) eqn:Hp;
     [injection Htick as <- <-; by apply paint_nothing|]);
    destruct (search_nodes st) as [[|c0 q0]|[|[cost cur] rest]|[|[[f gc] cur] rest]] eqn:Hfr;
    try discriminate Htick;
    try (injection Htick as <- <-; by apply paint_nothing);
    (case_decide as He; [by eapply Hgoal|]).
  - apply bind_Done in Htick as ([[ps q] draws] & Hfold & [= <- <-]).
    cbn [parents distances set_search animation_delay_var] in *.
    apply visits_paint with (g := g) in Hfold as (Hnd & Hpaint & Hdom); [|done].
    unfold paint_step. rewrite painted_after. split_and!; [done| |done].
    intros c Hc. destruct (Hpaint c Hc) as [? Hn]. split; [done|].
    left. by apply not_elem_of_dom.
  - apply bind_Done in Htick as ([[ps q] draws] & Hfold & [= <- <-]).
    cbn [parents distances set_search animation_delay_var] in *.
    apply visits_paint with (g := g) in Hfold as (Hnd & Hpaint & Hdom); [|done].
    unfold paint_step. rewrite painted_after. split_and!; [done| |done].
    intros c Hc. destruct (Hpaint c Hc) as [? Hn]. split; [done|].
    left. by apply not_elem_of_dom.
  - apply bind_Done in Htick as ([[[ps ds] hp] draws] & Hfold & [= <- <-]).
    cbn [parents distances set_search animation_delay_var] in *.
    apply dijkstra_paints with (g := g) in Hfold as (Hnd & Hpaint & _ & Hdom); [|done].
    unfold paint_step. rewrite painted_after. split_and!; [done| |done].
    intros c Hc. destruct (Hpaint c Hc) as (? & Hnew & [Hn|(old & Ho & Hlt)]).
    + split; [done|]. left. by apply not_elem_of_dom.
    + split; [done|]. right. by exists old, (cost + 1).
  - apply bind_Done in Htick as ([[[ps ds] hp] draws] & Hfold & [= <- <-]).
    cbn [parents distances set_search animation_delay_var] in *.
    apply astar_paints with (g := g) in Hfold as (Hnd & Hpaint & _ & Hdom); [|done].
    unfold paint_step. rewrite painted_after. split_and!; [done| |done].
    intros c Hc. destruct (Hpaint c Hc) as (? & Hnew & [Hn|(old & Ho & Hlt)]).
    + split; [done|]. left. by apply not_elem_of_dom.
    + split; [done|]. right. by exists old, (gc + 1).
Qed.

(** What a run paints: fresh Passage cells, each once, and they are the
    keys that it adds. *)
Definition paint_run (g : Grid) (cb : callback) (st st' : App)
    (evs : list event) : Prop :=
  NoDup (painted LightBlue evs) /\
  (forall c, c ∈ painted LightBlue evs -> passage g c /\ c ∉ keys cb st) /\
  keys cb st' = keys cb st ∪ list_to_set (painted LightBlue evs).

Lemma paint_run_nil g cb st : paint_run g cb st st [].
Proof. split_and!; [constructor|by intros c ?%elem_of_nil|set_solver]. Qed.

Lemma paint_run_app g cb st st1 st2 evs1 evs2 :
  paint_run g cb st st1 evs1 -> paint_run g cb st1 st2 evs2 ->
  paint_run g cb st st2 (evs1 ++ evs2).
Proof.
  intros (Hnd1 & Hp1 & Hk1) (Hnd2 & Hp2 & Hk2). unfold paint_run.
  rewrite painted_app. split_and!.
  - apply NoDup_app. split_and!; [done| |done].
    intros c Hc1 Hc2. destruct (Hp2 c Hc2) as [_ Hn]. apply Hn.
    rewrite Hk1. set_solver.
  - intros c [Hc|Hc]%elem_of_app; [auto|].
    destruct (Hp2 c Hc) as [? Hn]. split; [done|]. rewrite Hk1 in Hn. set_solver.
  - rewrite Hk2, Hk1, list_to_set_app_L. set_solver.
Qed.

Lemma pending_tick cb now st st' evs :
  tick cb now st = Done (st', evs) -> pending evs = Some cb \/ pending evs = None.
Proof.
  intros H%tick_has_shape.
  destruct H as [? -> ->|? ? -> ->|? ? -> ->|t path ? ? ? ? ->|draws ? ? ? ? Hl ->].
  - by right.
  - by left.
  - by right.
  - right. apply pending_terminal.
  - left. apply pending_after.
Qed.

Lemma drive_paints g cb (Inv : App -> Prop) :
  (forall st now st' evs,
     Inv st -> tick cb now st = Done (st', evs) -> Inv st' /\ paint_run g cb st st' evs) ->
  forall nows cbo st st' evs,
    cbo = Some cb \/ cbo = None -> Inv st ->
    drive cbo (map Fire nows) st = Done (st', evs) ->
    Inv st' /\ paint_run g cb st st' evs.
Proof.
  intros Htick. induction nows as [|now nows IH]; intros cbo st st' evs Hcbo HI Hrun.
  - injection Hrun as <- <-. split; [done|apply paint_run_nil].
  - cbn [map drive] in Hrun. destruct Hcbo as [-> | ->].
    + destruct (tick cb now st) as [[st1 evs1]| |] eqn:Ht; try discriminate Hrun.
      cbn [mbind outcome_bind] in Hrun.
      destruct (drive (pending evs1) (map Fire nows) st1) as [[st2 evs2]| |] eqn:Hd;
        try discriminate Hrun.
      cbn [mbind outcome_bind] in Hrun. injection Hrun as <- <-.
      destruct (Htick _ _ _ _ HI Ht) as [HI1 Hp1].
      destruct (IH _ _ _ _ (pending_tick _ _ _ _ _ Ht) HI1 Hd) as [HI2 Hp2].
      split; [done|]. by eapply paint_run_app.
    + by eapply (IH None); [right|..].
Qed.

Lemma route_walk g s path : forall c,
  route g path -> head path = Some c -> last path = Some s -> reachable g s c.
Proof.
  induction path as [|a path IH]; intros c Hr Hh Hl; [done|].
  injection Hh as ->. destruct path as [|p path].
  - injection Hl as ->. exists 0. constructor.
  - cbn [route] in Hr. destruct Hr as (Hn & Hp & Hr).
    eapply reachable_step; [by apply (IH p)|done|done].
Qed.

Lemma recorded_reachable g s st0 st c :
  search_inv g s st0 st -> is_Some (parents st !! c) -> reachable g s c.
Proof.
  intros [Hg He Hok Hj] Hc.
  destruct (frontier_ok_tree _ _ Hok) as (rank & nodes & Htree).
  destruct (tree_inv_trace _ _ _ _ Htree c Hc) as (path & Htr & Hlast).
  destruct (trace_back_linked _ _ _ _ Htr) as [Hhead Hl].
  eapply route_walk; [by eapply linked_route|done..].
Qed.

Section Paint.
Variables (g : Grid) (w h : Z) (s e : coord) (st0 : App).
Hypothesis Hrect : rect g w h.
Hypothesis Hh : 0 < h.

Definition shortest (ds : gmap coord Z) : Prop :=
  forall c d, ds !! c = Some d -> walk g s c d /\ forall k, walk g s c k -> d <= k.

Lemma not_lowered cb st st' c :
  shortest (distances st) -> shortest (distances st') -> ~ lowered cb st st' c.
Proof.
  intros Ho Ho'. destruct cb; simpl; try tauto;
    intros (old & new & Hold & Hnew & Hlt);
    destruct (Ho _ _ Hold) as [_ Hmin]; destruct (Ho' _ _ Hnew) as [Hw _];
    specialize (Hmin _ Hw); lia.
Qed.

Lemma paint_step_run cb st st' evs :
  paint_step g cb st st' evs -> (forall c, ~ lowered cb st st' c) ->
  paint_run g cb st st' evs.
Proof.
  intros (Hnd & Hp & Hk) Hno. split_and!; [done| |done].
  intros c Hc. destruct (Hp c Hc) as [? [?|Hl]]; [done|]. by destruct (Hno c).
Qed.

(** BFS and DFS on any state of a search. *)
Lemma cells_tick cb st now st' evs :
  cb = CbBfs \/ cb = CbDfs ->
  search_inv g s st0 st -> tick cb now st = Done (st', evs) ->
  search_inv g s st0 st' /\ paint_run g cb st st' evs.
Proof.
  intros Hcb Hinv Htick. split; [by eapply search_inv_tick|].
  apply paint_step_run; [eapply tick_paints; [by destruct Hinv|done]|].
  intros c. destruct Hcb as [-> | ->]; simpl; tauto.
Qed.

(** Dijkstra and A*, in the states of a run or after its end. *)
Definition dijkstra_run (st : App) : Prop :=
  search_inv g s st0 st /\ shortest (distances st) /\
  ((exists n, dijkstra_state g s e n st) \/ solving st = false).

Definition astar_run (st : App) : Prop :=
  search_inv g s st0 st /\ shortest (distances st) /\
  ((exists n, astar_state g s e n st) \/ solving st = false).

Lemma dijkstra_tick st now st' evs :
  dijkstra_run st -> tick CbDijkstra now st = Done (st', evs) ->
  dijkstra_run st' /\ paint_run g CbDijkstra st st' evs.
Proof.
  intros (Hinv & Hopt & Hst) Htick.
  pose proof (search_inv_tick _ _ _ _ _ _ _ _ Hinv Htick) as Hinv'.
  pose proof (tick_paints g _ _ _ _ _ (si_maze _ _ _ _ Hinv) Htick) as Hstep.
  assert (Hrun : dijkstra_run st'); [|split; [done|]].
  - split; [done|]. destruct Hst as [[n Hst]|Hs].
    + destruct (dijkstra_step g w h s e Hrect Hh n st Hst) as [Hr|Hmore].
      * destruct (dijkstra_last g s e n st Hst Hr now) as (st1 & evs1 & Ht1 & _ & Hs1 & _).
        rewrite Htick in Ht1. injection Ht1 as <- <-.
        destruct (tick_parents g _ _ _ _ _ (si_maze _ _ _ _ Hinv) Htick) as (_ & Hkeep & _).
        destruct (Hkeep Hs1) as [_ ->]. split; [done|by right].
      * destruct (Hmore now) as (st1 & draws & Ht1 & _ & Hst1).
        rewrite Htick in Ht1. injection Ht1 as <- ->.
        split; [|left; by exists (S n)].
        destruct Hst1 as (_ & _ & done & hp & _ & _ & _ & Hpq).
        exact (pq_opt _ _ _ _ _ _ _ Hpq).
    + rewrite (tick_idle _ _ _ Hs) in Htick. injection Htick as <- <-.
      split; [done|by right].
  - apply paint_step_run; [done|]. intros c.
    apply not_lowered; [done|by destruct Hrun as (_ & ? & _)].
Qed.

Lemma astar_tick st now st' evs :
  astar_run st -> tick CbAstar now st = Done (st', evs) ->
  astar_run st' /\ paint_run g CbAstar st st' evs.
Proof.
  intros (Hinv & Hopt & Hst) Htick.
  pose proof (search_inv_tick _ _ _ _ _ _ _ _ Hinv Htick) as Hinv'.
  pose proof (tick_paints g _ _ _ _ _ (si_maze _ _ _ _ Hinv) Htick) as Hstep.
  assert (Hrun : astar_run st'); [|split; [done|]].
  - split; [done|]. destruct Hst as [[n Hst]|Hs].
    + destruct (astar_step g w h s e Hrect Hh n st Hst) as [Hr|Hmore].
      * destruct (astar_last g s e n st Hst Hr now) as (st1 & evs1 & Ht1 & _ & Hs1 & _).
        rewrite Htick in Ht1. injection Ht1 as <- <-.
        destruct (tick_parents g _ _ _ _ _ (si_maze _ _ _ _ Hinv) Htick) as (_ & Hkeep & _).
        destruct (Hkeep Hs1) as [_ ->]. split; [done|by right].
      * destruct (Hmore now) as (st1 & draws & Ht1 & _ & Hst1).
        rewrite Htick in Ht1. injection Ht1 as <- ->.
        split; [|left; by exists (S n)].
        destruct Hst1 as (_ & _ & done & hp & _ & _ & _ & Hpq).
        exact (pq_opt _ _ _ _ _ _ _ Hpq).
    + rewrite (tick_idle _ _ _ Hs) in Htick. injection Htick as <- <-.
      split; [done|by right].
  - apply paint_step_run; [done|]. intros c.
    apply not_lowered; [done|by destruct Hrun as (_ & ? & _)].
Qed.

(** What a search started by "Solve" has painted when it returns, and
    which keys it has then. *)
Lemma search_paints algo t0 nows st st' evs :
  maze st0 = Some g -> end_point st0 = Some e -> paused st0 = false ->
  algorithm_var st0 = algo -> algo ∈ four_algorithms ->
  st = init_search t0 s st0 ->
  run (callback_of algo) nows st = Done (st', evs) ->
  paint_run g (callback_of algo) st st' evs /\
  keys (callback_of algo) st = {[s]} /\
  forall c, c ∈ keys (callback_of algo) st' -> reachable g s c.
Proof.
  intros Hg He Hp Ha Halgo -> Hrun.
  pose proof (search_inv_init g t0 s st0 Hg) as Hinit.
  unfold run in Hrun. unfold four_algorithms in Halgo.
  repeat (apply elem_of_cons in Halgo as [->|Halgo]); [..|by apply elem_of_nil in Halgo].
  - change (callback_of "BFS") with CbBfs in *.
    destruct (drive_paints g CbBfs (search_inv g s st0)) with (nows := nows)
      (cbo := Some CbBfs) (st := init_search t0 s st0) (st' := st') (evs := evs)
      as [Hinv' Hpaint]; [|by left|done|done|].
    { intros st1 now st2 evs2. apply cells_tick. by left. }
    split; [done|]. split.
    + unfold keys, init_search. rewrite Ha. simpl. by rewrite dom_insert_L, dom_empty_L, union_empty_r_L.
    + intros c Hc. unfold keys in Hc. apply elem_of_dom in Hc.
      by eapply recorded_reachable.
  - change (callback_of "DFS") with CbDfs in *.
    destruct (drive_paints g CbDfs (search_inv g s st0)) with (nows := nows)
      (cbo := Some CbDfs) (st := init_search t0 s st0) (st' := st') (evs := evs)
      as [Hinv' Hpaint]; [|by left|done|done|].
    { intros st1 now st2 evs2. apply cells_tick. by right. }
    split; [done|]. split.
    + unfold keys, init_search. rewrite Ha. simpl. by rewrite dom_insert_L, dom_empty_L, union_empty_r_L.
    + intros c Hc. unfold keys in Hc. apply elem_of_dom in Hc.
      by eapply recorded_reachable.
  - change (callback_of "Dijkstra") with CbDijkstra in *.
    pose proof (dijkstra_init g s e t0 st0 Hg He Hp Ha) as Hst.
    assert (H0 : dijkstra_run (init_search t0 s st0)).
    { split; [done|]. split; [|left; by exists 0%nat].
      destruct Hst as (_ & _ & done & hp & _ & _ & _ & Hpq). exact (pq_opt _ _ _ _ _ _ _ Hpq). }
    destruct (drive_paints g CbDijkstra dijkstra_run) with (nows := nows)
      (cbo := Some CbDijkstra) (st := init_search t0 s st0) (st' := st') (evs := evs)
      as [Hinv' Hpaint]; [|by left|done|done|].
    { intros st1 now st2 evs2. apply dijkstra_tick. }
    split; [done|]. split.
    + unfold keys, init_search. rewrite Ha. simpl. by rewrite dom_insert_L, dom_empty_L, union_empty_r_L.
    + intros c Hc. unfold keys in Hc. apply elem_of_dom in Hc as [d Hc].
      destruct Hinv' as (_ & Hopt & _).
      destruct (Hopt _ _ Hc) as [Hw _]. by exists d.
  - change (callback_of "A*") with CbAstar in *.
    pose proof (astar_init g s e t0 st0 Hg He Hp Ha) as Hst.
    assert (H0 : astar_run (init_search t0 s st0)).
    { split; [done|]. split; [|left; by exists 0%nat].
      destruct Hst as (_ & _ & done & hp & _ & _ & _ & Hpq). exact (pq_opt _ _ _ _ _ _ _ Hpq). }
    destruct (drive_paints g CbAstar astar_run) with (nows := nows)
      (cbo := Some CbAstar) (st := init_search t0 s st0) (st' := st') (evs := evs)
      as [Hinv' Hpaint]; [|by left|done|done|].
    { intros st1 now st2 evs2. apply astar_tick. }
    split; [done|]. split.
    + unfold keys, init_search. rewrite Ha. simpl. by rewrite dom_insert_L, dom_empty_L, union_empty_r_L.
    + intros c Hc. unfold keys in Hc. apply elem_of_dom in Hc as [d Hc].
      destruct Hinv' as (_ & Hopt & _).
      destruct (Hopt _ _ Hc) as [Hw _]. by exists d.
Qed.

End Paint.

(** X17: on a rectangular grid, in a search started by "Solve" with any
    of the four algorithms and run for any number of callbacks, no cell is
    painted light blue twice, and every painted cell is a Passage cell
    other than the start that can be reached from the start. *)
Theorem cells_are_painted_once g w h s e algo t0 t1 nows st st' evs :
  rect g w h -> 0 < h ->
  maze st = Some g -> start_point st = Some s -> end_point st = Some e ->
  paused st = false -> algorithm_var st = algo -> algo ∈ four_algorithms ->
  solve t0 t1 nows st = Done (st', evs) ->
  NoDup (painted LightBlue evs) /\
  forall c, c ∈ painted LightBlue evs -> passage g c /\ c ≠ s /\ reachable g s c.
Proof.
  intros Hrect Hh Hg Hs He Hp Ha Halgo Hrun.
  rewrite (solve_run t0 t1 nows st g s e Hg Hs He) in Hrun. rewrite Ha in Hrun.
  destruct (search_paints g w h s e st Hrect Hh algo t0 (t1 :: nows) _ st' evs
              Hg He Hp Ha Halgo eq_refl Hrun) as ((Hnd & Hpaint & Hkeys) & Hinit & Hreach).
  split; [done|]. intros c Hc. destruct (Hpaint c Hc) as [Hpass Hfresh].
  split_and!; [done| |].
  - intros ->. apply Hfresh. rewrite Hinit. set_solver.
  - apply Hreach. rewrite Hkeys. set_solver.
Qed.

Lemma cells_are_painted_once_witness :
  exists st' evs,
    solve 0 1 [2; 3] (app_with corridor (1, 1) (1, 3) "Dijkstra") = Done (st', evs) /\
    NoDup (painted LightBlue evs) /\
    forall c, c ∈ painted LightBlue evs ->
              passage corridor c /\ c ≠ (1, 1) /\ reachable corridor (1, 1) c.
Proof.
  eexists _, _. split; [vm_compute; reflexivity|].
  eapply (cells_are_painted_once corridor 5 5 (1, 1) (1, 3) "Dijkstra" 0 1 [2; 3]
            (app_with corridor (1, 1) (1, 3) "Dijkstra")); try reflexivity.
  - split; [reflexivity|]. repeat constructor.
  - apply list_elem_of_In. simpl. auto.
Defined.

(** ** A search that gives up has painted every reachable cell *)

Lemma scan_closed g s e done V :
  scan_inv g s e done [] V -> forall c, reachable g s c -> c ∈ V.
Proof.
  intros [Hs Hd Hn Hr Hc] c [k Hw].
  induction Hw as [|c c' n _ IH Hnb Hp]; [done|].
  apply Hd in IH. rewrite app_nil_r in IH. destruct (Hc _ IH) as [_ Hcl]. eauto.
Qed.

Section Flood.
Variables (g : Grid) (w h : Z) (s e : coord) (R : gset coord).
Hypothesis Hrect : rect g w h.
Hypothesis Hh : 0 < h.
Hypothesis HR : forall c, reachable g s c -> c ∈ R.
Hypothesis Hun : ~ reachable g s e.

(** The state in which the run gives up holds every reachable cell. *)
Definition flooded (cb : callback) (st : App) (evs : list event) : Prop :=
  exhausted evs /\ maze st = Some g /\ forall c, reachable g s c -> c ∈ keys cb st.

Lemma flood_run cb (I : nat -> App -> Prop) (Ready : App -> Prop) :
  (forall n st, I n st -> (n <= size R)%nat) ->
  (forall n st, I n st ->
     Ready st \/
     forall now, exists st' draws,
       tick cb now st = Done (st', draws ++ [After (animation_delay_var st) cb]) /\
       Forall light_blue draws /\ I (S n) st') ->
  (forall n st, I n st -> Ready st ->
     forall now, exists st' evs,
       tick cb now st = Done (st', evs) /\ pending evs = None /\ flooded cb st evs) ->
  forall nows st, I 0%nat st -> (size R < length nows)%nat ->
  exists stk now st' evs quiet,
    tick cb now stk = Done (st', evs) /\ flooded cb stk evs /\
    run cb nows st = Done (st', quiet ++ evs).
Proof.
  intros Hb Hstep Hlast nows st HI Hlen.
  destruct (run_to_end cb I Ready (fun stk st' evs => flooded cb stk evs) (size R))
    with (nows := nows) (st := st)
    as (k & stk & quiet & now & st' & evs & _ & _ & _ & Htick & Hrun & Hfl); try done.
  by exists stk, now, st', evs, quiet.
Qed.

Lemma bfs_flooded n st :
  bfs_state g s e n st -> cells_ready e st ->
  forall now, exists st' evs,
    tick CbBfs now st = Done (st', evs) /\ pending evs = None /\ flooded CbBfs st evs.
Proof.
  intros Hst Hr now.
  destruct (bfs_last g s e n st Hst Hr now) as (st' & evs & Htick & Hp & Hs' & Hfin).
  exists st', evs. split_and!; try done.
  destruct Hst as (Hsg & lvl & done & Q & HQ & _ & Hsc & _).
  split_and!.
  - destruct Hfin as [(? & _)|(_ & d & Hw & _)]; [done|]. destruct Hun. by exists d.
  - by destruct Hsg.
  - destruct Hr as [Hr|[rest Hr]]; rewrite HQ in Hr; injection Hr as ->.
    + simpl. by eapply scan_closed.
    + destruct Hun. apply (sc_reach _ _ _ _ _ _ Hsc), (sc_dom _ _ _ _ _ _ Hsc), elem_of_app.
      right. by left.
Qed.

Lemma dfs_flooded n st :
  dfs_state g s e n st -> search_nodes st = Cells [] ->
  forall now, exists st' evs,
    tick CbDfs now st = Done (st', evs) /\ pending evs = None /\ flooded CbDfs st evs.
Proof.
  intros Hst Hr now.
  destruct (dfs_last g s e n st Hst Hr now) as (st' & evs & Htick & Hp & Hs' & Hex & _).
  exists st', evs. split_and!; try done.
  destruct Hst as (Hsg & done & Q & HQ & _ & Hsc).
  rewrite HQ in Hr. injection Hr as ->.
  split_and!; [done|by destruct Hsg|]. simpl. by eapply scan_closed.
Qed.

Lemma pq_flooded cb st evs st' done (cells : list coord) :
  searching g e st -> pq_ready e st ->
  scan_inv g s e done cells (dom (distances st)) ->
  (pops (search_nodes st) = None -> cells = []) ->
  (forall d, pops (search_nodes st) = Some (d, e) -> e ∈ cells) ->
  pq_final g s e st st' evs ->
  cb = CbDijkstra \/ cb = CbAstar ->
  flooded cb st evs.
Proof.
  intros Hsg Hr Hsc Hempty Htop Hfin Hcb.
  assert (cells = []) as ->.
  { destruct Hr as [Hr|[d Hr]]; [auto|].
    destruct Hun. apply (sc_reach _ _ _ _ _ _ Hsc), (sc_dom _ _ _ _ _ _ Hsc), elem_of_app.
    right. by eapply Htop. }
  split_and!.
  - destruct Hfin as (_ & [(? & _)|(_ & d & _ & Hw & _)]); [done|]. destruct Hun. by exists d.
  - by destruct Hsg.
  - intros c Hc. pose proof (scan_closed _ _ _ _ _ Hsc c Hc).
    by destruct Hcb as [-> | ->].
Qed.

Lemma dijkstra_flooded n st :
  dijkstra_state g s e n st -> pq_ready e st ->
  forall now, exists st' evs,
    tick CbDijkstra now st = Done (st', evs) /\ pending evs = None /\
    flooded CbDijkstra st evs.
Proof.
  intros Hst Hr now.
  destruct (dijkstra_last g s e n st Hst Hr now) as (st' & evs & Htick & Hp & Hfin).
  exists st', evs. split_and!; try done.
  destruct Hst as (Hsg & _ & done & hp & Hfr & _ & _ & Hpq).
  eapply (pq_flooded CbDijkstra st evs st' done (cost_ents hp).*2); try done.
  - apply (pq_scan _ _ _ _ _ _ _ Hpq).
  - rewrite Hfr. destruct hp as [|[??] ?]; [done|]. by intros [=].
  - rewrite Hfr. destruct hp as [|[d0 c0] hp]; [done|]. intros d [= -> ->]. by left.
  - by left.
Qed.

Lemma astar_flooded n st :
  astar_state g s e n st -> pq_ready e st ->
  forall now, exists st' evs,
    tick CbAstar now st = Done (st', evs) /\ pending evs = None /\
    flooded CbAstar st evs.
Proof.
  intros Hst Hr now.
  destruct (astar_last g s e n st Hst Hr now) as (st' & evs & Htick & Hp & Hfin).
  exists st', evs. split_and!; try done.
  destruct Hst as (Hsg & _ & done & hp & Hfr & _ & _ & Hpq).
  eapply (pq_flooded CbAstar st evs st' done hp.*2); try done.
  - apply (pq_scan _ _ _ _ _ _ _ Hpq).
  - rewrite Hfr. destruct hp as [|[[??]?] ?]; [done|]. by intros [=].
  - rewrite Hfr. destruct hp as [|[[f0 d0] c0] hp]; [done|]. intros d [= -> ->]. by left.
  - by right.
Qed.

End Flood.

(** X18: on a rectangular grid on which the goal cannot be reached, a
    search with any of the four algorithms that is given one callback more
    than there are reachable cells reports "No Solution", and by then it
    has painted light blue, exactly once, every cell that can be reached
    from the start, the start itself excepted, and no other cell. *)
Theorem exhausted_search_painted_all (g : Grid) (w h : Z) (s e : coord)
    (R : gset coord) (algo : string) (t0 t1 : Z) (nows : list Z) (st : App) :
  rect g w h -> 0 < h ->
  maze st = Some g -> start_point st = Some s -> end_point st = Some e ->
  paused st = false -> algorithm_var st = algo -> algo ∈ four_algorithms ->
  (forall c, c ∈ R <-> reachable g s c) -> e ∉ R ->
  length nows = size R ->
  exists st' evs,
    solve t0 t1 nows st = Done (st', evs) /\ exhausted evs /\
    NoDup (painted LightBlue evs) /\
    forall c, reachable g s c <-> c = s \/ c ∈ painted LightBlue evs.
Proof.
  intros Hrect Hh Hg Hs He Hp Ha Halgo HR Hout Hlen.
  rewrite (solve_run t0 t1 nows st g s e Hg Hs He). rewrite Ha.
  assert (HR' : forall c, reachable g s c -> c ∈ R) by (intros c; apply HR).
  assert (Hun : ~ reachable g s e) by (by intros ?%HR).
  assert (Hend : forall stk now st' evs quiet,
            tick (callback_of algo) now stk = Done (st', evs) ->
            flooded g s (callback_of algo) stk evs ->
            run (callback_of algo) (t1 :: nows) (init_search t0 s st)
              = Done (st', quiet ++ evs) ->
            exists st' evs,
              run (callback_of algo) (t1 :: nows) (init_search t0 s st) = Done (st', evs) /\
              exhausted evs /\ NoDup (painted LightBlue evs) /\
              forall c, reachable g s c <-> c = s \/ c ∈ painted LightBlue evs).
  { intros stk now st' evs quiet Htick (Hex & Hgk & Hall) Hrun.
    destruct (search_paints g w h s e st Hrect Hh algo t0 (t1 :: nows) _ st' (quiet ++ evs)
                Hg He Hp Ha Halgo eq_refl Hrun) as ((Hnd & Hpaint & Hkeys) & Hinit & Hreach).
    destruct (tick_paints g _ _ _ _ _ Hgk Htick) as (_ & _ & Hlast).
    exists st', (quiet ++ evs). split_and!; [done| |done|].
    - unfold exhausted in *. apply elem_of_app. by right.
    - intros c. split.
      + intros Hc%Hall. assert (Hin : c ∈ keys (callback_of algo) st') by set_solver.
        rewrite Hkeys, Hinit in Hin. set_solver.
      + intros [->|Hc]; [exists 0; constructor|].
        apply Hreach. rewrite Hkeys. set_solver. }
  unfold four_algorithms in Halgo.
  repeat (apply elem_of_cons in Halgo as [->|Halgo]); [..|by apply elem_of_nil in Halgo].
  - change (callback_of "BFS") with CbBfs in *.
    destruct (flood_run g s R CbBfs (bfs_state g s e) (cells_ready e))
      with (nows := t1 :: nows) (st := init_search t0 s st)
      as (stk & now & st' & evs & quiet & Htick & Hfl & Hrun).
    { intros n st1. by apply bfs_bound. }
    { intros n st1. by apply (bfs_step g w h). }
    { intros n st1. by apply bfs_flooded. }
    { by apply bfs_init. }
    { simpl. lia. }
    by eapply Hend.
  - change (callback_of "DFS") with CbDfs in *.
    destruct (flood_run g s R CbDfs (dfs_state g s e) (fun st0 => search_nodes st0 = Cells []))
      with (nows := t1 :: nows) (st := init_search t0 s st)
      as (stk & now & st' & evs & quiet & Htick & Hfl & Hrun).
    { intros n st1. by apply dfs_bound. }
    { intros n st1 Hst. by apply (dfs_step g w h). }
    { intros n st1. by apply dfs_flooded. }
    { by apply dfs_init. }
    { simpl. lia. }
    by eapply Hend.
  - change (callback_of "Dijkstra") with CbDijkstra in *.
    destruct (flood_run g s R CbDijkstra (dijkstra_state g s e) (pq_ready e))
      with (nows := t1 :: nows) (st := init_search t0 s st)
      as (stk & now & st' & evs & quiet & Htick & Hfl & Hrun).
    { intros n st1. by apply dijkstra_bound. }
    { intros n st1. by apply (dijkstra_step g w h). }
    { intros n st1. by apply dijkstra_flooded. }
    { by apply dijkstra_init. }
    { simpl. lia. }
    by eapply Hend.
  - change (callback_of "A*") with CbAstar in *.
    destruct (flood_run g s R CbAstar (astar_state g s e) (pq_ready e))
      with (nows := t1 :: nows) (st := init_search t0 s st)
      as (stk & now & st' & evs & quiet & Htick & Hfl & Hrun).
    { intros n st1. by apply astar_bound. }
    { intros n st1. by apply (astar_step g w h). }
    { intros n st1. by apply astar_flooded. }
    { by apply astar_init. }
    { simpl. lia. }
    by eapply Hend.
Qed.

Lemma corridor_reachable c :
  c ∈ ({[(1, 1); (1, 2); (1, 3)]} : gset coord) <-> reachable corridor (1, 1) c.
Proof.
  split.
  - intros Hc. assert (c = (1, 1) \/ c = (1, 2) \/ c = (1, 3)) as [->|[->| ->]]
      by set_solver.
    + exists 0. constructor.
    + exists (0 + 1). eapply (walk_snoc _ _ (1, 1)); [constructor|..];
        first [reflexivity | apply neighbours_spec; simpl; lia].
    + exists 2. apply corridor_walk.
  - intros [k Hw]. induction Hw as [|c c' n _ IH Hnb Hp]; [set_solver|].
    assert (c = (1, 1) \/ c = (1, 2) \/ c = (1, 3)) as Hc by set_solver.
    apply neighbours_spec in Hnb. destruct c' as [x y]. simpl in Hnb.
    destruct Hc as [->|[->| ->]]; simpl in Hnb;
      destruct Hnb as [[-> ->]|[[-> ->]|[[-> ->]|[-> ->]]]];
      first [vm_compute in Hp; discriminate | set_solver].
Qed.

Lemma exhausted_search_painted_all_witness :
  exists st' evs,
    solve 0 1 [2; 3; 4] (app_with corridor (1, 1) (3, 3) "DFS") = Done (st', evs) /\
    exhausted evs /\ NoDup (painted LightBlue evs) /\
    forall c, reachable corridor (1, 1) c <-> c = (1, 1) \/ c ∈ painted LightBlue evs.
Proof.
  apply (exhausted_search_painted_all corridor 5 5 (1, 1) (3, 3)
           {[(1, 1); (1, 2); (1, 3)]} "DFS" 0 1 [2; 3; 4]
           (app_with corridor (1, 1) (3, 3) "DFS")); try reflexivity.
  - split; [reflexivity|]. repeat constructor.
  - apply list_elem_of_In. simpl. auto.
  - apply corridor_reachable.
  - set_solver.
Defined.
